(** * MJML serialiser of the e-mail builder (src/services/mjmlService.ts)

    A shallow embedding of [generateMJML] and of its helpers, followed by the
    properties of the serialiser that the specification states.

    Conventions of the embedding.
    - A JavaScript string is a [string]: a sequence of 8-bit code units, read
      as the code units below 256 of a UTF-16 string.  [trim] and
      [toLowerCase] are the JavaScript functions restricted to that range.
    - A JavaScript object used as a string-to-string record is a [JSObject]:
      the list of its own properties in insertion order.  Insertion order is
      enumeration order for the keys that are not written with digits only;
      the statements that read the order of the attributes in a tag assume
      [plain] of the objects they read.
    - A JavaScript [Set] of strings is the list of its members in insertion
      order.
    - The component registry [MJML_COMPONENTS] is a constant of src/constants,
      outside the service: it is a parameter of everything that renders. *)

From Stdlib Require Import Strings.String Strings.Ascii Lists.List Bool.Bool.
From Stdlib Require Import Arith.Arith micromega.Lia Sorting.Permutation.
Import ListNotations.

Local Open Scope list_scope.
Local Open Scope string_scope.

(** ** JavaScript strings *)

Module JS.

(** The two characters that cannot be written inside a literal. *)
Definition NL : string := String (ascii_of_nat 10) EmptyString.
Definition DQ : string := String (ascii_of_nat 34) EmptyString.

(** Truthiness of a string: every string but the empty one. *)
Definition truthy (s : string) : bool :=
  match s with
  | EmptyString => false
  | String _ _ => true
  end.

(** Truthiness of [boolean | undefined]. *)
Definition truthy_flag (o : option bool) : bool :=
  match o with
  | Some b => b
  | None => false
  end.

(** White space and line terminators of ECMAScript below code unit 256:
    TAB, LF, VT, FF, CR, SP and NBSP. *)
Definition is_ws (c : ascii) : bool :=
  let n := nat_of_ascii c in
  ((9 <=? n)%nat && (n <=? 13)%nat) || (n =? 32)%nat || (n =? 160)%nat.

Fixpoint trimStart (s : string) : string :=
  match s with
  | EmptyString => EmptyString
  | String c r => if is_ws c then trimStart r else s
  end.

Fixpoint trimEnd (s : string) : string :=
  match s with
  | EmptyString => EmptyString
  | String c r =>
      let r' := trimEnd r in
      if is_ws c && negb (truthy r') then EmptyString else String c r'
  end.

(** [String.prototype.trim]. *)
Definition trim (s : string) : string := trimEnd (trimStart s).

(** Lower-casing of one code unit: A-Z and the upper-case letters of the
    Latin-1 supplement (U+00C0 to U+00DE but the multiplication sign). *)
Definition lower_char (c : ascii) : ascii :=
  let n := nat_of_ascii c in
  if ((65 <=? n)%nat && (n <=? 90)%nat)
     || ((192 <=? n)%nat && (n <=? 222)%nat && negb (n =? 215)%nat)
  then ascii_of_nat (n + 32)
  else c.

(** [String.prototype.toLowerCase]. *)
Fixpoint toLowerCase (s : string) : string :=
  match s with
  | EmptyString => EmptyString
  | String c r => String (lower_char c) (toLowerCase r)
  end.

(** [s.split(sep)] for a one-character separator: never empty. *)
Fixpoint split (sep : ascii) (s : string) : list string :=
  match s with
  | EmptyString => [EmptyString]
  | String c r =>
      if Ascii.eqb c sep then EmptyString :: split sep r
      else match split sep r with
           | h :: t => String c h :: t
           | [] => [String c EmptyString]
           end
  end.

(** [parts.join(sep)]. *)
Fixpoint join (sep : string) (parts : list string) : string :=
  match parts with
  | [] => EmptyString
  | [p] => p
  | p :: rest => p ++ sep ++ join sep rest
  end.

(** [s.includes(c)] for a one-character needle. *)
Fixpoint includes (c : ascii) (s : string) : bool :=
  match s with
  | EmptyString => false
  | String d r => Ascii.eqb d c || includes c r
  end.

(** [s.replace(/ /g, '+')]. *)
Fixpoint spaces_to_plus (s : string) : string :=
  match s with
  | EmptyString => EmptyString
  | String c r =>
      String (if Ascii.eqb c " " then "+"%char else c) (spaces_to_plus r)
  end.

Definition is_quote (c : ascii) : bool :=
  (nat_of_ascii c =? 34)%nat || (nat_of_ascii c =? 39)%nat.

(** The first alternative of [/^["']|["']$/g]: a quote at position 0. *)
Definition dropLeadingQuote (s : string) : string :=
  match s with
  | String c r => if is_quote c then r else s
  | EmptyString => EmptyString
  end.

(** The second alternative: a quote at the last position. *)
Fixpoint dropTrailingQuote (s : string) : string :=
  match s with
  | EmptyString => EmptyString
  | String c EmptyString => if is_quote c then EmptyString else s
  | String c r => String c (dropTrailingQuote r)
  end.

(** [s.replace(/^["']|["']$/g, '')].  The scan is left to right and the
    matches do not overlap: a leading quote is consumed first, and the
    trailing alternative is tried on what follows it. *)
Definition stripQuotes (s : string) : string :=
  dropTrailingQuote (dropLeadingQuote s).

(** A JavaScript [Set<string>] in insertion order. *)
Definition has (s : list string) (x : string) : bool :=
  existsb (String.eqb x) s.

Definition add (x : string) (s : list string) : list string :=
  if has s x then s else (s ++ [x])%list.

(** A string-keyed object in insertion order. *)
Definition JSObject : Type := list (string * string).

(** [o[k]]. *)
Fixpoint get (k : string) (o : JSObject) : option string :=
  match o with
  | [] => None
  | (k', v) :: r => if String.eqb k k' then Some v else get k r
  end.

(** [o[k] = v]: an existing property keeps its place. *)
Fixpoint set (k v : string) (o : JSObject) : JSObject :=
  match o with
  | [] => [(k, v)]
  | (k', v') :: r =>
      if String.eqb k k' then (k', v) :: r else (k', v') :: set k v r
  end.

(** [{...acc, ...src}]: the properties of [src] are set on [acc] in order. *)
Definition spread (src acc : JSObject) : JSObject :=
  fold_left (fun o kv => set (fst kv) (snd kv) o) src acc.

(** The keys of an object are pairwise distinct. *)
Definition wf (o : JSObject) : Prop := NoDup (map fst o).

End JS.

(** ** Data model *)

Set Warnings "-register-all".

(** The interface [MJElement] of the types module, which is carried in
    src/components/CampaignsPanel.tsx (lines 207-217): [id], [type],
    [content?], [attributes], [children?], [hidden?] and [label?].  An
    optional field is an [option]; [type] is a string, of which
    [MJComponentType] is the subset of the known tags. *)
Inductive MJElement : Type :=
  mkMJElement {
      id : string;
      type : string;
      attributes : JS.JSObject;
      content : option string;
      children : option (list MJElement);
      hidden : option bool;
      label : option string
    }.

(** Modelled from the spec: an entry of the component registry
    ([MJML_COMPONENTS] of src/constants). *)
Record ComponentDef : Type :=
  mkComponentDef {
      c_type : string;
      defaultAttrs : JS.JSObject;
      defaultContent : option string;
      isContainer : bool
    }.

(** Induction over a tree of elements, with the children as a [Forall]. *)
Section MJElement_induction.

Variable P : MJElement -> Prop.

Hypothesis P_node :
  forall i t a c ch h l,
    match ch with Some cs => Forall P cs | None => True end ->
    P (mkMJElement i t a c ch h l).

Fixpoint MJElement_tree_ind (el : MJElement) : P el :=
  match el with
  | mkMJElement i t a c ch h l =>
      P_node i t a c ch h l
        (match ch return match ch with Some cs => Forall P cs | None => True end with
         | None => I
         | Some cs =>
             (fix go (l : list MJElement) : Forall P l :=
                match l with
                | [] => Forall_nil P
                | x :: r => Forall_cons x (MJElement_tree_ind x) (go r)
                end) cs
         end)
  end.

End MJElement_induction.

(** ** Static sets of mjmlService.ts *)

(** Head components: rendered inside mj-head, not mj-body. *)
Definition HEAD_TYPES : list string :=
  [ "mj-attributes"; "mj-breakpoint"; "mj-font"; "mj-html-attributes";
    "mj-preview"; "mj-style"; "mj-title" ].

(** Tags that are self-closing (no children or text content). *)
Definition SELF_CLOSING : list string :=
  [ "mj-breakpoint"; "mj-font"; "mj-image"; "mj-divider"; "mj-spacer";
    "mj-carousel-image"; "mj-html-attributes" ].

(** System and web-safe fonts, which need no Google Fonts link. *)
Definition SYSTEM_FONTS : list string :=
  [ "arial"; "helvetica"; "helvetica neue"; "verdana"; "tahoma";
    "trebuchet ms"; "times new roman"; "georgia"; "garamond"; "courier new";
    "courier"; "palatino"; "book antiqua"; "impact"; "comic sans ms";
    "lucida sans"; "lucida grande"; "sans-serif"; "serif"; "monospace";
    "cursive"; "fantasy" ].

Record GoogleFont : Type := mkGoogleFont { name : string; url : string }.

(** Google Fonts that are always included in the generated head. *)
Definition DEFAULT_GOOGLE_FONTS : list GoogleFont :=
  [ {| name := "Inter";
       url := "https://fonts.googleapis.com/css2?family=Inter:wght@300;400;500;700&display=swap" |} ].

(** ** Font helpers *)

(** [ff.split(',')[0].trim().replace(/^["']|["']$/g, '')]. *)
Definition primary (ff : string) : string :=
  JS.stripQuotes (JS.trim (hd "" (JS.split "," ff))).

(** The body of the loop of [walk] up to the recursive call: what one element
    adds to [fonts]. *)
Definition visit (el : MJElement) (fonts : list string) : list string :=
  match JS.get "font-family" (attributes el) with
  | Some ff =>
      if JS.truthy ff then
        if JS.truthy (primary ff) then JS.add (primary ff) fonts else fonts
      else fonts
  | None => fonts
  end.

(** One iteration of the loop of [walk]; [fonts] is the set the closure
    mutates, threaded through. *)
Fixpoint walk_el (el : MJElement) (fonts : list string) : list string :=
  let fonts1 := visit el fonts in
  match children el with
  | Some cs => fold_left (fun acc c => walk_el c acc) cs fonts1
  | None => fonts1
  end.

Definition walk (els : list MJElement) (fonts : list string) : list string :=
  fold_left (fun acc el => walk_el el acc) els fonts.

Definition collectFontsFromElements (elements : list MJElement) : list string :=
  walk elements [].

Definition googleFontsUrl (fontName : string) : string :=
  "https://fonts.googleapis.com/css?family="
    ++ JS.spaces_to_plus (JS.trim fontName) ++ ":300,400,500,700".

Definition declaredFontNames (fontEls : list MJElement) : list string :=
  fold_left
    (fun names el =>
       match JS.get "name" (attributes el) with
       | Some n =>
           if JS.truthy n then JS.add (JS.toLowerCase (JS.trim n)) names
           else names
       | None => names
       end)
    fontEls [].

(** ** Hidden filtering *)

Definition visibleb (el : MJElement) : bool := negb (JS.truthy_flag (hidden el)).

(** The function mapped by [stripHidden]; the recursive call on the children
    is the filter and the map of [stripHidden] in one loop, which is what
    structural recursion needs ([stripHidden_el_eq] below gives the equation
    of the source). *)
Fixpoint stripHidden_el (el : MJElement) : MJElement :=
  match el with
  | mkMJElement i t a c (Some cs) h l =>
      mkMJElement i t a c
        (Some ((fix go (els : list MJElement) : list MJElement :=
                  match els with
                  | [] => []
                  | e :: r =>
                      if visibleb e then stripHidden_el e :: go r else go r
                  end) cs))
        h l
  | mkMJElement _ _ _ _ None _ _ => el
  end.

Definition stripHidden (els : list MJElement) : list MJElement :=
  map stripHidden_el (filter visibleb els).

(** ** The serialiser *)

Definition visible (elements : list MJElement) : list MJElement :=
  stripHidden elements.

Definition headEls (elements : list MJElement) : list MJElement :=
  filter (fun el => JS.has HEAD_TYPES (type el)) (visible elements).

Definition bodyEls (elements : list MJElement) : list MJElement :=
  filter (fun el => negb (JS.has HEAD_TYPES (type el))) (visible elements).

Definition manualFontEls (elements : list MJElement) : list MJElement :=
  filter (fun el => String.eqb (type el) "mj-font") (headEls elements).

(** A synthesised font declaration, as pushed on [autoFontLines]. *)
Definition fontLine (n href : string) : string :=
  "    <mj-font name=" ++ JS.DQ ++ n ++ JS.DQ
    ++ " href=" ++ JS.DQ ++ href ++ JS.DQ ++ " />".

(** Step 1: the loop over [DEFAULT_GOOGLE_FONTS]; the state is
    [(autoFontLines, alreadyDeclared)]. *)
Definition injectDefaults (st : list string * list string)
  : list string * list string :=
  fold_left
    (fun st f =>
       if negb (JS.has (snd st) (JS.toLowerCase (name f))) then
         ((fst st ++ [fontLine (name f) (url f)])%list,
          JS.add (JS.toLowerCase (name f)) (snd st))
       else st)
    DEFAULT_GOOGLE_FONTS st.

(** Step 2: the loop over [usedFonts]; [alreadyDeclared] is only read. *)
Definition injectUsed (usedFonts : list string) (st : list string * list string)
  : list string :=
  fold_left
    (fun lines font =>
       if JS.has SYSTEM_FONTS (JS.toLowerCase font) then lines
       else if JS.has (snd st) (JS.toLowerCase font) then lines
       else (lines ++ [fontLine font (googleFontsUrl font)])%list)
    usedFonts (fst st).

Definition alreadyDeclared (elements : list MJElement) : list string :=
  declaredFontNames (manualFontEls elements).

Definition usedFonts (elements : list MJElement) : list string :=
  collectFontsFromElements (bodyEls elements).

Definition autoFontLines (elements : list MJElement) : list string :=
  injectUsed (usedFonts elements) (injectDefaults ([], alreadyDeclared elements)).

Section Serialiser.

(** The component registry of src/constants. *)
Variable MJML_COMPONENTS : list ComponentDef.

(** [MJML_COMPONENTS.find(c => c.type === el.type)]. *)
Definition componentDef (el : MJElement) : option ComponentDef :=
  find (fun c => String.eqb (c_type c) (type el)) MJML_COMPONENTS.

(** [componentDef?.defaultAttrs ?? {}]. *)
Definition registryDefaultAttrs (el : MJElement) : JS.JSObject :=
  match componentDef el with
  | Some d => defaultAttrs d
  | None => []
  end.

(** [{ ...(componentDef?.defaultAttrs ?? {}), ...el.attributes }]. *)
Definition mergedAttributes (el : MJElement) : JS.JSObject :=
  JS.spread (attributes el) (JS.spread (registryDefaultAttrs el) []).

(** The entries that pass the filter [v !== '']. *)
Definition emittedAttributes (el : MJElement) : JS.JSObject :=
  filter (fun kv => JS.truthy (snd kv)) (mergedAttributes el).

Definition attrs (el : MJElement) : string :=
  JS.join " "
    (map (fun kv => fst kv ++ "=" ++ JS.DQ ++ snd kv ++ JS.DQ)
       (emittedAttributes el)).

Definition attrStr (el : MJElement) : string :=
  if JS.truthy (attrs el) then " " ++ attrs el else "".

Fixpoint renderEl (el : MJElement) (indent : string) : string :=
  if JS.has SELF_CLOSING (type el) then
    indent ++ "<" ++ type el ++ attrStr el ++ " />"
  else
    let children :=
      match children el with
      | Some cs => JS.join JS.NL (map (fun c => renderEl c (indent ++ "  ")) cs)
      | None => ""
      end in
    let content :=
      match content el with
      | Some c => c
      | None => ""
      end in
    let inner := JS.join JS.NL (filter JS.truthy [content; children]) in
    if negb (JS.truthy inner) then
      indent ++ "<" ++ type el ++ attrStr el ++ "></" ++ type el ++ ">"
    else if JS.includes (ascii_of_nat 10) inner then
      indent ++ "<" ++ type el ++ attrStr el ++ ">" ++ JS.NL
        ++ inner ++ JS.NL ++ indent ++ "</" ++ type el ++ ">"
    else
      indent ++ "<" ++ type el ++ attrStr el ++ ">"
        ++ inner ++ "</" ++ type el ++ ">".

Definition manualHeadLines (elements : list MJElement) : string :=
  JS.join JS.NL (map (fun el => renderEl el "    ") (headEls elements)).

Definition autoFontBlock (elements : list MJElement) : string :=
  JS.join JS.NL (autoFontLines elements).

Definition headContent (elements : list MJElement) : string :=
  JS.join JS.NL
    (filter JS.truthy [manualHeadLines elements; autoFontBlock elements]).

Definition headBlock (elements : list MJElement) : string :=
  if JS.truthy (headContent elements) then
    "  <mj-head>" ++ JS.NL ++ headContent elements ++ JS.NL ++ "  </mj-head>"
  else "".

Definition bodyBlock (elements : list MJElement) : string :=
  "  <mj-body>" ++ JS.NL
    ++ JS.join JS.NL (map (fun el => renderEl el "    ") (bodyEls elements))
    ++ JS.NL ++ "  </mj-body>".

Definition generateMJML (elements : list MJElement) : string :=
  let parts := filter JS.truthy [headBlock elements; bodyBlock elements] in
  "<mjml>" ++ JS.NL ++ JS.join JS.NL parts ++ JS.NL ++ "</mjml>".

End Serialiser.

(** ** The nodes of a tree *)

(** An element and all its descendants, in document order. *)
Fixpoint subtree (el : MJElement) : list MJElement :=
  el :: match children el with
        | Some cs => flat_map subtree cs
        | None => []
        end.

Definition nodes (els : list MJElement) : list MJElement :=
  flat_map subtree els.

(** The nodes that no hidden flag conceals: not hidden themselves, and below
    no hidden element. *)
Fixpoint exposed_sub (el : MJElement) : list MJElement :=
  if visibleb el then
    el :: match children el with
          | Some cs => flat_map exposed_sub cs
          | None => []
          end
  else [].

Definition exposedNodes (els : list MJElement) : list MJElement :=
  flat_map exposed_sub els.

(** The nodes a hidden flag conceals: a hidden element with its whole subtree,
    whatever the flags inside. *)
Fixpoint concealed_sub (el : MJElement) : list MJElement :=
  if visibleb el then
    match children el with
    | Some cs => flat_map concealed_sub cs
    | None => []
    end
  else subtree el.

Definition concealedNodes (els : list MJElement) : list MJElement :=
  flat_map concealed_sub els.

(** [{ ...el, children: cs }]. *)
Definition setChildren (el : MJElement) (cs : list MJElement) : MJElement :=
  mkMJElement (id el) (type el) (attributes el) (content el) (Some cs)
    (hidden el) (label el).

(** [{ ...el, content: c, children: ch }]. *)
Definition withPayload (el : MJElement) (c : option string)
  (ch : option (list MJElement)) : MJElement :=
  mkMJElement (id el) (type el) (attributes el) c ch (hidden el) (label el).

(** ** The inner payload of an element *)

(** The local [children] of [renderEl]: the children rendered one level
    deeper and joined by line feeds. *)
Definition renderedChildren (reg : list ComponentDef) (el : MJElement)
  (indent : string) : string :=
  match children el with
  | Some cs => JS.join JS.NL (map (fun c => renderEl reg c (indent ++ "  ")) cs)
  | None => ""
  end.

(** The local [inner] of [renderEl]. *)
Definition inner (reg : list ComponentDef) (el : MJElement) (indent : string)
  : string :=
  JS.join JS.NL
    (filter JS.truthy
       [ match content el with Some c => c | None => "" end;
         renderedChildren reg el indent ]).

(** ** The synthesised font declarations, as data *)

(** The address of the baseline font. *)
Definition interUrl : string :=
  "https://fonts.googleapis.com/css2?family=Inter:wght@300;400;500;700&display=swap".

(** The baseline declaration of step 1, unless "inter" is declared. *)
Definition baselineFonts (els : list MJElement) : list (string * string) :=
  if JS.has (alreadyDeclared els) "inter" then [] else [("Inter", interUrl)].

(** The test of step 2 on a font found in the body. *)
Definition injectable (els : list MJElement) (font : string) : bool :=
  negb (JS.has SYSTEM_FONTS (JS.toLowerCase font))
  && negb (JS.has (alreadyDeclared els) (JS.toLowerCase font))
  && negb (String.eqb (JS.toLowerCase font) "inter").

Definition discoveredFonts (els : list MJElement) : list (string * string) :=
  map (fun f => (f, googleFontsUrl f)) (filter (injectable els) (usedFonts els)).

(** Name and address of every synthesised declaration, in output order. *)
Definition autoFonts (els : list MJElement) : list (string * string) :=
  (baselineFonts els ++ discoveredFonts els)%list.






(** ** Strings and primary names *)

(** Every character of [s] is white space. *)
Fixpoint all_ws (s : string) : bool :=
  match s with
  | EmptyString => true
  | String c r => JS.is_ws c && all_ws r
  end.

Definition first_char (s : string) : option ascii :=
  match s with
  | EmptyString => None
  | String c _ => Some c
  end.

Fixpoint last_char (s : string) : option ascii :=
  match s with
  | EmptyString => None
  | String c EmptyString => Some c
  | String _ r => last_char r
  end.

(** [o] is a character that [p] accepts. *)
Definition char_is (p : ascii -> bool) (o : option ascii) : bool :=
  match o with
  | Some c => p c
  | None => false
  end.

(** [needle] is a substring of [hay]. *)
Definition occurs_in (needle hay : string) : Prop :=
  exists pre post, hay = pre ++ needle ++ post.

(** What one element contributes to the fonts: the primary name of its
    font-family, when neither is empty. *)
Definition fontOf (el : MJElement) : list string :=
  match JS.get "font-family" (attributes el) with
  | Some ff =>
      if JS.truthy ff && JS.truthy (primary ff) then [primary ff] else []
  | None => []
  end.

(** The primary names of a forest in document order, repetitions included. *)
Definition primaryNames (els : list MJElement) : list string :=
  flat_map fontOf (nodes els).

(** ** Sample registry and trees *)

Definition sampleLeaf (i t : string) (h : option bool) : MJElement :=
  mkMJElement i t [] (Some i) None h None.

Definition sampleHiddenTree : list MJElement :=
  [ mkMJElement "s1" "mj-section" [] None
      (Some [ sampleLeaf "t1" "mj-text" None;
              mkMJElement "c1" "mj-column" [] None
                (Some [ sampleLeaf "t2" "mj-text" (Some false) ])
                (Some true) None ])
      None None;
    sampleLeaf "p1" "mj-preview" (Some true) ].

(** A registry entry with defaults [a], [b] and [c], and a node of that type
    that overrides [b] and blanks [c]. *)
Definition sampleRegistry : list ComponentDef :=
  [ mkComponentDef "mj-text" [("a", "1"); ("b", "2"); ("c", "x")] None false ].

Definition sampleText : MJElement :=
  mkMJElement "t1" "mj-text" [("b", "3"); ("c", "")] (Some "Hello") None
    None None.

(** An image that carries a content and a child all the same. *)
Definition sampleImage : MJElement :=
  mkMJElement "i1" "mj-image" [("src", "a.png"); ("alt", "")]
    (Some "ignored") (Some [sampleLeaf "t9" "mj-text" None]) None None.

(** A head that holds one manual font declaration, named Inter between two
    spaces. *)
Definition samplePaddedInter : list MJElement :=
  [ mkMJElement "f1" "mj-font" [("name", " Inter "); ("href", "u")]
      None None None None ].

(** A manual declaration of Roboto and a section whose text uses Georgia. *)
Definition sampleRobotoTree : list MJElement :=
  [ mkMJElement "f1" "mj-font" [("name", "Roboto"); ("href", "u")]
      None None None None;
    mkMJElement "s1" "mj-section" [] None
      (Some [ mkMJElement "t1" "mj-text" [("font-family", "Georgia")]
                (Some "Hello") None None None ])
      None None ].

(** A section with two texts whose fonts differ by case only, and a nested
    column. *)
Definition sampleFontTree : list MJElement :=
  [ mkMJElement "s1" "mj-section" [("font-family", "Roboto, sans-serif")] None
      (Some [ mkMJElement "c1" "mj-column" [] None
                (Some [ mkMJElement "t1" "mj-text" [("font-family", "roboto")]
                          (Some "a") None None None;
                        mkMJElement "t2" "mj-text" [("font-family", "Roboto")]
                          (Some "b") None None None;
                        mkMJElement "t3" "mj-text" [("font-family", ", x")]
                          (Some "c") None None None ])
                None None ])
      None None ].



(** A body that uses Arial, Georgia in capitals and Lato. *)
Definition sampleSystemTree : list MJElement :=
  [ mkMJElement "s1" "mj-section" [] None
      (Some [ mkMJElement "t1" "mj-text" [("font-family", "Arial")]
                (Some "a") None None None;
              mkMJElement "t2" "mj-text" [("font-family", "GEORGIA, serif")]
                (Some "b") None None None;
              mkMJElement "t3" "mj-text" [("font-family", "Lato")]
                (Some "c") None None None ])
      None None ].

(** A title nested in a section: a head type inside a body container. *)
Definition sampleNestedTitle : MJElement :=
  mkMJElement "h1" "mj-title" [] (Some "T") None None None.

Definition sampleNestedTree : list MJElement :=
  [ mkMJElement "s1" "mj-section" [] None (Some [sampleNestedTitle])
      None None ].

(** A node of a type the registry does not know. *)
Definition sampleUnknown : MJElement :=
  mkMJElement "u1" "mj-unknown" [("a", "1"); ("b", "")] (Some "x") None
    None None.

(** ** The editor: element operations of App.tsx *)

(** The state the handlers read and write: [elements] and [selectedId]
    ([string | null]). *)
Record AppState : Type :=
  mkAppState { elements : list MJElement; selectedId : option string }.

(** Truthiness of [string | null | undefined]. *)
Definition truthy_str (o : option string) : bool :=
  match o with
  | Some s => JS.truthy s
  | None => false
  end.

(** The [position] of a reorder. *)
Inductive Position : Type := before | after.

(** *** findSelected *)

(** One iteration of the loop of [findSelected]: the item itself, then its
    children. *)
Fixpoint findSelected_item (sel : string) (item : MJElement) : option MJElement :=
  if String.eqb (id item) sel then Some item
  else
    match children item with
    | Some cs =>
        (fix go (items : list MJElement) : option MJElement :=
           match items with
           | [] => None
           | x :: r =>
               match findSelected_item sel x with
               | Some f => Some f
               | None => go r
               end
           end) cs
    | None => None
    end.

Fixpoint findSelected (sel : string) (items : list MJElement) : option MJElement :=
  match items with
  | [] => None
  | x :: r =>
      match findSelected_item sel x with
      | Some f => Some f
      | None => findSelected sel r
      end
  end.

(** [selectedId ? findSelected(elements) : null]. *)
Definition selectedElement (st : AppState) : option MJElement :=
  match selectedId st with
  | Some sel => if JS.truthy sel then findSelected sel (elements st) else None
  | None => None
  end.

(** *** handleAddComponent *)

Module AddComponent.

(** The element built from the registry entry; [newId] stands for the random
    id. *)
Definition newElement (t : string) (config : ComponentDef) (newId : string)
  : MJElement :=
  mkMJElement newId t (JS.spread (defaultAttrs config) [])
    (defaultContent config)
    (if isContainer config then Some [] else None)
    None None.

(** The function mapped by [up]. *)
Fixpoint up_item (parentId : string) (el item : MJElement) : MJElement :=
  match children item with
  | Some cs =>
      if String.eqb (id item) parentId then setChildren item (cs ++ [el])%list
      else setChildren item (map (up_item parentId el) cs)
  | None => item
  end.

Definition up (parentId : string) (el : MJElement) (items : list MJElement)
  : list MJElement :=
  map (up_item parentId el) items.

Definition handleAddComponent (reg : list ComponentDef) (t : string)
  (parentId : option string) (newId : string) (st : AppState) : AppState :=
  match find (fun c => String.eqb (c_type c) t) reg with
  | None => st
  | Some config =>
      let el := newElement t config newId in
      mkAppState
        (match parentId with
         | Some p =>
             if JS.truthy p then up p el (elements st)
             else (elements st ++ [el])%list
         | None => (elements st ++ [el])%list
         end)
        (Some (id el))
  end.

End AddComponent.

(** *** handleUpdateElement *)

Module UpdateElement.

Fixpoint up_item (updated item : MJElement) : MJElement :=
  if String.eqb (id item) (id updated) then updated
  else
    match children item with
    | Some cs => setChildren item (map (up_item updated) cs)
    | None => item
    end.

Definition up (updated : MJElement) (items : list MJElement) : list MJElement :=
  map (up_item updated) items.

Definition handleUpdateElement (updated : MJElement) (st : AppState) : AppState :=
  mkAppState (up updated (elements st)) (selectedId st).

End UpdateElement.

(** *** handleDeleteElement *)

Module DeleteElement.

(** The function mapped by [rm]; the recursive call on the children is the
    filter and the map of [rm] in one loop. *)
Fixpoint rm_item (i : string) (item : MJElement) : MJElement :=
  match children item with
  | Some cs =>
      setChildren item
        ((fix go (items : list MJElement) : list MJElement :=
            match items with
            | [] => []
            | x :: r =>
                if negb (String.eqb (id x) i) then rm_item i x :: go r
                else go r
            end) cs)
  | None => item
  end.

Definition rm (i : string) (items : list MJElement) : list MJElement :=
  map (rm_item i) (filter (fun x => negb (String.eqb (id x) i)) items).

Definition handleDeleteElement (i : string) (st : AppState) : AppState :=
  mkAppState (rm i (elements st)) None.

End DeleteElement.

(** *** handleToggleHidden *)

Module ToggleHidden.

Fixpoint toggle_item (i : string) (item : MJElement) : MJElement :=
  if String.eqb (id item) i then
    mkMJElement (id item) (type item) (attributes item) (content item)
      (children item) (Some (negb (JS.truthy_flag (hidden item)))) (label item)
  else
    match children item with
    | Some cs => setChildren item (map (toggle_item i) cs)
    | None => item
    end.

Definition toggle (i : string) (items : list MJElement) : list MJElement :=
  map (toggle_item i) items.

Definition handleToggleHidden (i : string) (st : AppState) : AppState :=
  mkAppState (toggle i (elements st)) (selectedId st).

End ToggleHidden.

(** *** handleLabelChange *)

Module LabelChange.

(** [label.trim() || undefined]. *)
Definition newLabel (lbl : string) : option string :=
  if JS.truthy (JS.trim lbl) then Some (JS.trim lbl) else None.

Fixpoint update_item (i lbl : string) (item : MJElement) : MJElement :=
  if String.eqb (id item) i then
    mkMJElement (id item) (type item) (attributes item) (content item)
      (children item) (hidden item) (newLabel lbl)
  else
    match children item with
    | Some cs => setChildren item (map (update_item i lbl) cs)
    | None => item
    end.

Definition update (i lbl : string) (items : list MJElement) : list MJElement :=
  map (update_item i lbl) items.

Definition handleLabelChange (i lbl : string) (st : AppState) : AppState :=
  mkAppState (update i lbl (elements st)) (selectedId st).

End LabelChange.

(** *** handleMoveInto and handleReorder *)

Module Move.

(** One step of the reducer of [extract] on an item that is kept: its copy,
    and [dragged] after the visit of its children.  [dragged] is the variable
    the closure assigns, threaded through. *)
Fixpoint extract_item (dragId : string) (item : MJElement)
  (dragged : option MJElement) : MJElement * option MJElement :=
  match children item with
  | Some cs =>
      let res :=
        (fix go (items acc : list MJElement) (d : option MJElement)
           : list MJElement * option MJElement :=
           match items with
           | [] => (acc, d)
           | x :: r =>
               if String.eqb (id x) dragId then go r acc (Some x)
               else
                 let xd := extract_item dragId x d in
                 go r (acc ++ [fst xd])%list (snd xd)
           end) cs [] dragged in
      (setChildren item (fst res), snd res)
  | None => (item, dragged)
  end.

(** [items.reduce(..., [])], with the accumulator and [dragged] as state. *)
Definition extract_step (dragId : string)
  (st : list MJElement * option MJElement) (x : MJElement)
  : list MJElement * option MJElement :=
  if String.eqb (id x) dragId then (fst st, Some x)
  else
    let xd := extract_item dragId x (snd st) in
    ((fst st ++ [fst xd])%list, snd xd).

Definition extract (dragId : string) (items : list MJElement)
  (dragged : option MJElement) : list MJElement * option MJElement :=
  fold_left (extract_step dragId) items ([], dragged).

(** [insert] of [handleMoveInto]. *)
Fixpoint insertInto_item (containerId : string) (dragged item : MJElement)
  : MJElement :=
  if String.eqb (id item) containerId then
    setChildren item
      (match children item with Some cs => cs | None => [] end ++ [dragged])%list
  else
    match children item with
    | Some cs => setChildren item (map (insertInto_item containerId dragged) cs)
    | None => item
    end.

Definition insertInto (containerId : string) (dragged : MJElement)
  (items : list MJElement) : list MJElement :=
  map (insertInto_item containerId dragged) items.

Definition handleMoveInto (dragId containerId : string) (st : AppState)
  : AppState :=
  let res := extract dragId (elements st) None in
  match snd res with
  | None => st
  | Some d => mkAppState (insertInto containerId d (fst res)) (selectedId st)
  end.

(** One step of the reducer of [insert] of [handleReorder] on an item that is
    not the target. *)
Fixpoint insertAt_item (targetId : string) (position : Position)
  (dragged item : MJElement) : MJElement :=
  match children item with
  | Some cs =>
      setChildren item
        ((fix go (items acc : list MJElement) : list MJElement :=
            match items with
            | [] => acc
            | x :: r =>
                if String.eqb (id x) targetId then
                  match position with
                  | before => go r (acc ++ [dragged; x])%list
                  | after => go r (acc ++ [x; dragged])%list
                  end
                else
                  go r (acc ++ [insertAt_item targetId position dragged x])%list
            end) cs [])
  | None => item
  end.

Definition insertAt_step (targetId : string) (position : Position)
  (dragged : MJElement) (acc : list MJElement) (x : MJElement)
  : list MJElement :=
  if String.eqb (id x) targetId then
    match position with
    | before => (acc ++ [dragged; x])%list
    | after => (acc ++ [x; dragged])%list
    end
  else (acc ++ [insertAt_item targetId position dragged x])%list.

Definition insertAt (targetId : string) (position : Position)
  (dragged : MJElement) (items : list MJElement) : list MJElement :=
  fold_left (insertAt_step targetId position dragged) items [].

Definition handleReorder (dragId targetId : string) (position : Position)
  (st : AppState) : AppState :=
  let res := extract dragId (elements st) None in
  match snd res with
  | None => st
  | Some d => mkAppState (insertAt targetId position d (fst res)) (selectedId st)
  end.

End Move.

(** *** findSiblings *)

(** [items.findIndex(el => el.id === id)], [None] for -1. *)
Fixpoint findIndex (i : string) (items : list MJElement) : option nat :=
  match items with
  | [] => None
  | x :: r =>
      if String.eqb (id x) i then Some 0
      else option_map S (findIndex i r)
  end.

(** The search of [findSiblings] in the children of one item. *)
Fixpoint findSiblings_item (i : string) (item : MJElement)
  : option (list MJElement * nat) :=
  match children item with
  | Some cs =>
      match findIndex i cs with
      | Some idx => Some (cs, idx)
      | None =>
          (fix go (items : list MJElement) : option (list MJElement * nat) :=
             match items with
             | [] => None
             | x :: r =>
                 match findSiblings_item i x with
                 | Some found => Some found
                 | None => go r
                 end
             end) cs
      end
  | None => None
  end.

Definition findSiblings (i : string) (items : list MJElement)
  : option (list MJElement * nat) :=
  match findIndex i items with
  | Some idx => Some (items, idx)
  | None =>
      (fix go (l : list MJElement) : option (list MJElement * nat) :=
         match l with
         | [] => None
         | x :: r =>
             match findSiblings_item i x with
             | Some found => Some found
             | None => go r
             end
         end) items
  end.

(** ** Notions for the editor operations *)

(** The ids of all nodes of a forest, in document order. *)
Definition ids (els : list MJElement) : list string := map id (nodes els).

(** What the serialiser reads of an element: its type, attributes, content
    and children, and whether it is hidden; not its id, not its label. *)
Fixpoint skeleton (el : MJElement) : MJElement :=
  mkMJElement "" (type el) (attributes el) (content el)
    (match children el with
     | Some cs => Some (map skeleton cs)
     | None => None
     end)
    (Some (JS.truthy_flag (hidden el))) None.

(** The children of an element, none when the field is absent. *)
Definition kids (el : MJElement) : list MJElement :=
  match children el with
  | Some cs => cs
  | None => []
  end.

(** The elements an operation addressed to id [i] acts on: those with that id
    that the traversal reaches, a match not being searched further. *)
Fixpoint reached_item (i : string) (item : MJElement) : list MJElement :=
  if String.eqb (id item) i then [item]
  else
    match children item with
    | Some cs => flat_map (reached_item i) cs
    | None => []
    end.

Definition reached (i : string) (items : list MJElement) : list MJElement :=
  flat_map (reached_item i) items.

(** The last element of a list, or a default. *)
Definition last_or (l : list MJElement) (d : option MJElement)
  : option MJElement :=
  match rev l with
  | x :: _ => Some x
  | [] => d
  end.

(** Occurrences of an id among the nodes of a forest. *)
Definition occ (z : string) (els : list MJElement) : nat :=
  count_occ string_dec (ids els) z.

(** ** Sample editor state *)

(** A section with two columns, the first with two texts, and a text at top
    level; every id occurs once. *)
Definition sampleColumn1 : MJElement :=
  mkMJElement "c1" "mj-column" [] None
    (Some [ sampleLeaf "t1" "mj-text" None; sampleLeaf "t2" "mj-text" None ])
    None None.

Definition sampleColumn2 : MJElement :=
  mkMJElement "c2" "mj-column" [] None (Some []) None None.

Definition sampleSection : MJElement :=
  mkMJElement "s1" "mj-section" [] None (Some [sampleColumn1; sampleColumn2])
    None None.

Definition sampleEditorTree : list MJElement :=
  [ sampleSection; sampleLeaf "t3" "mj-text" None ].

(** A registry with a container and a leaf. *)
Definition sampleEditorRegistry : list ComponentDef :=
  [ mkComponentDef "mj-column" [("width", "100%"); ("padding", "")] None true;
    mkComponentDef "mj-text" [("color", "#000"); ("font-family", "Inter")]
      (Some "Text") false ].

(** The forest of [sampleRobotoTree] with other ids, labels, and the hidden
    flag written out as false. *)
Definition sampleRobotoRelabelled : list MJElement :=
  [ mkMJElement "a" "mj-font" [("name", "Roboto"); ("href", "u")]
      None None (Some false) (Some "Font");
    mkMJElement "b" "mj-section" [] None
      (Some [ mkMJElement "c" "mj-text" [("font-family", "Georgia")]
                (Some "Hello") None None (Some "Greeting") ])
      None None ].

(** Default attributes with a font, under a head element. *)
Definition sampleHeadFontTree : list MJElement :=
  [ mkMJElement "a1" "mj-attributes" [] None
      (Some [ mkMJElement "a2" "mj-text" [("font-family", "Roboto")] None None
                None None ])
      None None ].

(** The loop of [findSiblings] over the children arrays of the items. *)
Fixpoint searchBelow (i : string) (items : list MJElement)
  : option (list MJElement * nat) :=
  match items with
  | [] => None
  | x :: r =>
      match findSiblings_item i x with
      | Some found => Some found
      | None => searchBelow i r
      end
  end.

(** [{ ...item, hidden: !item.hidden }]. *)
Definition flipHidden (item : MJElement) : MJElement :=
  mkMJElement (id item) (type item) (attributes item) (content item)
    (children item) (Some (negb (JS.truthy_flag (hidden item)))) (label item).

(** [{ ...item, label: lbl }]. *)
Definition setLabel (lbl : option string) (item : MJElement) : MJElement :=
  mkMJElement (id item) (type item) (attributes item) (content item)
    (children item) (hidden item) lbl.

(** ** The attribute text of a tag *)

(** One attribute as [renderEl] writes it: the key, an equals sign and the
    value between double quotes. *)
Definition pairText (kv : string * string) : string :=
  fst kv ++ "=" ++ JS.DQ ++ snd kv ++ JS.DQ.

(** The text a list of attributes puts between the type and the end of the
    opening tag: nothing for no attribute, else a space and the attributes
    separated by spaces, in the order of the list. *)
Definition attrText (l : JS.JSObject) : string :=
  match l with
  | [] => ""
  | _ :: _ => " " ++ JS.join " " (map pairText l)
  end.

(** The value is not the empty string: the test [v !== ''] of [renderEl]. *)
Definition nonblank (kv : string * string) : bool := JS.truthy (snd kv).

Definition is_digit (c : ascii) : bool :=
  ((48 <=? nat_of_ascii c)%nat && (nat_of_ascii c <=? 57)%nat).

Fixpoint all_digits (s : string) : bool :=
  match s with
  | EmptyString => true
  | String c r => is_digit c && all_digits r
  end.

(** A key written with decimal digits only.  The canonical array indices are
    among these keys; [Object.entries] lists them before the other keys and in
    numeric order, wherever they were inserted. *)
Definition integer_like (k : string) : bool := JS.truthy k && all_digits k.

(** An object with no such key: [Object.entries] lists its properties in
    insertion order, which is the order of the [JSObject]. *)
Definition plain (o : JS.JSObject) : Prop :=
  Forall (fun kv => integer_like (fst kv) = false) o.

(** ** The lines of the head *)

(** The lines between the tags of mj-head: the visible top-level head
    elements as rendered, then the synthesised font declarations. *)
Definition headLines (reg : list ComponentDef) (els : list MJElement)
  : list string :=
  (map (fun el => renderEl reg el "    ") (headEls els)
     ++ autoFontLines els)%list.

(** The document around the lines of its head and the text of its body. *)
Definition document (head : list string) (body : string) : string :=
  "<mjml>" ++ JS.NL
    ++ "  <mj-head>" ++ JS.NL
    ++ JS.join JS.NL head ++ JS.NL
    ++ "  </mj-head>" ++ JS.NL
    ++ body ++ JS.NL
    ++ "</mjml>".

(** ** The nodes that are rendered *)

(** An element and the descendants [renderEl] reaches from it: none below an
    element of a self-closing type. *)
Fixpoint rendered_sub (el : MJElement) : list MJElement :=
  el :: if JS.has SELF_CLOSING (type el) then []
        else match children el with
             | Some cs => flat_map rendered_sub cs
             | None => []
             end.

(** The nodes of the document: those rendered from the visible top-level
    elements. *)
Definition renderedNodes (els : list MJElement) : list MJElement :=
  flat_map rendered_sub (visible els).

(** ** The serialiser on unchecked input *)

(** The trees that reach [generateMJML] are cast from stored JSON
    ([tpl.elements as MJElement[]]), so a field of an element can be missing
    or [null] at run time.  This is the service again on such elements, with
    the one failure it can then meet: reading a property of [undefined] or of
    [null] throws a [TypeError].  A field that is present holds a value of
    its declared type. *)
Module Raw.

(** A field of an unchecked object: absent ([undefined] when read), [null],
    or a value. *)
Inductive field (A : Type) : Type :=
| Absent : field A
| Null : field A
| Present : A -> field A.

Arguments Absent {A}.
Arguments Null {A}.
Arguments Present {A} _.

(** The outcome of an evaluation: a value, or a thrown [TypeError]. *)
Inductive result (A : Type) : Type :=
| Ok : A -> result A
| Throw : result A.

Arguments Ok {A} _.
Arguments Throw {A}.

Definition bind {A B : Type} (r : result A) (f : A -> result B) : result B :=
  match r with
  | Ok a => f a
  | Throw => Throw
  end.

Notation "x <- r ;; k" := (bind r (fun x => k))
  (at level 61, r at next level, right associativity).

(** The fields of an element that the service reads. *)
Inductive element : Type :=
  mk {
      type : field string;
      attributes : field JS.JSObject;
      content : field string;
      children : field (list element);
      hidden : field bool
    }.

(** Induction over a tree of unchecked elements, with the children as a
    [Forall]. *)
Section element_induction.

Variable P : element -> Prop.

Hypothesis P_node :
  forall t a c ch h,
    match ch with Present cs => Forall P cs | Absent | Null => True end ->
    P (mk t a c ch h).

Fixpoint element_tree_ind (el : element) : P el :=
  match el with
  | mk t a c ch h =>
      P_node t a c ch h
        (match ch return match ch with
                         | Present cs => Forall P cs
                         | Absent | Null => True
                         end with
         | Absent => I
         | Null => I
         | Present cs =>
             (fix go (l : list element) : Forall P l :=
                match l with
                | [] => Forall_nil P
                | x :: r => Forall_cons x (element_tree_ind x) (go r)
                end) cs
         end)
  end.

End element_induction.

(** The element has an attributes object. *)
Definition hasAttributes (el : element) : bool :=
  match attributes el with
  | Present _ => true
  | Absent | Null => false
  end.

(** An element and all its descendants, in document order. *)
Fixpoint subtree (el : element) : list element :=
  el :: match children el with
        | Present cs => flat_map subtree cs
        | Absent | Null => []
        end.

Definition nodes (els : list element) : list element :=
  flat_map subtree els.

(** Truthiness of [el.hidden]. *)
Definition truthy_flag (h : field bool) : bool :=
  match h with
  | Present b => b
  | Absent | Null => false
  end.

Definition visibleb (el : element) : bool := negb (truthy_flag (hidden el)).

(** The function mapped by [stripHidden]: [el.children] is truthy when it is
    an array. *)
Fixpoint stripHidden_el (el : element) : element :=
  match el with
  | mk t a c (Present cs) h =>
      mk t a c
        (Present ((fix go (els : list element) : list element :=
                     match els with
                     | [] => []
                     | e :: r =>
                         if visibleb e then stripHidden_el e :: go r else go r
                     end) cs))
        h
  | mk _ _ _ Absent _ | mk _ _ _ Null _ => el
  end.

Definition stripHidden (els : list element) : list element :=
  map stripHidden_el (filter visibleb els).

(** [S.has(el.type)]: [undefined] and [null] are in no set of strings. *)
Definition has (s : list string) (t : field string) : bool :=
  match t with
  | Present x => JS.has s x
  | Absent | Null => false
  end.

(** [el.type === x]. *)
Definition type_is (t : field string) (x : string) : bool :=
  match t with
  | Present y => String.eqb y x
  | Absent | Null => false
  end.

Definition visible (elements : list element) : list element :=
  stripHidden elements.

Definition headEls (elements : list element) : list element :=
  filter (fun el => has HEAD_TYPES (type el)) (visible elements).

Definition bodyEls (elements : list element) : list element :=
  filter (fun el => negb (has HEAD_TYPES (type el))) (visible elements).

Definition manualFontEls (elements : list element) : list element :=
  filter (fun el => type_is (type el) "mj-font") (headEls elements).

(** [el.attributes[k]]: throws when [el.attributes] is [undefined] or
    [null]. *)
Definition attribute (el : element) (k : string) : result (option string) :=
  match attributes el with
  | Present o => Ok (JS.get k o)
  | Absent | Null => Throw
  end.

(** The body of the loop of [declaredFontNames] after the read of the
    attribute. *)
Definition declare (n : option string) (names : list string) : list string :=
  match n with
  | Some n =>
      if JS.truthy n then JS.add (JS.toLowerCase (JS.trim n)) names else names
  | None => names
  end.

Fixpoint declaredFontNames_loop (fontEls : list element) (names : list string)
  : result (list string) :=
  match fontEls with
  | [] => Ok names
  | el :: r =>
      n <- attribute el "name" ;;
      declaredFontNames_loop r (declare n names)
  end.

Definition declaredFontNames (fontEls : list element) : result (list string) :=
  declaredFontNames_loop fontEls [].

(** The body of the loop of [walk] after the read of the attribute and up to
    the recursive call. *)
Definition visit (ff : option string) (fonts : list string) : list string :=
  match ff with
  | Some ff =>
      if JS.truthy ff then
        if JS.truthy (primary ff) then JS.add (primary ff) fonts else fonts
      else fonts
  | None => fonts
  end.

(** One iteration of the loop of [walk]. *)
Fixpoint walk_el (el : element) (fonts : list string) : result (list string) :=
  ff <- attribute el "font-family" ;;
  match children el with
  | Present cs =>
      (fix go (els : list element) (acc : list string) : result (list string) :=
         match els with
         | [] => Ok acc
         | c :: r => acc' <- walk_el c acc ;; go r acc'
         end) cs (visit ff fonts)
  | Absent | Null => Ok (visit ff fonts)
  end.

Fixpoint walk (els : list element) (fonts : list string) : result (list string) :=
  match els with
  | [] => Ok fonts
  | el :: r => fonts' <- walk_el el fonts ;; walk r fonts'
  end.

Definition collectFontsFromElements (elements : list element)
  : result (list string) :=
  walk elements [].

Section Serialiser.

Variable MJML_COMPONENTS : list ComponentDef.

(** [MJML_COMPONENTS.find(c => c.type === el.type)]. *)
Definition componentDef (el : element) : option ComponentDef :=
  find (fun c => type_is (type el) (c_type c)) MJML_COMPONENTS.

Definition registryDefaultAttrs (el : element) : JS.JSObject :=
  match componentDef el with
  | Some d => defaultAttrs d
  | None => []
  end.

(** What [...el.attributes] spreads: nothing for [undefined] and [null]. *)
Definition ownAttributes (el : element) : JS.JSObject :=
  match attributes el with
  | Present o => o
  | Absent | Null => []
  end.

Definition mergedAttributes (el : element) : JS.JSObject :=
  JS.spread (ownAttributes el) (JS.spread (registryDefaultAttrs el) []).

Definition emittedAttributes (el : element) : JS.JSObject :=
  filter (fun kv => JS.truthy (snd kv)) (mergedAttributes el).

Definition attrs (el : element) : string :=
  JS.join " "
    (map (fun kv => fst kv ++ "=" ++ JS.DQ ++ snd kv ++ JS.DQ)
       (emittedAttributes el)).

Definition attrStr (el : element) : string :=
  if JS.truthy (attrs el) then " " ++ attrs el else "".

(** [el.type] inside a template literal. *)
Definition typeText (el : element) : string :=
  match type el with
  | Present t => t
  | Absent => "undefined"
  | Null => "null"
  end.

Fixpoint renderEl (el : element) (indent : string) : string :=
  if has SELF_CLOSING (type el) then
    indent ++ "<" ++ typeText el ++ attrStr el ++ " />"
  else
    let children :=
      match children el with
      | Present cs =>
          JS.join JS.NL (map (fun c => renderEl c (indent ++ "  ")) cs)
      | Absent | Null => ""
      end in
    let content :=
      match content el with
      | Present c => c
      | Absent | Null => ""
      end in
    let inner := JS.join JS.NL (filter JS.truthy [content; children]) in
    if negb (JS.truthy inner) then
      indent ++ "<" ++ typeText el ++ attrStr el ++ "></" ++ typeText el ++ ">"
    else if JS.includes (ascii_of_nat 10) inner then
      indent ++ "<" ++ typeText el ++ attrStr el ++ ">" ++ JS.NL
        ++ inner ++ JS.NL ++ indent ++ "</" ++ typeText el ++ ">"
    else
      indent ++ "<" ++ typeText el ++ attrStr el ++ ">"
        ++ inner ++ "</" ++ typeText el ++ ">".

(** The assembly of the document from the declared names and the fonts in
    use, once both are known. *)
Definition assemble (elements : list element)
  (alreadyDeclared usedFonts : list string) : string :=
  let autoFontLines :=
    injectUsed usedFonts (injectDefaults ([], alreadyDeclared)) in
  let manualHeadLines :=
    JS.join JS.NL (map (fun el => renderEl el "    ") (headEls elements)) in
  let autoFontBlock := JS.join JS.NL autoFontLines in
  let headContent :=
    JS.join JS.NL (filter JS.truthy [manualHeadLines; autoFontBlock]) in
  let headBlock :=
    if JS.truthy headContent then
      "  <mj-head>" ++ JS.NL ++ headContent ++ JS.NL ++ "  </mj-head>"
    else "" in
  let bodyBlock :=
    "  <mj-body>" ++ JS.NL
      ++ JS.join JS.NL (map (fun el => renderEl el "    ") (bodyEls elements))
      ++ JS.NL ++ "  </mj-body>" in
  let parts := filter JS.truthy [headBlock; bodyBlock] in
  "<mjml>" ++ JS.NL ++ JS.join JS.NL parts ++ JS.NL ++ "</mjml>".

Definition generateMJML (elements : list element) : result string :=
  alreadyDeclared <- declaredFontNames (manualFontEls elements) ;;
  usedFonts <- collectFontsFromElements (bodyEls elements) ;;
  Ok (assemble elements alreadyDeclared usedFonts).

End Serialiser.

(** Every element whose attributes the service reads has an attributes
    object: the visible top-level font elements, and the nodes of the visible
    top-level body elements at any depth. *)
Definition readable (elements : list element) : bool :=
  forallb hasAttributes (manualFontEls elements)
  && forallb hasAttributes (nodes (bodyEls elements)).

End Raw.

(** The value a field of an [MJElement] is at run time. *)
Definition field_of {A : Type} (o : option A) : Raw.field A :=
  match o with
  | Some a => Raw.Present a
  | None => Raw.Absent
  end.

(** An [MJElement] as the unchecked value it is at run time: its type and its
    attributes are present. *)
Fixpoint raw_of (el : MJElement) : Raw.element :=
  Raw.mk (Raw.Present (type el)) (Raw.Present (attributes el))
    (field_of (content el))
    (match children el with
     | Some cs => Raw.Present (map raw_of cs)
     | None => Raw.Absent
     end)
    (field_of (hidden el)).

(** ** More samples *)

(** A registry entry for images, with a blank default, and a default for
    [width] that the sample image does not set. *)
Definition sampleImageRegistry : list ComponentDef :=
  [ mkComponentDef "mj-image"
      [("src", ""); ("width", "100px"); ("alt", "x")] None false ].




(** A section that holds a node of a type the registry does not know. *)
Definition sampleUnknownTree : list MJElement :=
  [ mkMJElement "s1" "mj-section" [] None (Some [sampleUnknown]) None None ].

(** A text whose [attributes] are missing, and a title whose [attributes] are
    [null]. *)
Definition sampleNoAttributes : Raw.element :=
  Raw.mk (Raw.Present "mj-text") Raw.Absent (Raw.Present "x") Raw.Absent
    Raw.Absent.

Definition sampleNullAttributes : Raw.element :=
  Raw.mk (Raw.Present "mj-title") Raw.Null (Raw.Present "T") Raw.Absent
    Raw.Absent.

(** * Properties *)

(** ** Hidden filtering *)

Lemma stripHidden_cons el els :
  stripHidden (el :: els) =
    if visibleb el then stripHidden_el el :: stripHidden els
    else stripHidden els.
Proof. unfold stripHidden; simpl; destruct (visibleb el); reflexivity. Qed.

(** The equation of the source: an element with children is copied with its
    children filtered, an element without is returned as it is. *)
Lemma stripHidden_el_eq el :
  stripHidden_el el =
    match children el with
    | Some cs => setChildren el (stripHidden cs)
    | None => el
    end.
Proof.
  destruct el as [i t a c [cs|] h l]; simpl; [|reflexivity].
  unfold setChildren; simpl. do 2 f_equal.
  induction cs as [|e r IH]; [reflexivity|].
  rewrite stripHidden_cons, IH. reflexivity.
Qed.

Lemma stripHidden_el_id el : id (stripHidden_el el) = id el.
Proof. destruct el as [i t a c [cs|] h l]; reflexivity. Qed.

Lemma stripHidden_el_type el : type (stripHidden_el el) = type el.
Proof. destruct el as [i t a c [cs|] h l]; reflexivity. Qed.

Lemma stripHidden_el_attributes el :
  attributes (stripHidden_el el) = attributes el.
Proof. destruct el as [i t a c [cs|] h l]; reflexivity. Qed.

Lemma stripHidden_el_content el : content (stripHidden_el el) = content el.
Proof. destruct el as [i t a c [cs|] h l]; reflexivity. Qed.

Lemma stripHidden_el_hidden el : hidden (stripHidden_el el) = hidden el.
Proof. destruct el as [i t a c [cs|] h l]; reflexivity. Qed.

Lemma stripHidden_el_label el : label (stripHidden_el el) = label el.
Proof. destruct el as [i t a c [cs|] h l]; reflexivity. Qed.

Lemma stripHidden_el_visibleb el : visibleb (stripHidden_el el) = visibleb el.
Proof. unfold visibleb; now rewrite stripHidden_el_hidden. Qed.

Lemma stripHidden_el_children el :
  children (stripHidden_el el) = option_map stripHidden (children el).
Proof.
  rewrite stripHidden_el_eq. destruct el as [i t a c [cs|] h l]; reflexivity.
Qed.

Lemma nodes_cons el els : nodes (el :: els) = (subtree el ++ nodes els)%list.
Proof. reflexivity. Qed.

Lemma exposedNodes_cons el els :
  exposedNodes (el :: els) = (exposed_sub el ++ exposedNodes els)%list.
Proof. reflexivity. Qed.

Lemma concealedNodes_cons el els :
  concealedNodes (el :: els) = (concealed_sub el ++ concealedNodes els)%list.
Proof. reflexivity. Qed.

Lemma subtree_eq el :
  subtree el = el :: match children el with Some cs => nodes cs | None => [] end.
Proof. destruct el; reflexivity. Qed.

Lemma exposed_sub_eq el :
  exposed_sub el =
    if visibleb el then
      el :: match children el with Some cs => exposedNodes cs | None => [] end
    else [].
Proof. destruct el; reflexivity. Qed.

Lemma concealed_sub_eq el :
  concealed_sub el =
    if visibleb el then
      match children el with Some cs => concealedNodes cs | None => [] end
    else subtree el.
Proof. destruct el; reflexivity. Qed.

(** The nodes of the filtered copy are the copies of the exposed nodes. *)
Lemma nodes_stripHidden els :
  nodes (stripHidden els) = map stripHidden_el (exposedNodes els).
Proof.
  assert (Hel : forall el,
             visibleb el = true ->
             subtree (stripHidden_el el) = map stripHidden_el (exposed_sub el)).
  { induction el as [i t a c ch h l IH] using MJElement_tree_ind.
    intros Hv. rewrite subtree_eq, exposed_sub_eq, Hv, stripHidden_el_children.
    simpl. f_equal.
    destruct ch as [cs|]; simpl; [|reflexivity].
    clear Hv. induction IH as [|e r He Hr IHr]; [reflexivity|].
    rewrite stripHidden_cons, exposedNodes_cons, map_app.
    destruct (visibleb e) eqn:Hve.
    - rewrite nodes_cons, (He eq_refl), IHr. reflexivity.
    - rewrite exposed_sub_eq, Hve. simpl. exact IHr. }
  induction els as [|e r IHr]; [reflexivity|].
  rewrite stripHidden_cons, exposedNodes_cons, map_app.
  destruct (visibleb e) eqn:Hve.
  - rewrite nodes_cons, (Hel e Hve), IHr. reflexivity.
  - rewrite exposed_sub_eq, Hve. simpl. exact IHr.
Qed.

Lemma exposedNodes_visible els :
  Forall (fun el => visibleb el = true) (exposedNodes els).
Proof.
  assert (Hel : forall el, Forall (fun x => visibleb x = true) (exposed_sub el)).
  { induction el as [i t a c ch h l IH] using MJElement_tree_ind.
    rewrite exposed_sub_eq.
    destruct (visibleb _) eqn:Hv; [|constructor].
    constructor; [exact Hv|].
    destruct ch as [cs|]; simpl; [|constructor].
    clear Hv. induction IH as [|e r He Hr IHr]; [constructor|].
    rewrite exposedNodes_cons. apply Forall_app; split; [exact He|exact IHr]. }
  induction els as [|e r IHr]; [constructor|].
  rewrite exposedNodes_cons. apply Forall_app; split; [apply Hel|exact IHr].
Qed.

(** Every node is either exposed or concealed, once each. *)
Lemma nodes_split els :
  Permutation (nodes els) (exposedNodes els ++ concealedNodes els).
Proof.
  assert (Hls : forall l,
             Forall (fun el => Permutation (subtree el)
                                 (exposed_sub el ++ concealed_sub el)) l ->
             Permutation (nodes l) (exposedNodes l ++ concealedNodes l)).
  { induction 1 as [|e r He Hr IHr]; [constructor|].
    rewrite nodes_cons, exposedNodes_cons, concealedNodes_cons.
    rewrite He, IHr, <- !app_assoc.
    apply Permutation_app_head.
    rewrite !app_assoc. apply Permutation_app_tail, Permutation_app_comm. }
  apply Hls, Forall_forall. intros el _.
  induction el as [i t a c ch h l IH] using MJElement_tree_ind.
  rewrite subtree_eq, exposed_sub_eq, concealed_sub_eq.
  destruct (visibleb _); [|rewrite subtree_eq; reflexivity].
  simpl. constructor.
  destruct ch as [cs|]; simpl; [apply Hls, IH|constructor].
Qed.

(** A hidden node is concealed, and so is every child of a concealed node. *)
Lemma hidden_concealed els el :
  In el (nodes els) -> visibleb el = false -> In el (concealedNodes els).
Proof.
  intros Hin Hh.
  apply (Permutation_in _ (nodes_split els)), in_app_or in Hin.
  destruct Hin as [Hin|Hin]; [|exact Hin].
  pose proof (exposedNodes_visible els) as Hv.
  rewrite Forall_forall in Hv. rewrite (Hv _ Hin) in Hh. discriminate.
Qed.

Lemma subtree_child p cs c x :
  In p (subtree x) -> children p = Some cs -> In c cs -> In c (subtree x).
Proof.
  induction x as [i t a co ch h l IH] using MJElement_tree_ind.
  rewrite subtree_eq. simpl. intros [Hp|Hp] Hcs Hc.
  - subst p. simpl in Hcs. subst ch. right.
    apply in_flat_map. exists c. split; [exact Hc|].
    rewrite subtree_eq. left; reflexivity.
  - right. destruct ch as [cs0|]; [|destruct Hp].
    apply in_flat_map in Hp. destruct Hp as [y [Hy Hp]].
    apply in_flat_map. exists y. split; [exact Hy|].
    rewrite Forall_forall in IH. exact (IH y Hy Hp Hcs Hc).
Qed.

Lemma concealed_child els p cs c :
  In p (concealedNodes els) -> children p = Some cs -> In c cs ->
  In c (concealedNodes els).
Proof.
  assert (Hel : forall x, In p (concealed_sub x) -> children p = Some cs ->
                          In c cs -> In c (concealed_sub x)).
  { induction x as [i t a co ch h l IH] using MJElement_tree_ind.
    rewrite concealed_sub_eq.
    destruct (visibleb _); [|apply subtree_child].
    simpl. destruct ch as [cs0|]; [|intros []].
    intros Hp Hcs Hc.
    apply in_flat_map in Hp. destruct Hp as [y [Hy Hp]].
    apply in_flat_map. exists y. split; [exact Hy|].
    rewrite Forall_forall in IH. exact (IH y Hy Hp Hcs Hc). }
  intros Hp Hcs Hc.
  apply in_flat_map in Hp. destruct Hp as [y [Hy Hp]].
  apply in_flat_map. exists y. split; [exact Hy|exact (Hel y Hp Hcs Hc)].
Qed.

(** Filtering twice is filtering once. *)
Lemma stripHidden_idempotent els : stripHidden (stripHidden els) = stripHidden els.
Proof.
  assert (Hls : forall l,
             Forall (fun el => stripHidden_el (stripHidden_el el) = stripHidden_el el) l ->
             stripHidden (stripHidden l) = stripHidden l).
  { induction 1 as [|e r He Hr IHr]; [reflexivity|].
    rewrite stripHidden_cons. destruct (visibleb e) eqn:Hv; [|exact IHr].
    rewrite stripHidden_cons, stripHidden_el_visibleb, Hv, He, IHr.
    reflexivity. }
  apply Hls, Forall_forall. intros el _.
  induction el as [i t a c ch h l IH] using MJElement_tree_ind.
  destruct ch as [cs|]; [|reflexivity].
  rewrite !stripHidden_el_eq. simpl. unfold setChildren. simpl.
  rewrite (Hls _ IH). reflexivity.
Qed.

Lemma NoDup_app_disjoint {A} (l1 l2 : list A) :
  NoDup (l1 ++ l2) -> forall a, In a l1 -> ~ In a l2.
Proof.
  induction l1 as [|x l1 IH]; simpl; [intros _ a []|].
  intros Hnd a [<-|Ha] H2.
  - apply NoDup_cons_iff in Hnd. apply (proj1 Hnd), in_or_app. now right.
  - apply NoDup_cons_iff in Hnd. exact (IH (proj2 Hnd) a Ha H2).
Qed.

(** Under unique ids, no id of a concealed node is left in the copy. *)
Lemma concealed_ids_removed els el :
  NoDup (map id (nodes els)) ->
  In el (concealedNodes els) ->
  ~ In (id el) (map id (nodes (stripHidden els))).
Proof.
  intros Hnd Hc Hin.
  rewrite nodes_stripHidden, map_map in Hin.
  rewrite (map_ext _ id stripHidden_el_id) in Hin.
  apply (Permutation_NoDup (Permutation_map id (nodes_split els))) in Hnd.
  rewrite map_app in Hnd.
  apply (NoDup_app_disjoint _ _ Hnd _ Hin), in_map, Hc.
Qed.

(** The serialiser reads its input through the filtered copy only. *)
Lemma generateMJML_visible reg els :
  generateMJML reg els = generateMJML reg (stripHidden els).
Proof.
  unfold generateMJML, headBlock, bodyBlock, headContent, manualHeadLines,
    autoFontBlock, autoFontLines, usedFonts, alreadyDeclared, manualFontEls,
    headEls, bodyEls, visible.
  rewrite stripHidden_idempotent. reflexivity.
Qed.

(** C1 -- Hidden-node exclusion.  Serialisation works on the filtered copy
    [stripHidden els].  No node of the copy, at any depth, has its hidden flag
    set; the nodes of the copy are the copies of the exposed nodes of the
    input, in document order, a copy differing from its original by its
    children only; every node whose hidden flag is set is concealed, and so is
    every child of a concealed node, whatever its own flag; no id of a
    concealed node is left in the copy (ids being unique across the tree);
    and the output is the output for the copy, a tree that holds no hidden
    node and no descendant of one. *)
Theorem C1_hidden_nodes_excluded reg els :
  NoDup (map id (nodes els)) ->
  (forall el, In el (nodes (stripHidden els)) ->
              JS.truthy_flag (hidden el) = false)
  /\ nodes (stripHidden els) = map stripHidden_el (exposedNodes els)
  /\ (forall el,
         id (stripHidden_el el) = id el
         /\ type (stripHidden_el el) = type el
         /\ attributes (stripHidden_el el) = attributes el
         /\ content (stripHidden_el el) = content el
         /\ hidden (stripHidden_el el) = hidden el
         /\ label (stripHidden_el el) = label el
         /\ children (stripHidden_el el) = option_map stripHidden (children el))
  /\ (forall el, In el (nodes els) -> JS.truthy_flag (hidden el) = true ->
                 In el (concealedNodes els))
  /\ (forall p cs c, In p (concealedNodes els) -> children p = Some cs ->
                     In c cs -> In c (concealedNodes els))
  /\ (forall el, In el (concealedNodes els) ->
                 ~ In (id el) (map id (nodes (stripHidden els))))
  /\ generateMJML reg els = generateMJML reg (stripHidden els).
Proof.
  intros Hnd. repeat split.
  - intros el Hin. rewrite nodes_stripHidden in Hin.
    apply in_map_iff in Hin. destruct Hin as [x [<- Hx]].
    pose proof (exposedNodes_visible els) as Hv. rewrite Forall_forall in Hv.
    specialize (Hv x Hx). rewrite stripHidden_el_hidden.
    unfold visibleb in Hv. now destruct (JS.truthy_flag (hidden x)).
  - apply nodes_stripHidden.
  - apply stripHidden_el_id.
  - apply stripHidden_el_type.
  - apply stripHidden_el_attributes.
  - apply stripHidden_el_content.
  - apply stripHidden_el_hidden.
  - apply stripHidden_el_label.
  - apply stripHidden_el_children.
  - intros el Hin Hh. apply hidden_concealed; [exact Hin|].
    unfold visibleb. now rewrite Hh.
  - apply concealed_child.
  - intros el Hc. apply concealed_ids_removed; assumption.
  - apply generateMJML_visible.
Qed.

Lemma C1_hidden_nodes_excluded_witness :
  NoDup (map id (nodes sampleHiddenTree))
  /\ map id (concealedNodes sampleHiddenTree) = ["c1"; "t2"; "p1"]
  /\ map id (nodes (stripHidden sampleHiddenTree)) = ["s1"; "t1"]
  /\ (forall el, In el (concealedNodes sampleHiddenTree) ->
                 ~ In (id el) (map id (nodes (stripHidden sampleHiddenTree))))
  /\ generateMJML [] sampleHiddenTree
     = generateMJML [] (stripHidden sampleHiddenTree).
Proof.
  assert (Hnd : NoDup (map id (nodes sampleHiddenTree))).
  { simpl. repeat constructor; simpl; intuition discriminate. }
  destruct (C1_hidden_nodes_excluded [] sampleHiddenTree Hnd)
    as (_ & _ & _ & _ & _ & Hids & Hout).
  split; [exact Hnd|].
  split; [reflexivity|].
  split; [reflexivity|].
  split; [exact Hids|exact Hout].
Defined.

(** ** Objects *)

Lemma get_None_iff k o : JS.get k o = None <-> ~ In k (map fst o).
Proof.
  induction o as [|[k' v'] r IH]; simpl; [tauto|].
  destruct (String.eqb_spec k k') as [->|Hne].
  - split; [discriminate|intros H; exfalso; apply H; now left].
  - rewrite IH. split; [intros H [E|Hin]; [congruence|tauto]|tauto].
Qed.

Lemma get_In k v o : JS.get k o = Some v -> In (k, v) o.
Proof.
  induction o as [|[k' v'] r IH]; simpl; [discriminate|].
  destruct (String.eqb_spec k k') as [->|Hne].
  - intros [= ->]. now left.
  - intros H. right. exact (IH H).
Qed.

Lemma In_get k v o : JS.wf o -> In (k, v) o -> JS.get k o = Some v.
Proof.
  unfold JS.wf.
  induction o as [|[k' v'] r IH]; simpl; [intros _ []|].
  intros Hnd [[= -> ->]|Hin].
  - now rewrite String.eqb_refl.
  - apply NoDup_cons_iff in Hnd. destruct Hnd as [Hk Hnd].
    destruct (String.eqb_spec k k') as [->|Hne].
    + exfalso. apply Hk. change k' with (fst (k', v)). now apply in_map.
    + exact (IH Hnd Hin).
Qed.

Lemma get_set k v k' o :
  JS.get k' (JS.set k v o) = if String.eqb k' k then Some v else JS.get k' o.
Proof.
  induction o as [|[k0 v0] r IH]; simpl.
  - reflexivity.
  - destruct (String.eqb_spec k k0) as [->|Hne]; simpl.
    + destruct (String.eqb_spec k' k0); reflexivity.
    + rewrite IH. destruct (String.eqb_spec k' k0) as [->|Hne'].
      * destruct (String.eqb_spec k0 k); [congruence|reflexivity].
      * reflexivity.
Qed.

Lemma keys_set k v o :
  map fst (JS.set k v o) =
    if JS.has (map fst o) k then map fst o else (map fst o ++ [k])%list.
Proof.
  induction o as [|[k0 v0] r IH]; simpl; [reflexivity|].
  destruct (String.eqb_spec k k0) as [->|Hne]; simpl; [reflexivity|].
  rewrite IH. unfold JS.has. destruct (existsb _ _); reflexivity.
Qed.

Lemma has_In s x : JS.has s x = true <-> In x s.
Proof.
  unfold JS.has. rewrite existsb_exists. split.
  - intros [y [Hy E]]. apply String.eqb_eq in E. now subst.
  - intros H. exists x. split; [exact H|apply String.eqb_refl].
Qed.

Lemma has_false s x : JS.has s x = false <-> ~ In x s.
Proof.
  rewrite <- has_In. destruct (JS.has s x); split; congruence.
Qed.

Lemma wf_set k v o : JS.wf o -> JS.wf (JS.set k v o).
Proof.
  unfold JS.wf. intros Hnd. rewrite keys_set.
  destruct (JS.has _ _) eqn:Hh; [exact Hnd|].
  apply has_false in Hh.
  apply NoDup_app; [exact Hnd|repeat constructor; intros []|].
  intros a Ha [<-|[]]. exact (Hh Ha).
Qed.

Lemma wf_spread src acc : JS.wf acc -> JS.wf (JS.spread src acc).
Proof.
  unfold JS.spread. revert acc.
  induction src as [|[k v] r IH]; simpl; intros acc Hwf; [exact Hwf|].
  apply IH, wf_set, Hwf.
Qed.

(** Reading a spread: the source wins, the target fills the gaps. *)
Lemma get_spread k src acc :
  JS.wf src ->
  JS.get k (JS.spread src acc) =
    match JS.get k src with
    | Some v => Some v
    | None => JS.get k acc
    end.
Proof.
  unfold JS.spread, JS.wf. revert acc.
  induction src as [|[k0 v0] r IH]; simpl; intros acc Hnd; [reflexivity|].
  apply NoDup_cons_iff in Hnd. destruct Hnd as [Hk Hnd].
  rewrite (IH _ Hnd), get_set.
  destruct (String.eqb_spec k k0) as [->|Hne]; [|reflexivity].
  apply get_None_iff in Hk. now rewrite Hk.
Qed.

Lemma get_spread_nil k src :
  JS.wf src -> JS.get k (JS.spread src []) = JS.get k src.
Proof. intros H. rewrite (get_spread _ _ _ H). now destruct (JS.get k src). Qed.

Lemma truthy_true s : JS.truthy s = true <-> s <> "".
Proof. destruct s; simpl; split; congruence. Qed.

(** ** Rendering of one element *)

Section Rendering.

Variable reg : list ComponentDef.

Lemma wf_mergedAttributes el : JS.wf (mergedAttributes reg el).
Proof. unfold mergedAttributes. apply wf_spread, wf_spread. constructor. Qed.

Lemma get_mergedAttributes el k :
  JS.wf (attributes el) -> JS.wf (registryDefaultAttrs reg el) ->
  JS.get k (mergedAttributes reg el) =
    match JS.get k (attributes el) with
    | Some v => Some v
    | None => JS.get k (registryDefaultAttrs reg el)
    end.
Proof.
  intros Ha Hd. unfold mergedAttributes.
  now rewrite (get_spread _ _ _ Ha), (get_spread_nil _ _ Hd).
Qed.

(** The equation of [renderEl], with the inner payload named. *)
Lemma renderEl_eq el indent :
  renderEl reg el indent =
    if JS.has SELF_CLOSING (type el) then
      indent ++ "<" ++ type el ++ attrStr reg el ++ " />"
    else if negb (JS.truthy (inner reg el indent)) then
      indent ++ "<" ++ type el ++ attrStr reg el ++ "></" ++ type el ++ ">"
    else if JS.includes (ascii_of_nat 10) (inner reg el indent) then
      indent ++ "<" ++ type el ++ attrStr reg el ++ ">" ++ JS.NL
        ++ inner reg el indent ++ JS.NL ++ indent ++ "</" ++ type el ++ ">"
    else
      indent ++ "<" ++ type el ++ attrStr reg el ++ ">"
        ++ inner reg el indent ++ "</" ++ type el ++ ">".
Proof. destruct el; reflexivity. Qed.

(** The tag of an element opens with its type and its attribute string,
    whatever the branch of [renderEl]. *)
Lemma renderEl_open el indent :
  exists rest,
    renderEl reg el indent
    = indent ++ "<" ++ type el ++ attrStr reg el ++ rest.
Proof.
  rewrite renderEl_eq.
  destruct (JS.has SELF_CLOSING (type el)); [eexists; reflexivity|].
  destruct (negb _); [eexists; reflexivity|].
  destruct (JS.includes _ _); eexists; reflexivity.
Qed.

End Rendering.

(** ** Self-closing tags *)

Lemma attrStr_withPayload reg el c ch :
  attrStr reg (withPayload el c ch) = attrStr reg el.
Proof. reflexivity. Qed.

(** ** Font injection *)

Lemma has_add x s y :
  JS.has (JS.add x s) y = String.eqb y x || JS.has s y.
Proof.
  unfold JS.add. destruct (JS.has s x) eqn:Hx.
  - destruct (String.eqb_spec y x) as [->|]; [now rewrite Hx|reflexivity].
  - unfold JS.has. rewrite existsb_app. simpl.
    rewrite orb_false_r. apply orb_comm.
Qed.

Lemma injectDefaults_eq lines declared :
  injectDefaults (lines, declared) =
    if JS.has declared "inter" then (lines, declared)
    else ((lines ++ [fontLine "Inter" interUrl])%list, JS.add "inter" declared).
Proof.
  unfold injectDefaults, DEFAULT_GOOGLE_FONTS.
  cbn [fold_left name url fst snd].
  change (JS.toLowerCase "Inter") with "inter".
  destruct (JS.has declared "inter"); reflexivity.
Qed.

Lemma injectUsed_eq fonts lines declared :
  injectUsed fonts (lines, declared) =
    (lines ++
       map (fun f => fontLine f (googleFontsUrl f))
         (filter (fun f => negb (JS.has SYSTEM_FONTS (JS.toLowerCase f))
                           && negb (JS.has declared (JS.toLowerCase f)))
            fonts))%list.
Proof.
  unfold injectUsed. cbn [fst snd]. revert lines.
  induction fonts as [|f r IH]; intros lines; cbn [fold_left filter].
  - now rewrite app_nil_r.
  - rewrite IH.
    destruct (JS.has SYSTEM_FONTS _); cbn [negb andb]; [reflexivity|].
    destruct (JS.has declared _); cbn [negb andb]; [reflexivity|].
    cbn [map]. now rewrite <- app_assoc.
Qed.

(** The lines pushed on [autoFontLines] are the lines of [autoFonts]. *)
Lemma injectable_declared els f :
  JS.has (alreadyDeclared els) "inter" = true ->
  negb (JS.has SYSTEM_FONTS (JS.toLowerCase f))
  && negb (JS.has (alreadyDeclared els) (JS.toLowerCase f))
  = injectable els f.
Proof.
  intros Hd. unfold injectable.
  destruct (String.eqb_spec (JS.toLowerCase f) "inter") as [E|_].
  - rewrite E, Hd. now rewrite !andb_false_r.
  - now rewrite andb_true_r.
Qed.

Lemma injectable_added els f :
  negb (JS.has SYSTEM_FONTS (JS.toLowerCase f))
  && negb (JS.has (JS.add "inter" (alreadyDeclared els)) (JS.toLowerCase f))
  = injectable els f.
Proof.
  unfold injectable. rewrite has_add, negb_orb.
  destruct (String.eqb (JS.toLowerCase f) "inter");
    destruct (JS.has SYSTEM_FONTS (JS.toLowerCase f));
    destruct (JS.has (alreadyDeclared els) (JS.toLowerCase f)); reflexivity.
Qed.

Lemma autoFontLines_eq els :
  autoFontLines els = map (fun f => fontLine (fst f) (snd f)) (autoFonts els).
Proof.
  unfold autoFontLines, autoFonts, baselineFonts, discoveredFonts.
  rewrite injectDefaults_eq, map_app, map_map. cbn [fst snd].
  destruct (JS.has (alreadyDeclared els) "inter") eqn:Hd;
    rewrite injectUsed_eq; cbn [map fst snd app].
  - f_equal. apply filter_ext. intros f. now apply injectable_declared.
  - do 2 f_equal. apply filter_ext. intros f. apply injectable_added.
Qed.

(** ** Strings *)

Lemma append_assoc (a b c : string) : (a ++ b) ++ c = a ++ (b ++ c).
Proof. induction a as [|x a IH]; simpl; [reflexivity|now rewrite IH]. Qed.

Lemma append_nil_r (a : string) : a ++ "" = a.
Proof. induction a as [|x a IH]; simpl; [reflexivity|now rewrite IH]. Qed.

Lemma append_truthy_l a b : JS.truthy a = true -> JS.truthy (a ++ b) = true.
Proof. destruct a; [discriminate|reflexivity]. Qed.

Lemma join_cons sep x r :
  JS.join sep (x :: r)
  = x ++ match r with [] => "" | _ :: _ => sep ++ JS.join sep r end.
Proof. destruct r; simpl; [now rewrite append_nil_r|reflexivity]. Qed.


(** ** The manual declarations *)

Lemma has_declaredFontNames fontEls x :
  JS.has (declaredFontNames fontEls) x = true <->
  exists el n, In el fontEls /\ JS.get "name" (attributes el) = Some n
               /\ n <> "" /\ JS.toLowerCase (JS.trim n) = x.
Proof.
  unfold declaredFontNames.
  set (step := fun (names : list string) (el : MJElement) => _).
  assert (H : forall els acc,
             JS.has (fold_left step els acc) x = true <->
             JS.has acc x = true \/
             exists el n, In el els /\ JS.get "name" (attributes el) = Some n
                          /\ n <> "" /\ JS.toLowerCase (JS.trim n) = x).
  { induction els as [|e r IH]; intros acc; cbn [fold_left].
    - split; [now left|]. intros [H|(el & n & [] & _)]. exact H.
    - rewrite IH. split.
      + intros [Hacc|(el & n & Hin & Hrest)].
        * unfold step in Hacc.
          destruct (JS.get "name" (attributes e)) as [n|] eqn:Hn; [|now left].
          destruct (JS.truthy n) eqn:Ht; [|now left].
          rewrite has_add in Hacc. apply orb_true_iff in Hacc.
          destruct Hacc as [E|Hacc]; [|now left].
          right. exists e, n. apply String.eqb_eq in E.
          apply truthy_true in Ht. repeat split; auto. now left.
        * right. exists el, n. split; [now right|exact Hrest].
      + intros [Hacc|(el & n & [<-|Hin] & Hn & Hne & Hx)].
        * left. unfold step.
          destruct (JS.get "name" (attributes e)) as [n|]; [|exact Hacc].
          destruct (JS.truthy n); [|exact Hacc].
          rewrite has_add, Hacc. apply orb_true_r.
        * left. unfold step. rewrite Hn.
          apply truthy_true in Hne. rewrite Hne, has_add, Hx, String.eqb_refl.
          reflexivity.
        * right. exists el, n. auto. }
  rewrite H. split; [intros [Hf|Hex]; [discriminate|exact Hex]|now right].
Qed.


(** ** The document *)

Lemma fontLine_truthy n u : JS.truthy (fontLine n u) = true.
Proof. reflexivity. Qed.

(** The shape of the document when the head content is not empty. *)
Lemma generateMJML_with_head reg els :
  JS.truthy (headContent reg els) = true ->
  generateMJML reg els
  = "<mjml>" ++ JS.NL ++ "  <mj-head>" ++ JS.NL ++ headContent reg els
      ++ JS.NL ++ "  </mj-head>" ++ JS.NL ++ bodyBlock reg els
      ++ JS.NL ++ "</mjml>".
Proof.
  intros Hh. unfold generateMJML, headBlock. rewrite Hh.
  cbn [filter JS.truthy append JS.join].
  unfold bodyBlock at 1. cbn [filter JS.truthy append JS.join].
  cbn [append JS.NL]. rewrite !append_assoc. reflexivity.
Qed.

Lemma baselineFonts_undeclared els :
  (forall el n, In el (manualFontEls els) ->
                JS.get "name" (attributes el) = Some n ->
                JS.toLowerCase (JS.trim n) <> "inter") ->
  baselineFonts els = [("Inter", interUrl)].
Proof.
  intros H. unfold baselineFonts.
  destruct (JS.has (alreadyDeclared els) "inter") eqn:Hd; [|reflexivity].
  apply has_declaredFontNames in Hd.
  destruct Hd as (el & n & Hin & Hn & _ & Hx). now destruct (H el n Hin Hn).
Qed.

(** The head content when the baseline declaration is synthesised: the manual
    head lines if any, the Inter line, then the discovered fonts. *)
Lemma headContent_baseline reg els :
  baselineFonts els = [("Inter", interUrl)] ->
  headContent reg els
  = (if JS.truthy (manualHeadLines reg els)
     then manualHeadLines reg els ++ JS.NL else "")
      ++ fontLine "Inter" interUrl
      ++ match discoveredFonts els with
         | [] => ""
         | _ :: _ =>
             JS.NL ++ JS.join JS.NL
                        (map (fun f => fontLine (fst f) (snd f))
                           (discoveredFonts els))
         end.
Proof.
  intros Hb. unfold headContent, autoFontBlock.
  rewrite autoFontLines_eq. unfold autoFonts. rewrite Hb.
  cbn [app map fst snd]. rewrite join_cons.
  set (tail := match map _ (discoveredFonts els) with [] => "" | _ :: _ => _ end).
  assert (Ht : tail = match discoveredFonts els with
                      | [] => ""
                      | _ :: _ =>
                          JS.NL ++ JS.join JS.NL
                                     (map (fun f => fontLine (fst f) (snd f))
                                        (discoveredFonts els))
                      end).
  { unfold tail. destruct (discoveredFonts els); reflexivity. }
  rewrite Ht. clear tail Ht.
  cbn [filter].
  rewrite (append_truthy_l _ _ (fontLine_truthy "Inter" interUrl)).
  destruct (JS.truthy (manualHeadLines reg els)).
  - cbn [JS.join]. now rewrite append_assoc.
  - reflexivity.
Qed.

(** C4 (amended) -- Baseline always injected.  When no visible top-level
    manual font element has a name that, trimmed of surrounding white space
    and lower-cased, is "inter", the Inter declaration with its fixed address
    is the first synthesised declaration, whatever the body uses: the head
    section holds the manual head lines if any, then the Inter line, then the
    fonts discovered in the body.  The empty tree yields the head with the
    Inter line alone and an empty body wrapper. *)
Theorem C4_baseline_injected reg els :
  (forall el n, In el (manualFontEls els) ->
                JS.get "name" (attributes el) = Some n ->
                JS.toLowerCase (JS.trim n) <> "inter") ->
  autoFonts els = ("Inter", interUrl) :: discoveredFonts els
  /\ generateMJML reg els
     = "<mjml>" ++ JS.NL ++ "  <mj-head>" ++ JS.NL
         ++ ((if JS.truthy (manualHeadLines reg els)
              then manualHeadLines reg els ++ JS.NL else "")
               ++ fontLine "Inter" interUrl
               ++ match discoveredFonts els with
                  | [] => ""
                  | _ :: _ =>
                      JS.NL ++ JS.join JS.NL
                                 (map (fun f => fontLine (fst f) (snd f))
                                    (discoveredFonts els))
                  end)
         ++ JS.NL ++ "  </mj-head>" ++ JS.NL ++ bodyBlock reg els
         ++ JS.NL ++ "</mjml>"
  /\ generateMJML reg []
     = "<mjml>" ++ JS.NL
         ++ "  <mj-head>" ++ JS.NL
         ++ "    <mj-font name=" ++ JS.DQ ++ "Inter" ++ JS.DQ ++ " href=" ++ JS.DQ
         ++ "https://fonts.googleapis.com/css2?family=Inter:wght@300;400;500;700&display=swap"
         ++ JS.DQ ++ " />" ++ JS.NL
         ++ "  </mj-head>" ++ JS.NL
         ++ "  <mj-body>" ++ JS.NL ++ JS.NL ++ "  </mj-body>" ++ JS.NL
         ++ "</mjml>".
Proof.
  intros H. pose proof (baselineFonts_undeclared els H) as Hb.
  split; [|split].
  - unfold autoFonts. now rewrite Hb.
  - rewrite <- (headContent_baseline reg els Hb).
    apply generateMJML_with_head.
    rewrite (headContent_baseline reg els Hb).
    destruct (JS.truthy (manualHeadLines reg els)) eqn:Hm.
    + apply append_truthy_l, append_truthy_l, Hm.
    + reflexivity.
  - reflexivity.
Qed.

Lemma C4_baseline_injected_witness :
  (forall el n, In el (manualFontEls sampleRobotoTree) ->
                JS.get "name" (attributes el) = Some n ->
                JS.toLowerCase (JS.trim n) <> "inter")
  /\ autoFonts sampleRobotoTree = [("Inter", interUrl)].
Proof.
  assert (H : forall el n, In el (manualFontEls sampleRobotoTree) ->
                           JS.get "name" (attributes el) = Some n ->
                           JS.toLowerCase (JS.trim n) <> "inter").
  { intros el n [<-|[]] Hn. cbn in Hn. injection Hn as <-. discriminate. }
  split; [exact H|].
  rewrite (proj1 (C4_baseline_injected [] sampleRobotoTree H)). reflexivity.
Defined.

(** C4, as stated, fails: a manual font element named Inter between two
    spaces does not match Inter up to case, yet it suppresses the baseline
    declaration, the declared names being trimmed first. *)
Lemma C4_padded_name_suppresses_baseline :
  (forall el n, In el (manualFontEls samplePaddedInter) ->
                JS.get "name" (attributes el) = Some n ->
                JS.toLowerCase n <> JS.toLowerCase "Inter")
  /\ autoFontLines samplePaddedInter = []
  /\ generateMJML [] samplePaddedInter
     = "<mjml>" ++ JS.NL
         ++ "  <mj-head>" ++ JS.NL
         ++ "    <mj-font name=" ++ JS.DQ ++ " Inter " ++ JS.DQ
         ++ " href=" ++ JS.DQ ++ "u" ++ JS.DQ ++ " />" ++ JS.NL
         ++ "  </mj-head>" ++ JS.NL
         ++ "  <mj-body>" ++ JS.NL ++ JS.NL ++ "  </mj-body>" ++ JS.NL
         ++ "</mjml>".
Proof.
  split; [|split; reflexivity].
  intros el n [<-|[]] Hn. cbn in Hn. injection Hn as <-. discriminate.
Qed.

(** ** Primary font names *)

Lemma split_nonempty sep s : JS.split sep s <> [].
Proof.
  destruct s as [|c r]; simpl; [discriminate|].
  destruct (Ascii.eqb c sep); [discriminate|].
  destruct (JS.split sep r); discriminate.
Qed.

(** [s.split(sep)[0]] holds no separator, and is all of [s] or what stands
    before a separator of [s]: the substring before the first separator. *)
Lemma split_head sep s :
  JS.includes sep (hd "" (JS.split sep s)) = false
  /\ (s = hd "" (JS.split sep s)
      \/ exists rest, s = hd "" (JS.split sep s) ++ String sep rest).
Proof.
  induction s as [|c r [IHi IHs]]; simpl.
  - split; [reflexivity|now left].
  - destruct (Ascii.eqb_spec c sep) as [->|Hne]; simpl.
    + split; [reflexivity|]. right. now exists r.
    + pose proof (split_nonempty sep r) as Hn.
      destruct (JS.split sep r) as [|h t]; [congruence|]. simpl in *.
      apply Ascii.eqb_neq in Hne. rewrite Hne, IHi. split; [reflexivity|].
      destruct IHs as [->|[rest ->]]; [now left|right; now exists rest].
Qed.

Lemma trimStart_spec s :
  exists l, s = l ++ JS.trimStart s /\ all_ws l = true
            /\ char_is JS.is_ws (first_char (JS.trimStart s)) = false.
Proof.
  induction s as [|c r (l & Hl & Hws & Hf)]; simpl.
  - exists "". auto.
  - destruct (JS.is_ws c) eqn:Hc.
    + exists (String c l). simpl. rewrite Hc, Hws. split; [now f_equal|auto].
    + exists "". simpl. auto.
Qed.

Lemma trimEnd_nil s : JS.trimEnd s = "" <-> all_ws s = true.
Proof.
  induction s as [|c r IH]; simpl; [tauto|].
  destruct (JS.is_ws c); simpl.
  - destruct (JS.trimEnd r) eqn:Hr; simpl.
    + split; [intros _; now apply IH|reflexivity].
    + split; [discriminate|]. intros H. apply IH in H. discriminate.
  - split; discriminate.
Qed.

Lemma trimEnd_spec s :
  exists r, s = JS.trimEnd s ++ r /\ all_ws r = true
            /\ char_is JS.is_ws (last_char (JS.trimEnd s)) = false
            /\ first_char (JS.trimEnd s)
               = if all_ws s then None else first_char s.
Proof.
  induction s as [|c s (r & Hr & Hws & Hl & Hf)]; simpl.
  - exists "". auto.
  - destruct (JS.is_ws c) eqn:Hc; simpl.
    + destruct (JS.trimEnd s) as [|d t] eqn:Ht; simpl.
      * exists (String c r). simpl in Hr. subst s.
        simpl. rewrite Hc, Hws. auto.
      * exists r. simpl. rewrite Hr at 1. simpl. split; [reflexivity|].
        split; [exact Hws|]. split.
        -- destruct t; [exact Hl|exact Hl].
        -- destruct (all_ws s) eqn:Ha; [|reflexivity].
           apply trimEnd_nil in Ha. congruence.
    + exists r. rewrite Hr at 1. split; [reflexivity|]. split; [exact Hws|].
      split; [|reflexivity].
      destruct (JS.trimEnd s) as [|d t]; simpl; [exact Hc|exact Hl].
Qed.

(** [trim] removes white space at both ends and nothing else. *)
Lemma trim_spec s :
  exists l r, s = l ++ JS.trim s ++ r
              /\ all_ws l = true /\ all_ws r = true
              /\ char_is JS.is_ws (first_char (JS.trim s)) = false
              /\ char_is JS.is_ws (last_char (JS.trim s)) = false.
Proof.
  unfold JS.trim.
  destruct (trimStart_spec s) as (l & Hl & Hwl & Hf).
  destruct (trimEnd_spec (JS.trimStart s)) as (r & Hr & Hwr & Hlast & Hfirst).
  exists l, r. split; [|split; [exact Hwl|split; [exact Hwr|split]]].
  - rewrite <- Hr. exact Hl.
  - rewrite Hfirst. destruct (all_ws (JS.trimStart s)); [reflexivity|exact Hf].
  - exact Hlast.
Qed.

Lemma dropTrailingQuote_snoc m q :
  JS.dropTrailingQuote (m ++ String q "")
  = if JS.is_quote q then m else m ++ String q "".
Proof.
  induction m as [|c m IH]; [reflexivity|].
  change (String c m ++ String q "") with (String c (m ++ String q "")).
  cbn [JS.dropTrailingQuote]. rewrite IH.
  destruct m; simpl; destruct (JS.is_quote q); reflexivity.
Qed.

Lemma dropTrailingQuote_id s :
  char_is JS.is_quote (last_char s) = false -> JS.dropTrailingQuote s = s.
Proof.
  induction s as [|c s IH]; [reflexivity|].
  destruct s as [|d t].
  - simpl. now intros ->.
  - intros H.
    change (JS.dropTrailingQuote (String c (String d t)))
      with (String c (JS.dropTrailingQuote (String d t))).
    now rewrite (IH H).
Qed.

(** A quote at each end: both go, and what they surround is kept as it is. *)
Lemma stripQuotes_surrounded q1 q2 mid :
  JS.is_quote q1 = true -> JS.is_quote q2 = true ->
  JS.stripQuotes (String q1 (mid ++ String q2 "")) = mid.
Proof.
  intros H1 H2. unfold JS.stripQuotes. cbn [JS.dropLeadingQuote].
  now rewrite H1, dropTrailingQuote_snoc, H2.
Qed.

(** No quote at either end: nothing is removed. *)
Lemma stripQuotes_bare s :
  char_is JS.is_quote (first_char s) = false ->
  char_is JS.is_quote (last_char s) = false ->
  JS.stripQuotes s = s.
Proof.
  intros Hf Hl. unfold JS.stripQuotes.
  destruct s as [|c r]; [reflexivity|]. simpl in Hf.
  cbn [JS.dropLeadingQuote]. rewrite Hf. now apply dropTrailingQuote_id.
Qed.

(** ** The font walk *)

Lemma add_In x s y : In y (JS.add x s) <-> y = x \/ In y s.
Proof.
  unfold JS.add. destruct (JS.has s x) eqn:Hx.
  - apply has_In in Hx. split; [now right|]. now intros [->|H].
  - rewrite in_app_iff. simpl. intuition.
Qed.

Lemma add_NoDup x s : NoDup s -> NoDup (JS.add x s).
Proof.
  intros Hnd. unfold JS.add. destruct (JS.has s x) eqn:Hx; [exact Hnd|].
  apply has_false in Hx.
  apply NoDup_app; [exact Hnd|repeat constructor; intros []|].
  intros a Ha [<-|[]]. exact (Hx Ha).
Qed.

Lemma fold_add_In l acc y :
  In y (fold_left (fun s x => JS.add x s) l acc) <-> In y acc \/ In y l.
Proof.
  revert acc. induction l as [|x r IH]; intros acc; simpl; [tauto|].
  rewrite IH, add_In. intuition.
Qed.

Lemma fold_add_NoDup l acc :
  NoDup acc -> NoDup (fold_left (fun s x => JS.add x s) l acc).
Proof.
  revert acc. induction l as [|x r IH]; intros acc H; simpl; [exact H|].
  apply IH, add_NoDup, H.
Qed.

Lemma visit_eq el fonts :
  visit el fonts = fold_left (fun s x => JS.add x s) (fontOf el) fonts.
Proof.
  unfold visit, fontOf.
  destruct (JS.get "font-family" (attributes el)) as [ff|]; [|reflexivity].
  destruct (JS.truthy ff); [|reflexivity].
  destruct (JS.truthy (primary ff)); reflexivity.
Qed.

Lemma walk_el_eq el fonts :
  walk_el el fonts =
    match children el with
    | Some cs => walk cs (visit el fonts)
    | None => visit el fonts
    end.
Proof. destruct el; reflexivity. Qed.

(** The walk adds the primary names of the forest in document order. *)
Lemma walk_eq els fonts :
  walk els fonts = fold_left (fun s x => JS.add x s) (primaryNames els) fonts.
Proof.
  assert (Hls : forall l,
             Forall (fun el => forall acc,
                         walk_el el acc
                         = fold_left (fun s x => JS.add x s)
                             (primaryNames [el]) acc) l ->
             forall acc,
               walk l acc
               = fold_left (fun s x => JS.add x s) (primaryNames l) acc).
  { induction 1 as [|e r He Hr IHr]; intros acc; [reflexivity|].
    unfold walk. cbn [fold_left]. fold (walk r (walk_el e acc)).
    rewrite IHr, He. unfold primaryNames.
    rewrite !nodes_cons. cbn [nodes flat_map]. rewrite !app_nil_r.
    now rewrite flat_map_app, fold_left_app. }
  revert fonts. apply Hls, Forall_forall. intros el _.
  induction el as [i t a c ch h l IH] using MJElement_tree_ind.
  intros acc. rewrite walk_el_eq, visit_eq. unfold primaryNames.
  cbn [nodes flat_map]. rewrite app_nil_r, subtree_eq.
  cbn [flat_map]. rewrite fold_left_app.
  destruct ch as [cs|]; cbn [children].
  - apply (Hls _ IH).
  - reflexivity.
Qed.

Lemma collectFonts_In els name :
  In name (collectFontsFromElements els) <->
  name <> "" /\
  exists el ff, In el (nodes els)
                /\ JS.get "font-family" (attributes el) = Some ff
                /\ primary ff = name.
Proof.
  unfold collectFontsFromElements. rewrite walk_eq, fold_add_In.
  unfold primaryNames. rewrite in_flat_map. split.
  - intros [[]|(el & Hin & Hf)]. unfold fontOf in Hf.
    destruct (JS.get "font-family" (attributes el)) as [ff|] eqn:Hff;
      [|destruct Hf].
    destruct (JS.truthy ff); [|destruct Hf].
    destruct (JS.truthy (primary ff)) eqn:Hp; [|destruct Hf].
    destruct Hf as [<-|[]]. split; [now apply truthy_true|].
    now exists el, ff.
  - intros (Hne & el & ff & Hin & Hff & <-). right. exists el.
    split; [exact Hin|]. unfold fontOf. rewrite Hff.
    apply truthy_true in Hne. rewrite Hne.
    destruct ff; [discriminate|]. now left.
Qed.

Lemma collectFonts_NoDup els : NoDup (collectFontsFromElements els).
Proof.
  unfold collectFontsFromElements. rewrite walk_eq.
  apply fold_add_NoDup. constructor.
Qed.

(** ** Which fonts are synthesised *)


Lemma autoFonts_In els f :
  In f (map fst (autoFonts els)) <->
  (f = "Inter" /\ JS.has (alreadyDeclared els) "inter" = false)
  \/ (In f (usedFonts els) /\ injectable els f = true).
Proof.
  unfold autoFonts, baselineFonts, discoveredFonts.
  rewrite map_app, in_app_iff, map_map. cbn [fst]. rewrite map_id, filter_In.
  destruct (JS.has (alreadyDeclared els) "inter"); simpl; intuition congruence.
Qed.




Lemma discovered_not_inter els f :
  In f (map fst (discoveredFonts els)) -> JS.toLowerCase f <> "inter".
Proof.
  unfold discoveredFonts. rewrite map_map. cbn [fst]. rewrite map_id, filter_In.
  intros [_ Hi] E. unfold injectable in Hi. rewrite E in Hi.
  now rewrite andb_false_r in Hi.
Qed.

(** C6 -- System font exclusion.  A font whose lower-cased name is in the
    list of system fonts is never the name of a synthesised declaration,
    whatever the tree: so a body node whose primary name is such a font causes
    no injection for it.  The test reads the lower-cased name only: every
    other spelling of the name that differs by case is excluded as well.  The
    lines pushed on the head are those of the synthesised declarations. *)
Theorem C6_system_fonts_not_injected els font :
  JS.has SYSTEM_FONTS (JS.toLowerCase font) = true ->
  ~ In font (map fst (autoFonts els))
  /\ (forall other, JS.toLowerCase other = JS.toLowerCase font ->
                    ~ In other (map fst (autoFonts els)))
  /\ autoFontLines els = map (fun f => fontLine (fst f) (snd f)) (autoFonts els).
Proof.
  intros Hs.
  assert (H : forall other, JS.toLowerCase other = JS.toLowerCase font ->
                            ~ In other (map fst (autoFonts els))).
  { intros other E Hin. rewrite <- E in Hs. apply autoFonts_In in Hin.
    destruct Hin as [[-> _]|[_ Hi]]; [discriminate|].
    unfold injectable in Hi. rewrite Hs in Hi. discriminate. }
  split; [now apply H|]. split; [exact H|apply autoFontLines_eq].
Qed.

Lemma C6_system_fonts_not_injected_witness :
  JS.has SYSTEM_FONTS (JS.toLowerCase "Arial") = true
  /\ usedFonts sampleSystemTree = ["Arial"; "GEORGIA"; "Lato"]
  /\ map fst (autoFonts sampleSystemTree) = ["Inter"; "Lato"]
  /\ ~ In "Arial" (map fst (autoFonts sampleSystemTree))
  /\ ~ In "GEORGIA" (map fst (autoFonts sampleSystemTree)).
Proof.
  split; [reflexivity|]. split; [reflexivity|]. split; [reflexivity|].
  split.
  - exact (proj1 (C6_system_fonts_not_injected sampleSystemTree "Arial" eq_refl)).
  - exact (proj1 (C6_system_fonts_not_injected sampleSystemTree "GEORGIA" eq_refl)).
Defined.

(** ** Substrings *)

Lemma occurs_in_refl s : occurs_in s s.
Proof. exists "", "". simpl. now rewrite append_nil_r. Qed.

Lemma occurs_in_app_l n h a : occurs_in n h -> occurs_in n (a ++ h).
Proof.
  intros (pre & post & ->). exists (a ++ pre), post. now rewrite append_assoc.
Qed.

Lemma occurs_in_app_r n h a : occurs_in n h -> occurs_in n (h ++ a).
Proof.
  intros (pre & post & ->). exists pre, (post ++ a).
  now rewrite !append_assoc.
Qed.

Lemma occurs_in_trans a b c : occurs_in a b -> occurs_in b c -> occurs_in a c.
Proof.
  intros Hab (pre & post & ->). now apply occurs_in_app_l, occurs_in_app_r.
Qed.

Lemma occurs_in_join sep x l : In x l -> occurs_in x (JS.join sep l).
Proof.
  induction l as [|y r IH]; [intros []|].
  intros [->|Hin]; rewrite join_cons.
  - apply occurs_in_app_r, occurs_in_refl.
  - apply occurs_in_app_l. destruct r as [|z r']; [destruct Hin|].
    apply occurs_in_app_l, IH, Hin.
Qed.

Lemma append_truthy_r a b : JS.truthy b = true -> JS.truthy (a ++ b) = true.
Proof. destruct a; [trivial|reflexivity]. Qed.

Lemma join_truthy sep x l :
  JS.truthy x = true -> JS.truthy (JS.join sep (x :: l)) = true.
Proof. intros H. rewrite join_cons. now apply append_truthy_l. Qed.

Lemma occurs_in_truthy n h :
  occurs_in n h -> JS.truthy n = true -> JS.truthy h = true.
Proof.
  intros (pre & post & ->) H. now apply append_truthy_r, append_truthy_l.
Qed.

(** ** Head and body *)

Lemma renderEl_truthy reg el indent : JS.truthy (renderEl reg el indent) = true.
Proof.
  destruct (renderEl_open reg el indent) as [rest ->].
  now apply append_truthy_r.
Qed.

Lemma manualHeadLines_truthy reg els :
  headEls els <> [] -> JS.truthy (manualHeadLines reg els) = true.
Proof.
  unfold manualHeadLines. destruct (headEls els) as [|e r]; [congruence|].
  intros _. cbn [map]. apply join_truthy, renderEl_truthy.
Qed.

Lemma headContent_truthy_manual reg els :
  JS.truthy (manualHeadLines reg els) = true ->
  JS.truthy (headContent reg els) = true.
Proof.
  intros H. unfold headContent. cbn [filter]. rewrite H.
  destruct (JS.truthy (autoFontBlock els)); cbn [JS.join].
  - now apply append_truthy_l.
  - exact H.
Qed.

Lemma headContent_truthy_auto reg els :
  JS.truthy (autoFontBlock els) = true ->
  JS.truthy (headContent reg els) = true.
Proof.
  intros H. unfold headContent. cbn [filter]. rewrite H.
  destruct (JS.truthy (manualHeadLines reg els)) eqn:Hm; cbn [JS.join].
  - now apply append_truthy_l.
  - exact H.
Qed.

Lemma manualFontEls_In els m :
  In m (manualFontEls els) <->
  In m (visible els) /\ type m = "mj-font".
Proof.
  unfold manualFontEls, headEls. rewrite !filter_In, String.eqb_eq.
  split; [intros [[Hv _] Ht]; now split|].
  intros [Hv Ht]. rewrite Ht. repeat split; auto.
Qed.

Lemma visible_not_hidden els el :
  In el (visible els) -> JS.truthy_flag (hidden el) = false.
Proof.
  unfold visible, stripHidden. rewrite in_map_iff.
  intros (x & <- & Hx). apply filter_In in Hx. destruct Hx as [_ Hv].
  rewrite stripHidden_el_hidden. unfold visibleb in Hv.
  now destruct (JS.truthy_flag (hidden x)).
Qed.

(** C10 -- Head wrapper always emitted.  For every registry and every tree
    the head content is not empty, so the document always has the head
    section and the branch that leaves it out is never taken.  Either the
    Inter declaration is synthesised, and the block of synthesised lines is
    not empty; or some top-level element of the filtered copy, of type
    mj-font and not hidden, has a name that trimmed and lower-cased is
    "inter", and then the rendered manual head lines are not empty. *)
Theorem C10_head_always_emitted reg els :
  JS.truthy (headContent reg els) = true
  /\ headBlock reg els
     = "  <mj-head>" ++ JS.NL ++ headContent reg els ++ JS.NL ++ "  </mj-head>"
  /\ generateMJML reg els
     = "<mjml>" ++ JS.NL ++ "  <mj-head>" ++ JS.NL ++ headContent reg els
         ++ JS.NL ++ "  </mj-head>" ++ JS.NL ++ bodyBlock reg els
         ++ JS.NL ++ "</mjml>"
  /\ ((In ("Inter", interUrl) (autoFonts els)
       /\ JS.truthy (autoFontBlock els) = true)
      \/ ((exists m n,
              In m (visible els)
              /\ type m = "mj-font"
              /\ JS.truthy_flag (hidden m) = false
              /\ JS.get "name" (attributes m) = Some n
              /\ JS.toLowerCase (JS.trim n) = "inter")
          /\ JS.truthy (manualHeadLines reg els) = true)).
Proof.
  assert (Hcase :
           (In ("Inter", interUrl) (autoFonts els)
            /\ JS.truthy (autoFontBlock els) = true)
           \/ ((exists m n,
                   In m (visible els)
                   /\ type m = "mj-font"
                   /\ JS.truthy_flag (hidden m) = false
                   /\ JS.get "name" (attributes m) = Some n
                   /\ JS.toLowerCase (JS.trim n) = "inter")
               /\ JS.truthy (manualHeadLines reg els) = true)).
  { destruct (JS.has (alreadyDeclared els) "inter") eqn:Hd.
    - right. apply has_declaredFontNames in Hd.
      destruct Hd as (m & n & Hm & Hn & _ & Hx).
      pose proof (proj1 (manualFontEls_In els m) Hm) as [Hv Ht].
      split.
      + exists m, n. repeat split; auto. now apply (visible_not_hidden els).
      + apply manualHeadLines_truthy. intros E.
        unfold manualFontEls in Hm. rewrite E in Hm. destruct Hm.
    - left. unfold autoFontBlock. rewrite autoFontLines_eq.
      unfold autoFonts, baselineFonts. rewrite Hd. split; [now left|].
      cbn [app map fst snd]. apply join_truthy, fontLine_truthy. }
  assert (Hh : JS.truthy (headContent reg els) = true).
  { destruct Hcase as [[_ Ha]|[_ Hm]].
    - now apply headContent_truthy_auto.
    - now apply headContent_truthy_manual. }
  split; [exact Hh|]. split; [unfold headBlock; now rewrite Hh|].
  split; [now apply generateMJML_with_head|exact Hcase].
Qed.

(** ** Where a node is rendered *)

Lemma inner_children reg el indent :
  JS.truthy (renderedChildren reg el indent) = true ->
  occurs_in (renderedChildren reg el indent) (inner reg el indent).
Proof.
  intros H. unfold inner. apply occurs_in_join.
  apply filter_In. split; [right; left; reflexivity|exact H].
Qed.

Lemma renderEl_inner reg el indent :
  JS.has SELF_CLOSING (type el) = false ->
  JS.truthy (inner reg el indent) = true ->
  occurs_in (inner reg el indent) (renderEl reg el indent).
Proof.
  intros Hs Hi. rewrite renderEl_eq, Hs, Hi. cbn [negb].
  destruct (JS.includes _ _).
  - do 6 apply occurs_in_app_l. apply occurs_in_app_r, occurs_in_refl.
  - do 5 apply occurs_in_app_l. apply occurs_in_app_r, occurs_in_refl.
Qed.

(** A child is rendered inside the element of its parent, one level deeper,
    unless the parent is self-closing. *)
Lemma renderEl_child reg p cs c indent :
  children p = Some cs -> In c cs ->
  JS.has SELF_CLOSING (type p) = false ->
  occurs_in (renderEl reg c (indent ++ "  ")) (renderEl reg p indent).
Proof.
  intros Hcs Hc Hs.
  assert (Hr : occurs_in (renderEl reg c (indent ++ "  "))
                 (renderedChildren reg p indent)).
  { unfold renderedChildren. rewrite Hcs. apply occurs_in_join.
    apply (in_map (fun x => renderEl reg x (indent ++ "  "))), Hc. }
  pose proof (occurs_in_truthy _ _ Hr (renderEl_truthy reg c _)) as Ht.
  pose proof (inner_children reg p indent Ht) as Hi.
  apply (occurs_in_trans _ _ _ Hr), (occurs_in_trans _ _ _ Hi).
  apply renderEl_inner; [exact Hs|].
  exact (occurs_in_truthy _ _ Hi Ht).
Qed.

Lemma bodyBlock_el reg els el :
  In el (bodyEls els) ->
  occurs_in (renderEl reg el "    ") (bodyBlock reg els).
Proof.
  intros Hin. unfold bodyBlock.
  do 2 apply occurs_in_app_l. apply occurs_in_app_r, occurs_in_join.
  apply (in_map (fun x => renderEl reg x "    ")), Hin.
Qed.

Lemma headBlock_el reg els el :
  In el (headEls els) ->
  occurs_in (renderEl reg el "    ") (headBlock reg els).
Proof.
  intros Hin.
  assert (Hm : occurs_in (renderEl reg el "    ") (manualHeadLines reg els)).
  { unfold manualHeadLines. apply occurs_in_join.
    apply (in_map (fun x => renderEl reg x "    ")), Hin. }
  pose proof (occurs_in_truthy _ _ Hm (renderEl_truthy reg el _)) as Ht.
  unfold headBlock. rewrite (headContent_truthy_manual reg els Ht).
  do 2 apply occurs_in_app_l. apply occurs_in_app_r.
  apply (occurs_in_trans _ _ _ Hm). unfold headContent.
  apply occurs_in_join. cbn [filter]. rewrite Ht. now left.
Qed.

(** C8 (amended) -- Classification by type at top level only.  An element
    is a head element exactly when it is a top-level element of the filtered
    copy and its type is a head type, and a body element exactly when it is
    one whose type is not.  A head element is rendered in the head block and a
    body element in the body block; a nested node is not classified: it is
    rendered inside the element of its parent, whatever its type, when the
    parent is not self-closing. *)
Theorem C8_classified_at_top_level reg els :
  (forall el, In el (headEls els) <->
              In el (visible els) /\ JS.has HEAD_TYPES (type el) = true)
  /\ (forall el, In el (bodyEls els) <->
                 In el (visible els) /\ JS.has HEAD_TYPES (type el) = false)
  /\ (forall el, In el (headEls els) ->
                 occurs_in (renderEl reg el "    ") (headBlock reg els))
  /\ (forall el, In el (bodyEls els) ->
                 occurs_in (renderEl reg el "    ") (bodyBlock reg els))
  /\ (forall p cs c indent,
         children p = Some cs -> In c cs ->
         JS.has SELF_CLOSING (type p) = false ->
         occurs_in (renderEl reg c (indent ++ "  ")) (renderEl reg p indent)).
Proof.
  split; [|split; [|split; [|split]]].
  - intros el. unfold headEls. apply filter_In.
  - intros el. unfold bodyEls. rewrite filter_In, negb_true_iff. reflexivity.
  - apply headBlock_el.
  - apply bodyBlock_el.
  - apply renderEl_child.
Qed.

(** C8, as stated, fails: a title nested in a section has a head type, yet
    it is no head element; the manual head lines are empty and the title is
    rendered inside the section, in the body, under every registry. *)
Lemma C8_nested_head_type_rendered_in_body :
  In sampleNestedTitle (nodes (visible sampleNestedTree))
  /\ JS.has HEAD_TYPES (type sampleNestedTitle) = true
  /\ headEls sampleNestedTree = []
  /\ (forall reg, manualHeadLines reg sampleNestedTree = "")
  /\ (forall reg,
         occurs_in (renderEl reg sampleNestedTitle "      ")
           (bodyBlock reg sampleNestedTree))
  /\ generateMJML [] sampleNestedTree
     = "<mjml>" ++ JS.NL
         ++ "  <mj-head>" ++ JS.NL
         ++ fontLine "Inter" interUrl ++ JS.NL
         ++ "  </mj-head>" ++ JS.NL
         ++ "  <mj-body>" ++ JS.NL
         ++ "    <mj-section>      <mj-title>T</mj-title></mj-section>" ++ JS.NL
         ++ "  </mj-body>" ++ JS.NL
         ++ "</mjml>".
Proof.
  split; [right; left; reflexivity|]. split; [reflexivity|].
  split; [reflexivity|]. split; [reflexivity|]. split; [|reflexivity].
  intros reg.
  apply (occurs_in_trans _ (renderEl reg (hd sampleNestedTitle sampleNestedTree) "    ")).
  - apply (renderEl_child reg _ [sampleNestedTitle]);
      [reflexivity|now left|reflexivity].
  - apply bodyBlock_el. left. reflexivity.
Qed.

(** ** Unknown types *)

Lemma set_fresh k v o :
  ~ In k (map fst o) -> JS.set k v o = (o ++ [(k, v)])%list.
Proof.
  induction o as [|[k0 v0] r IH]; simpl; intros H; [reflexivity|].
  destruct (String.eqb_spec k k0) as [->|Hne]; [exfalso; apply H; now left|].
  rewrite IH; [reflexivity|]. intros Hin. apply H. now right.
Qed.

Lemma spread_fresh src acc :
  NoDup (map fst acc ++ map fst src) ->
  JS.spread src acc = (acc ++ src)%list.
Proof.
  unfold JS.spread. revert acc.
  induction src as [|[k v] r IH]; intros acc Hnd; cbn [fold_left fst snd].
  - now rewrite app_nil_r.
  - cbn [map fst] in Hnd.
    rewrite set_fresh.
    + rewrite IH; [now rewrite <- app_assoc|].
      rewrite map_app, <- app_assoc. exact Hnd.
    + intros Hin. apply NoDup_remove_2 in Hnd. apply Hnd.
      apply in_or_app. now left.
Qed.

(** An object spread on the empty object is the object itself. *)
Lemma spread_empty o : JS.wf o -> JS.spread o [] = o.
Proof. intros H. now apply spread_fresh. Qed.

(** * The editor operations *)

(** ** Equations of the recursive operations *)

Lemma findSelected_item_eq sel item :
  findSelected_item sel item =
    if String.eqb (id item) sel then Some item
    else match children item with
         | Some cs => findSelected sel cs
         | None => None
         end.
Proof.
  destruct item as [i t a c [cs|] h l]; simpl; [|reflexivity].
  destruct (String.eqb i sel); [reflexivity|].
  induction cs as [|x r IH]; [reflexivity|]. simpl. now rewrite IH.
Qed.

Lemma rm_cons i x r :
  DeleteElement.rm i (x :: r) =
    if negb (String.eqb (id x) i)
    then DeleteElement.rm_item i x :: DeleteElement.rm i r
    else DeleteElement.rm i r.
Proof.
  unfold DeleteElement.rm. simpl.
  destruct (negb (String.eqb (id x) i)); reflexivity.
Qed.

Lemma rm_item_eq i item :
  DeleteElement.rm_item i item =
    match children item with
    | Some cs => setChildren item (DeleteElement.rm i cs)
    | None => item
    end.
Proof.
  destruct item as [i0 t a c [cs|] h l]; simpl; [|reflexivity].
  f_equal. induction cs as [|x r IH]; [reflexivity|].
  rewrite rm_cons, IH. reflexivity.
Qed.

Lemma findSiblings_eq i items :
  findSiblings i items =
    match findIndex i items with
    | Some idx => Some (items, idx)
    | None =>
        (fix go (l : list MJElement) : option (list MJElement * nat) :=
           match l with
           | [] => None
           | x :: r =>
               match children x with
               | Some cs =>
                   match findSiblings i cs with
                   | Some found => Some found
                   | None => go r
                   end
               | None => go r
               end
           end) items
    end.
Proof.
  assert (Hitem : forall x,
             findSiblings_item i x =
               match children x with
               | Some cs => findSiblings i cs
               | None => None
               end).
  { intros [i0 t a c [cs|] h l]; reflexivity. }
  unfold findSiblings at 1. destruct (findIndex i items); [reflexivity|].
  induction items as [|x r IH]; [reflexivity|].
  rewrite Hitem, IH. destruct (children x); reflexivity.
Qed.

(** ** Ids of a forest *)

Lemma subtree_kids x : subtree x = x :: nodes (kids x).
Proof. rewrite subtree_eq. unfold kids. now destruct (children x). Qed.

Lemma ids_cons x r : ids (x :: r) = (id x :: ids (kids x) ++ ids r)%list.
Proof.
  unfold ids. rewrite nodes_cons, subtree_kids, map_app. reflexivity.
Qed.

Lemma ids_app a b : ids (a ++ b) = (ids a ++ ids b)%list.
Proof.
  unfold ids, nodes. now rewrite flat_map_app, map_app.
Qed.

Lemma occ_nil z : occ z [] = 0.
Proof. reflexivity. Qed.

Lemma occ_cons z x r :
  occ z (x :: r)
  = (if string_dec (id x) z then 1 else 0) + occ z (kids x) + occ z r.
Proof.
  unfold occ. rewrite ids_cons. cbn [count_occ].
  rewrite count_occ_app. destruct (string_dec (id x) z); lia.
Qed.

Lemma occ_app z a b : occ z (a ++ b) = occ z a + occ z b.
Proof. unfold occ. now rewrite ids_app, count_occ_app. Qed.

Lemma occ_In z els : In z (ids els) <-> occ z els > 0.
Proof. unfold occ. apply count_occ_In. Qed.

Lemma occ_zero z els : ~ In z (ids els) <-> occ z els = 0.
Proof. unfold occ. apply count_occ_not_In. Qed.

Lemma kids_setChildren x cs : kids (setChildren x cs) = cs.
Proof. reflexivity. Qed.

Lemma id_setChildren x cs : id (setChildren x cs) = id x.
Proof. reflexivity. Qed.

Lemma setChildren_same x cs : children x = Some cs -> setChildren x cs = x.
Proof. destruct x as [i t a c ch h l]. simpl. now intros ->. Qed.

Lemma kids_In_nodes x c els : In x (nodes els) -> In c (kids x) -> In c (nodes els).
Proof.
  intros Hx Hc. unfold nodes in *. apply in_flat_map in Hx.
  destruct Hx as (y & Hy & Hx). apply in_flat_map. exists y. split; [exact Hy|].
  unfold kids in Hc. destruct (children x) as [cs|] eqn:Hcs; [|destruct Hc].
  exact (subtree_child x cs c y Hx Hcs Hc).
Qed.

(** ** The elements an operation reaches *)

Lemma reached_cons i x r :
  reached i (x :: r) =
    ((if String.eqb (id x) i then [x] else reached i (kids x)) ++ reached i r)%list.
Proof.
  unfold reached at 1. cbn [flat_map]. f_equal.
  destruct x as [i0 t a c [cs|] h l]; simpl; destruct (String.eqb i0 i); reflexivity.
Qed.

Lemma reached_id i els :
  forall x, In x (reached i els) -> id x = i /\ In x (nodes els).
Proof.
  assert (Hls : forall l,
             Forall (fun y => forall x, In x (reached i (kids y)) ->
                                        id x = i /\ In x (nodes (kids y))) l ->
             forall x, In x (reached i l) -> id x = i /\ In x (nodes l)).
  { induction 1 as [|y r Hy Hr IHr]; intros x Hin; [destruct Hin|].
    rewrite reached_cons in Hin. rewrite nodes_cons, subtree_kids.
    apply in_app_or in Hin. destruct Hin as [Hin|Hin].
    - destruct (String.eqb_spec (id y) i) as [E|_].
      + destruct Hin as [<-|[]]. split; [exact E|now left].
      + destruct (Hy x Hin) as [Hi Hn]. split; [exact Hi|].
        right. apply in_or_app. now left.
    - destruct (IHr x Hin) as [Hi Hn]. split; [exact Hi|].
      apply in_or_app. now right. }
  apply Hls, Forall_forall. intros y _.
  induction y as [i0 t a c ch h l IH] using MJElement_tree_ind.
  unfold kids. cbn [children]. destruct ch as [cs|]; [apply Hls, IH|intros x []].
Qed.

(** The operation reaches an element exactly when the id occurs. *)
Lemma reached_nil i els : reached i els = [] <-> ~ In i (ids els).
Proof.
  rewrite occ_zero.
  assert (Hls : forall l,
             Forall (fun y => reached i (kids y) = [] <-> occ i (kids y) = 0) l ->
             (reached i l = [] <-> occ i l = 0)).
  { induction 1 as [|y r Hy Hr IHr]; [split; reflexivity|].
    rewrite reached_cons, occ_cons.
    destruct (String.eqb_spec (id y) i) as [E|Hne].
    - destruct (string_dec (id y) i); [|contradiction].
      split; [discriminate|lia].
    - destruct (string_dec (id y) i); [contradiction|].
      split.
      + intros H. apply app_eq_nil in H. destruct H as [H1 H2].
        apply Hy in H1. apply IHr in H2. lia.
      + intros H. assert (H1 : occ i (kids y) = 0) by lia.
        assert (H2 : occ i r = 0) by lia.
        apply Hy in H1. apply IHr in H2. now rewrite H1, H2. }
  apply Hls, Forall_forall. intros y _.
  induction y as [i0 t a c ch h l IH] using MJElement_tree_ind.
  unfold kids. cbn [children].
  destruct ch as [cs|]; [apply Hls, IH|split; reflexivity].
Qed.

(** Induction over a forest: the empty one, and an element before a forest,
    given its children. *)
Lemma forest_ind (P : list MJElement -> Prop) :
  P [] ->
  (forall x r, P (kids x) -> P r -> P (x :: r)) ->
  forall l, P l.
Proof.
  intros Hnil Hcons.
  assert (Hls : forall l, Forall (fun y => P (kids y)) l -> P l).
  { induction 1 as [|y r Hy Hr IHr]; [exact Hnil|now apply Hcons]. }
  intros l. apply Hls, Forall_forall. intros y _.
  induction y as [i0 t a c ch h l0 IH] using MJElement_tree_ind.
  unfold kids. cbn [children]. destruct ch as [cs|]; [apply Hls, IH|exact Hnil].
Qed.

Lemma children_kids x : children x = None \/ children x = Some (kids x).
Proof. unfold kids. destruct (children x); [now right|now left]. Qed.

(** ** Deleting *)

Lemma rm_item_id i x : id (DeleteElement.rm_item i x) = id x.
Proof. destruct x as [i0 t a c [cs|] h l]; rewrite rm_item_eq; reflexivity. Qed.

Lemma rm_item_kids i x :
  kids (DeleteElement.rm_item i x) = DeleteElement.rm i (kids x).
Proof. destruct x as [i0 t a c [cs|] h l]; rewrite rm_item_eq; reflexivity. Qed.

(** The ids of a forest are those left by a deletion and those of the
    elements it removes with their subtrees. *)
Lemma occ_rm i z els :
  occ z els = occ z (DeleteElement.rm i els) + occ z (reached i els).
Proof.
  induction els as [|x r IHk IHr] using forest_ind; [reflexivity|].
  rewrite rm_cons, reached_cons, occ_cons.
  destruct (String.eqb_spec (id x) i) as [E|Hne]; cbn [negb].
  - rewrite occ_app. change [x] with ([x] ++ [])%list.
    cbn [app]. rewrite (occ_cons z x []), occ_nil. lia.
  - rewrite occ_cons, occ_app, rm_item_id, rm_item_kids. lia.
Qed.

Lemma reached_occ i els : occ i (reached i els) >= length (reached i els).
Proof.
  assert (H : forall l, Forall (fun x => id x = i) l -> occ i l >= length l).
  { induction 1 as [|x r Hx Hr IHr]; [unfold occ; simpl; lia|].
    rewrite occ_cons. destruct (string_dec (id x) i); [|contradiction].
    simpl. lia. }
  apply H, Forall_forall. intros x Hx. now apply (reached_id i els).
Qed.

Lemma NoDup_occ els : NoDup (ids els) <-> forall z, occ z els <= 1.
Proof. unfold occ. apply NoDup_count_occ. Qed.

(** With unique ids, an operation reaches at most one element. *)
Lemma reached_unique i els : NoDup (ids els) -> length (reached i els) <= 1.
Proof.
  intros Hnd. pose proof (proj1 (NoDup_occ els) Hnd i) as H.
  pose proof (occ_rm i i els). pose proof (reached_occ i els). lia.
Qed.

Lemma reached_one i els :
  NoDup (ids els) -> In i (ids els) -> exists x, reached i els = [x].
Proof.
  intros Hnd Hin. pose proof (reached_unique i els Hnd) as Hle.
  destruct (reached i els) as [|x [|y r]] eqn:E.
  - apply reached_nil in E. contradiction.
  - now exists x.
  - simpl in Hle. lia.
Qed.

(** After a deletion, no node has the id. *)
Lemma rm_absent i els : occ i (DeleteElement.rm i els) = 0.
Proof.
  induction els as [|x r IHk IHr] using forest_ind; [reflexivity|].
  rewrite rm_cons.
  destruct (String.eqb_spec (id x) i) as [E|Hne]; cbn [negb]; [exact IHr|].
  rewrite occ_cons, rm_item_id, rm_item_kids.
  destruct (string_dec (id x) i); [contradiction|lia].
Qed.

Lemma rm_NoDup i els : NoDup (ids els) -> NoDup (ids (DeleteElement.rm i els)).
Proof.
  rewrite !NoDup_occ. intros H z. specialize (H z).
  pose proof (occ_rm i z els). lia.
Qed.

(** ** Looking an element up *)

Lemma find_app {A} (f : A -> bool) (a b : list A) :
  find f (a ++ b) = match find f a with Some y => Some y | None => find f b end.
Proof.
  induction a as [|x a IH]; [reflexivity|]. simpl.
  destruct (f x); [reflexivity|exact IH].
Qed.

(** [findSelected] returns the first node in document order with the id. *)
Lemma findSelected_find sel els :
  findSelected sel els = find (fun el => String.eqb (id el) sel) (nodes els).
Proof.
  induction els as [|x r IHk IHr] using forest_ind; [reflexivity|].
  cbn [findSelected]. rewrite findSelected_item_eq, nodes_cons, subtree_kids.
  cbn [app find]. destruct (String.eqb (id x) sel); [reflexivity|].
  rewrite find_app, <- IHk, <- IHr.
  destruct (children_kids x) as [E|E]; rewrite E.
  - unfold kids. rewrite E. reflexivity.
  - reflexivity.
Qed.

Lemma findSelected_None sel els :
  findSelected sel els = None <-> ~ In sel (ids els).
Proof.
  rewrite findSelected_find. split.
  - intros H Hin. unfold ids in Hin. apply in_map_iff in Hin.
    destruct Hin as (x & Hx & Hin).
    apply (find_none _ _ H) in Hin. rewrite Hx, String.eqb_refl in Hin.
    discriminate.
  - intros H. destruct (find _ _) as [x|] eqn:E; [|reflexivity].
    apply find_some in E. destruct E as [Hin E]. apply String.eqb_eq in E.
    exfalso. apply H. unfold ids. rewrite <- E. now apply in_map.
Qed.

(** X1 -- findSelected.  The search returns the first node in document order
    whose id is the selected one; what it returns has that id and is a node of
    the forest; it returns nothing exactly when no node has the id. *)
Theorem X1_findSelected_first_in_document_order sel els :
  findSelected sel els = find (fun el => String.eqb (id el) sel) (nodes els)
  /\ (forall x, findSelected sel els = Some x ->
                id x = sel /\ In x (nodes els))
  /\ (findSelected sel els = None <-> ~ In sel (ids els)).
Proof.
  split; [apply findSelected_find|]. split; [|apply findSelected_None].
  intros x H. rewrite findSelected_find in H. apply find_some in H.
  destruct H as [Hin E]. apply String.eqb_eq in E. now split.
Qed.

(** ** Operations addressed to an id that does not occur *)

Lemma occ_cons_zero i x r :
  occ i (x :: r) = 0 -> id x <> i /\ occ i (kids x) = 0 /\ occ i r = 0.
Proof.
  rewrite occ_cons. destruct (string_dec (id x) i); [simpl; lia|].
  intros H. repeat split; [assumption|lia|lia].
Qed.

Lemma kept_item (g : list MJElement -> list MJElement) x :
  g (kids x) = kids x ->
  match children x with
  | Some cs => setChildren x (g cs)
  | None => x
  end = x.
Proof.
  intros H. destruct (children x) as [cs|] eqn:E; [|reflexivity].
  unfold kids in H. rewrite E in H. rewrite H. now apply setChildren_same.
Qed.

Lemma rm_identity i els : occ i els = 0 -> DeleteElement.rm i els = els.
Proof.
  induction els as [|x r IHk IHr] using forest_ind; [reflexivity|].
  intros H. apply occ_cons_zero in H. destruct H as (Hne & Hk & Hr).
  rewrite rm_cons. apply String.eqb_neq in Hne. rewrite Hne. cbn [negb].
  rewrite rm_item_eq, (IHr Hr). f_equal.
  apply (kept_item (DeleteElement.rm i)), IHk, Hk.
Qed.

Lemma toggle_identity i els : occ i els = 0 -> ToggleHidden.toggle i els = els.
Proof.
  induction els as [|x r IHk IHr] using forest_ind; [reflexivity|].
  intros H. apply occ_cons_zero in H. destruct H as (Hne & Hk & Hr).
  unfold ToggleHidden.toggle in *. cbn [map]. rewrite (IHr Hr). f_equal.
  apply String.eqb_neq in Hne.
  destruct x as [i0 t a c ch h l]; cbn [ToggleHidden.toggle_item id] in *.
  rewrite Hne. cbn [children].
  apply (kept_item (map (ToggleHidden.toggle_item i))
           (mkMJElement i0 t a c ch h l)), IHk, Hk.
Qed.

Lemma update_identity i lbl els :
  occ i els = 0 -> LabelChange.update i lbl els = els.
Proof.
  induction els as [|x r IHk IHr] using forest_ind; [reflexivity|].
  intros H. apply occ_cons_zero in H. destruct H as (Hne & Hk & Hr).
  unfold LabelChange.update in *. cbn [map]. rewrite (IHr Hr). f_equal.
  apply String.eqb_neq in Hne.
  destruct x as [i0 t a c ch h l]; cbn [LabelChange.update_item id] in *.
  rewrite Hne. cbn [children].
  apply (kept_item (map (LabelChange.update_item i lbl))
           (mkMJElement i0 t a c ch h l)), IHk, Hk.
Qed.

Lemma up_identity u els :
  occ (id u) els = 0 -> UpdateElement.up u els = els.
Proof.
  induction els as [|x r IHk IHr] using forest_ind; [reflexivity|].
  intros H. apply occ_cons_zero in H. destruct H as (Hne & Hk & Hr).
  unfold UpdateElement.up in *. cbn [map]. rewrite (IHr Hr). f_equal.
  apply String.eqb_neq in Hne.
  destruct x as [i0 t a c ch h l]; cbn [UpdateElement.up_item id] in *.
  rewrite Hne. cbn [children].
  apply (kept_item (map (UpdateElement.up_item u))
           (mkMJElement i0 t a c ch h l)), IHk, Hk.
Qed.

Lemma insertInto_identity c d els :
  occ c els = 0 -> Move.insertInto c d els = els.
Proof.
  induction els as [|x r IHk IHr] using forest_ind; [reflexivity|].
  intros H. apply occ_cons_zero in H. destruct H as (Hne & Hk & Hr).
  unfold Move.insertInto in *. cbn [map]. rewrite (IHr Hr). f_equal.
  apply String.eqb_neq in Hne.
  destruct x as [i0 t a c0 ch h l]; cbn [Move.insertInto_item id] in *.
  rewrite Hne. cbn [children].
  apply (kept_item (map (Move.insertInto_item c d))
           (mkMJElement i0 t a c0 ch h l)), IHk, Hk.
Qed.

(** ** Extracting the dragged element *)

Lemma last_or_app a b d : last_or (a ++ b) d = last_or b (last_or a d).
Proof.
  unfold last_or. rewrite rev_app_distr.
  destruct (rev b) as [|y rb]; [reflexivity|reflexivity].
Qed.

Lemma extract_item_eq d x dr :
  Move.extract_item d x dr =
    match children x with
    | Some cs =>
        (setChildren x (fst (Move.extract d cs dr)), snd (Move.extract d cs dr))
    | None => (x, dr)
    end.
Proof.
  destruct x as [i t a c [cs|] h l]; cbn [Move.extract_item children];
    [|reflexivity].
  unfold Move.extract.
  match goal with
  | |- context [fst (?go cs [] dr)] =>
      assert (H : forall items acc d0,
                 go items acc d0
                 = fold_left (Move.extract_step d) items (acc, d0))
  end.
  { induction items as [|y r IH]; intros acc d0; [reflexivity|].
    cbn [fold_left]. unfold Move.extract_step at 2. cbn [fst snd].
    destruct (String.eqb (id y) d); apply IH. }
  now rewrite H.
Qed.

(** The reducer of [extract] keeps what a deletion keeps, and leaves in
    [dragged] the last element it reaches. *)
Lemma extract_fold d els :
  forall acc dr,
    fold_left (Move.extract_step d) els (acc, dr)
    = ((acc ++ DeleteElement.rm d els)%list, last_or (reached d els) dr).
Proof.
  induction els as [|x r IHk IHr] using forest_ind; intros acc dr.
  - cbn. now rewrite app_nil_r.
  - cbn [fold_left]. unfold Move.extract_step at 2. cbn [fst snd].
    rewrite rm_cons, reached_cons, last_or_app.
    destruct (String.eqb (id x) d); cbn [negb].
    + rewrite IHr. reflexivity.
    + rewrite IHr, extract_item_eq, rm_item_eq.
      destruct (children_kids x) as [E|E]; rewrite E.
      * unfold kids. rewrite E. cbn [fst snd reached flat_map last_or rev].
        now rewrite <- app_assoc.
      * unfold Move.extract. rewrite IHk. cbn [fst snd app].
        now rewrite <- app_assoc.
Qed.

Lemma extract_eq d els dr :
  Move.extract d els dr = (DeleteElement.rm d els, last_or (reached d els) dr).
Proof. unfold Move.extract. now rewrite extract_fold. Qed.

Lemma last_or_None l : last_or l None = None <-> l = [].
Proof.
  unfold last_or. split.
  - intros H. destruct (rev l) eqn:E; [|discriminate].
    apply (f_equal (@rev MJElement)) in E. now rewrite rev_involutive in E.
  - now intros ->.
Qed.

(** ** Inserting the dragged element *)

Lemma insertAt_fold t pos d els :
  forall acc,
    fold_left (Move.insertAt_step t pos d) els acc
    = (acc ++ Move.insertAt t pos d els)%list.
Proof.
  unfold Move.insertAt.
  induction els as [|x r IH]; intros acc; cbn [fold_left].
  - now rewrite app_nil_r.
  - rewrite IH, (IH (Move.insertAt_step t pos d [] x)).
    unfold Move.insertAt_step.
    destruct (String.eqb (id x) t); [destruct pos|]; cbn [app];
      now rewrite <- app_assoc.
Qed.

Lemma insertAt_cons t pos d x r :
  Move.insertAt t pos d (x :: r) =
    ((if String.eqb (id x) t then
        match pos with before => [d; x] | after => [x; d] end
      else [Move.insertAt_item t pos d x]) ++ Move.insertAt t pos d r)%list.
Proof.
  unfold Move.insertAt at 1. cbn [fold_left]. rewrite insertAt_fold.
  unfold Move.insertAt_step.
  destruct (String.eqb (id x) t); [destruct pos|]; reflexivity.
Qed.

Lemma insertAt_item_eq t pos d x :
  Move.insertAt_item t pos d x =
    match children x with
    | Some cs => setChildren x (Move.insertAt t pos d cs)
    | None => x
    end.
Proof.
  destruct x as [i ty a c [cs|] h l]; cbn [Move.insertAt_item children];
    [|reflexivity].
  unfold Move.insertAt.
  match goal with
  | |- context [?go cs []] =>
      assert (H : forall items acc,
                 go items acc
                 = fold_left (Move.insertAt_step t pos d) items acc)
  end.
  { induction items as [|y r IH]; intros acc; [reflexivity|].
    cbn [fold_left]. unfold Move.insertAt_step at 2.
    destruct (String.eqb (id y) t); [destruct pos|]; apply IH. }
  now rewrite H.
Qed.

Lemma insertAt_identity t pos d els :
  occ t els = 0 -> Move.insertAt t pos d els = els.
Proof.
  induction els as [|x r IHk IHr] using forest_ind; [reflexivity|].
  intros H. apply occ_cons_zero in H. destruct H as (Hne & Hk & Hr).
  rewrite insertAt_cons, (IHr Hr). apply String.eqb_neq in Hne. rewrite Hne.
  cbn [app]. f_equal. rewrite insertAt_item_eq.
  apply (kept_item (Move.insertAt t pos d)), IHk, Hk.
Qed.

Lemma add_up_identity p el els :
  occ p els = 0 -> AddComponent.up p el els = els.
Proof.
  induction els as [|x r IHk IHr] using forest_ind; [reflexivity|].
  intros H. apply occ_cons_zero in H. destruct H as (Hne & Hk & Hr).
  unfold AddComponent.up in *. cbn [map]. rewrite (IHr Hr). f_equal.
  apply String.eqb_neq in Hne.
  destruct x as [i0 t a c0 [cs|] h l]; cbn [AddComponent.up_item id children] in *;
    [|reflexivity].
  rewrite Hne. unfold kids in *. cbn [children] in *.
  rewrite (IHk Hk). reflexivity.
Qed.

(** ** Counting ids through an insertion *)

Lemma occ_one z d : occ z [d] = (if string_dec (id d) z then 1 else 0) + occ z (kids d).
Proof. rewrite occ_cons, occ_nil. lia. Qed.

Lemma insertInto_cons c d x r :
  Move.insertInto c d (x :: r)
  = Move.insertInto_item c d x :: Move.insertInto c d r.
Proof. reflexivity. Qed.

Lemma insertInto_item_eq c d x :
  Move.insertInto_item c d x =
    if String.eqb (id x) c then setChildren x (kids x ++ [d])
    else match children x with
         | Some cs => setChildren x (Move.insertInto c d cs)
         | None => x
         end.
Proof. destruct x as [i t a c0 [cs|] h l]; reflexivity. Qed.

(** An insertion adds the ids of the dragged subtree once for every element
    it reaches. *)
Lemma occ_insertInto c d z els :
  occ z (Move.insertInto c d els)
  = occ z els + length (reached c els) * occ z [d].
Proof.
  induction els as [|x r IHk IHr] using forest_ind; [reflexivity|].
  rewrite insertInto_cons, reached_cons, length_app, occ_cons, IHr.
  rewrite insertInto_item_eq, (occ_cons z x r).
  destruct (String.eqb (id x) c).
  - rewrite id_setChildren, kids_setChildren, occ_app. cbn [length]. lia.
  - destruct (children_kids x) as [E|E]; rewrite E.
    + unfold kids. rewrite E. cbn. lia.
    + rewrite id_setChildren, kids_setChildren, IHk. lia.
Qed.

Lemma occ_insertAt t pos d z els :
  occ z (Move.insertAt t pos d els)
  = occ z els + length (reached t els) * occ z [d].
Proof.
  induction els as [|x r IHk IHr] using forest_ind; [reflexivity|].
  rewrite insertAt_cons, reached_cons, length_app, occ_app, IHr.
  rewrite (occ_cons z x r).
  destruct (String.eqb (id x) t).
  - cbn [length]. destruct pos.
    + change [d; x] with ([d] ++ [x])%list. rewrite occ_app, (occ_one z x). lia.
    + change [x; d] with ([x] ++ [d])%list. rewrite occ_app, (occ_one z x). lia.
  - rewrite occ_one, insertAt_item_eq.
    destruct (children_kids x) as [E|E]; rewrite E.
    + unfold kids. rewrite E. cbn. lia.
    + rewrite id_setChildren, kids_setChildren, IHk. lia.
Qed.

Lemma Permutation_occ a b :
  (forall z, occ z a = occ z b) -> Permutation (ids a) (ids b).
Proof. intros H. apply (Permutation_count_occ string_dec). exact H. Qed.

(** The first element an operation reaches is the one [findSelected] finds. *)
Lemma reached_first i els : hd_error (reached i els) = findSelected i els.
Proof.
  induction els as [|x r IHk IHr] using forest_ind; [reflexivity|].
  rewrite reached_cons. cbn [findSelected]. rewrite findSelected_item_eq.
  destruct (String.eqb (id x) i); [reflexivity|].
  rewrite <- IHr.
  destruct (children_kids x) as [E|E]; rewrite E.
  - unfold kids. rewrite E. reflexivity.
  - rewrite <- IHk. destruct (reached i (kids x)); reflexivity.
Qed.

Lemma last_or_single x d : last_or [x] d = Some x.
Proof. reflexivity. Qed.

(** The state of a move: what is extracted and where it goes. *)
Lemma handleMoveInto_eq d c els sel :
  Move.handleMoveInto d c (mkAppState els sel) =
    match last_or (reached d els) None with
    | None => mkAppState els sel
    | Some x => mkAppState (Move.insertInto c x (DeleteElement.rm d els)) sel
    end.
Proof.
  unfold Move.handleMoveInto. cbn [elements selectedId]. rewrite extract_eq.
  reflexivity.
Qed.

Lemma handleReorder_eq d t pos els sel :
  Move.handleReorder d t pos (mkAppState els sel) =
    match last_or (reached d els) None with
    | None => mkAppState els sel
    | Some x => mkAppState (Move.insertAt t pos x (DeleteElement.rm d els)) sel
    end.
Proof.
  unfold Move.handleReorder. cbn [elements selectedId]. rewrite extract_eq.
  reflexivity.
Qed.

(** ** Deleting, updating and looking up *)

(** X2 -- handleDeleteElement.  After a deletion no node of the forest has
    the id, at any depth, so the search for it finds nothing and a second
    deletion changes nothing; the ids that go are those of the elements the
    deletion reaches, with the ids of their subtrees, and no other. *)
Theorem X2_delete_removes_the_id i els :
  Forall (fun el => id el <> i) (nodes (DeleteElement.rm i els))
  /\ findSelected i (DeleteElement.rm i els) = None
  /\ DeleteElement.rm i (DeleteElement.rm i els) = DeleteElement.rm i els
  /\ (forall z, occ z els
                = occ z (DeleteElement.rm i els) + occ z (reached i els)).
Proof.
  pose proof (rm_absent i els) as H0.
  assert (Hn : ~ In i (ids (DeleteElement.rm i els))) by now apply occ_zero.
  split; [|split; [|split]].
  - apply Forall_forall. intros el Hin E. apply Hn. unfold ids.
    apply in_map_iff. exists el. now split.
  - now apply findSelected_None.
  - now apply rm_identity.
  - intros z. apply occ_rm.
Qed.

(** X3 -- Operations addressed to an absent id.  When no node has the id, a
    deletion, a toggle of the hidden flag, a label change, an update, an
    insertion of a new component under that parent and both kinds of move
    leave the forest as it is. *)
Theorem X3_absent_id_changes_nothing i els :
  ~ In i (ids els) ->
  DeleteElement.rm i els = els
  /\ ToggleHidden.toggle i els = els
  /\ (forall lbl, LabelChange.update i lbl els = els)
  /\ (forall u, id u = i -> UpdateElement.up u els = els)
  /\ (forall el, AddComponent.up i el els = els)
  /\ (forall c sel,
         Move.handleMoveInto i c (mkAppState els sel) = mkAppState els sel)
  /\ (forall t pos sel,
         Move.handleReorder i t pos (mkAppState els sel) = mkAppState els sel).
Proof.
  intros Hn. pose proof (proj2 (reached_nil i els) Hn) as Hr.
  apply occ_zero in Hn.
  split; [now apply rm_identity|]. split; [now apply toggle_identity|].
  split; [intros lbl; now apply update_identity|].
  split; [intros u <-; now apply up_identity|].
  split; [intros el; now apply add_up_identity|].
  split.
  - intros c sel. now rewrite handleMoveInto_eq, Hr.
  - intros t pos sel. now rewrite handleReorder_eq, Hr.
Qed.

Lemma X3_absent_id_changes_nothing_witness :
  ~ In "zz" (ids sampleEditorTree)
  /\ DeleteElement.rm "zz" sampleEditorTree = sampleEditorTree
  /\ Move.handleMoveInto "zz" "c2" (mkAppState sampleEditorTree None)
     = mkAppState sampleEditorTree None.
Proof.
  assert (Hn : ~ In "zz" (ids sampleEditorTree)).
  { cbn. intuition discriminate. }
  destruct (X3_absent_id_changes_nothing "zz" sampleEditorTree Hn)
    as (Hrm & _ & _ & _ & _ & Hmove & _).
  split; [exact Hn|]. split; [exact Hrm|]. apply Hmove.
Defined.

Lemma up_cons u x r :
  UpdateElement.up u (x :: r) = UpdateElement.up_item u x :: UpdateElement.up u r.
Proof. reflexivity. Qed.

Lemma up_item_eq u x :
  UpdateElement.up_item u x =
    if String.eqb (id x) (id u) then u
    else match children x with
         | Some cs => setChildren x (UpdateElement.up u cs)
         | None => x
         end.
Proof. destruct x as [i t a c [cs|] h l]; reflexivity. Qed.

Lemma findSelected_up u els :
  occ (id u) els > 0 -> findSelected (id u) (UpdateElement.up u els) = Some u.
Proof.
  induction els as [|x r IHk IHr] using forest_ind; [cbn; lia|].
  intros H. rewrite up_cons. cbn [findSelected]. rewrite up_item_eq.
  destruct (String.eqb_spec (id x) (id u)) as [E|Hne].
  - rewrite findSelected_item_eq, String.eqb_refl. reflexivity.
  - rewrite occ_cons in H. destruct (string_dec (id x) (id u)); [contradiction|].
    apply String.eqb_neq in Hne.
    destruct (children_kids x) as [E|E]; rewrite E.
    + rewrite findSelected_item_eq, Hne, E.
      apply IHr. unfold kids in H. rewrite E in H. cbn in H. lia.
    + rewrite findSelected_item_eq, id_setChildren, Hne.
      cbn [children setChildren].
      destruct (Nat.eq_dec (occ (id u) (kids x)) 0) as [Hz|Hz].
      * rewrite (up_identity u _ Hz).
        rewrite (proj2 (findSelected_None (id u) (kids x)));
          [apply IHr; lia|now apply occ_zero].
      * rewrite IHk; [reflexivity|lia].
Qed.

(** X4 -- handleUpdateElement.  When some node has the id of the updated
    element, the search for that id in the updated forest returns the updated
    element itself. *)
Theorem X4_update_then_find u els :
  In (id u) (ids els) ->
  findSelected (id u) (UpdateElement.up u els) = Some u.
Proof. intros H. apply findSelected_up. now apply occ_In. Qed.

Lemma X4_update_then_find_witness :
  In (id (sampleLeaf "t2" "mj-button" None)) (ids sampleEditorTree)
  /\ findSelected "t2"
       (UpdateElement.up (sampleLeaf "t2" "mj-button" None) sampleEditorTree)
     = Some (sampleLeaf "t2" "mj-button" None).
Proof.
  assert (H : In (id (sampleLeaf "t2" "mj-button" None)) (ids sampleEditorTree)).
  { cbn. tauto. }
  split; [exact H|].
  apply (X4_update_then_find (sampleLeaf "t2" "mj-button" None) sampleEditorTree H).
Defined.

(** ** Moving an element *)

Lemma findSelected_insertInto c d els :
  findSelected c (Move.insertInto c d els)
  = option_map (fun y => setChildren y (kids y ++ [d])) (findSelected c els).
Proof.
  induction els as [|x r IHk IHr] using forest_ind; [reflexivity|].
  rewrite insertInto_cons. cbn [findSelected].
  rewrite insertInto_item_eq, (findSelected_item_eq c x).
  destruct (String.eqb (id x) c) eqn:Hx.
  - rewrite findSelected_item_eq, id_setChildren, Hx. reflexivity.
  - destruct (children_kids x) as [E|E]; rewrite E.
    + rewrite findSelected_item_eq, Hx, E. exact IHr.
    + rewrite findSelected_item_eq, id_setChildren, Hx.
      cbn [children setChildren]. rewrite IHk, IHr.
      destruct (findSelected c (kids x)); reflexivity.
Qed.

Lemma reached_single_find i els x :
  reached i els = [x] -> findSelected i els = Some x.
Proof. intros H. rewrite <- reached_first, H. reflexivity. Qed.

Lemma occ_reached_single i els x z :
  reached i els = [x] -> occ z els = occ z (DeleteElement.rm i els) + occ z [x].
Proof. intros H. now rewrite (occ_rm i z els), H. Qed.

(** What a move does to the ids when every id occurs once, the dragged
    element exists and the target is left after its extraction. *)
Lemma moved_ids (ins : MJElement -> list MJElement -> list MJElement) d t els :
  (forall x z l, occ z (ins x l) = occ z l + length (reached t l) * occ z [x]) ->
  NoDup (ids els) -> In d (ids els) -> In t (ids (DeleteElement.rm d els)) ->
  exists x,
    findSelected d els = Some x
    /\ last_or (reached d els) None = Some x
    /\ Permutation (ids (ins x (DeleteElement.rm d els))) (ids els)
    /\ NoDup (ids (ins x (DeleteElement.rm d els))).
Proof.
  intros Hins Hnd Hd Ht.
  destruct (reached_one d els Hnd Hd) as [x Hx]. exists x.
  destruct (reached_one t _ (rm_NoDup d els Hnd) Ht) as [y Hy].
  assert (Hocc : forall z, occ z (ins x (DeleteElement.rm d els)) = occ z els).
  { intros z. rewrite Hins, Hy, (occ_reached_single d els x z Hx).
    cbn [length]. lia. }
  split; [now apply reached_single_find|]. split; [now rewrite Hx|].
  split; [now apply Permutation_occ|].
  apply NoDup_occ. intros z. rewrite Hocc. now apply NoDup_occ.
Qed.

(** X5 -- handleMoveInto.  In a forest where every id occurs once, moving an
    existing element into a target that is left once the element is taken out
    keeps the ids of the forest, each still occurring once: nothing is lost
    and nothing is doubled.  The moved element is the one the search finds,
    it becomes the last child of the target, and the selection is kept. *)
Theorem X5_move_into_keeps_every_element d c els sel :
  NoDup (ids els) ->
  In d (ids els) ->
  In c (ids (DeleteElement.rm d els)) ->
  exists x y,
    findSelected d els = Some x
    /\ findSelected c (DeleteElement.rm d els) = Some y
    /\ Move.handleMoveInto d c (mkAppState els sel)
       = mkAppState (Move.insertInto c x (DeleteElement.rm d els)) sel
    /\ findSelected c (elements (Move.handleMoveInto d c (mkAppState els sel)))
       = Some (setChildren y (kids y ++ [x]))
    /\ Permutation
         (ids (elements (Move.handleMoveInto d c (mkAppState els sel))))
         (ids els)
    /\ NoDup (ids (elements (Move.handleMoveInto d c (mkAppState els sel)))).
Proof.
  intros Hnd Hd Hc.
  destruct (moved_ids (Move.insertInto c) d c els
              (fun x z l => occ_insertInto c x z l) Hnd Hd Hc)
    as (x & Hfind & Hlast & Hperm & Hnd').
  destruct (findSelected c (DeleteElement.rm d els)) as [y|] eqn:Hy;
    [|apply findSelected_None in Hy; contradiction].
  exists x, y. rewrite handleMoveInto_eq, Hlast. cbn [elements].
  split; [exact Hfind|]. split; [reflexivity|]. split; [reflexivity|].
  split; [now rewrite findSelected_insertInto, Hy|]. now split.
Qed.

Lemma X5_move_into_keeps_every_element_witness :
  NoDup (ids sampleEditorTree)
  /\ In "t3" (ids sampleEditorTree)
  /\ In "c2" (ids (DeleteElement.rm "t3" sampleEditorTree))
  /\ ids (elements (Move.handleMoveInto "t3" "c2"
                      (mkAppState sampleEditorTree (Some "t3"))))
     = ["s1"; "c1"; "t1"; "t2"; "c2"; "t3"]
  /\ exists x y,
       findSelected "t3" sampleEditorTree = Some x
       /\ findSelected "c2" (DeleteElement.rm "t3" sampleEditorTree) = Some y
       /\ Move.handleMoveInto "t3" "c2" (mkAppState sampleEditorTree (Some "t3"))
          = mkAppState
              (Move.insertInto "c2" x (DeleteElement.rm "t3" sampleEditorTree))
              (Some "t3")
       /\ findSelected "c2"
            (elements (Move.handleMoveInto "t3" "c2"
                         (mkAppState sampleEditorTree (Some "t3"))))
          = Some (setChildren y (kids y ++ [x]))
       /\ Permutation
            (ids (elements (Move.handleMoveInto "t3" "c2"
                              (mkAppState sampleEditorTree (Some "t3")))))
            (ids sampleEditorTree)
       /\ NoDup (ids (elements (Move.handleMoveInto "t3" "c2"
                                  (mkAppState sampleEditorTree (Some "t3"))))).
Proof.
  assert (Hnd : NoDup (ids sampleEditorTree)).
  { cbn. repeat constructor; cbn; intuition discriminate. }
  assert (Hd : In "t3" (ids sampleEditorTree)) by (cbn; tauto).
  assert (Hc : In "c2" (ids (DeleteElement.rm "t3" sampleEditorTree)))
    by (cbn; tauto).
  split; [exact Hnd|]. split; [exact Hd|]. split; [exact Hc|].
  split; [reflexivity|].
  exact (X5_move_into_keeps_every_element "t3" "c2" sampleEditorTree
           (Some "t3") Hnd Hd Hc).
Defined.

(** X6 -- handleReorder.  In a forest where every id occurs once, dropping
    an existing element before or after a target that is left once the
    element is taken out keeps the ids of the forest, each still occurring
    once; the moved element is the one the search finds, and the selection is
    kept. *)
Theorem X6_reorder_keeps_every_element d t pos els sel :
  NoDup (ids els) ->
  In d (ids els) ->
  In t (ids (DeleteElement.rm d els)) ->
  exists x,
    findSelected d els = Some x
    /\ Move.handleReorder d t pos (mkAppState els sel)
       = mkAppState (Move.insertAt t pos x (DeleteElement.rm d els)) sel
    /\ Permutation
         (ids (elements (Move.handleReorder d t pos (mkAppState els sel))))
         (ids els)
    /\ NoDup (ids (elements (Move.handleReorder d t pos (mkAppState els sel)))).
Proof.
  intros Hnd Hd Ht.
  destruct (moved_ids (Move.insertAt t pos) d t els
              (fun x z l => occ_insertAt t pos x z l) Hnd Hd Ht)
    as (x & Hfind & Hlast & Hperm & Hnd').
  exists x. rewrite handleReorder_eq, Hlast. cbn [elements].
  split; [exact Hfind|]. split; [reflexivity|]. now split.
Qed.

Lemma X6_reorder_keeps_every_element_witness :
  NoDup (ids sampleEditorTree)
  /\ In "t2" (ids sampleEditorTree)
  /\ In "t1" (ids (DeleteElement.rm "t2" sampleEditorTree))
  /\ ids (elements (Move.handleReorder "t2" "t1" before
                      (mkAppState sampleEditorTree None)))
     = ["s1"; "c1"; "t2"; "t1"; "c2"; "t3"]
  /\ ids (elements (Move.handleReorder "t2" "s1" after
                      (mkAppState sampleEditorTree None)))
     = ["s1"; "c1"; "t1"; "c2"; "t2"; "t3"]
  /\ exists x,
       findSelected "t2" sampleEditorTree = Some x
       /\ Move.handleReorder "t2" "t1" before (mkAppState sampleEditorTree None)
          = mkAppState
              (Move.insertAt "t1" before x
                 (DeleteElement.rm "t2" sampleEditorTree))
              None
       /\ Permutation
            (ids (elements (Move.handleReorder "t2" "t1" before
                              (mkAppState sampleEditorTree None))))
            (ids sampleEditorTree)
       /\ NoDup (ids (elements (Move.handleReorder "t2" "t1" before
                                  (mkAppState sampleEditorTree None)))).
Proof.
  assert (Hnd : NoDup (ids sampleEditorTree)).
  { cbn. repeat constructor; cbn; intuition discriminate. }
  assert (Hd : In "t2" (ids sampleEditorTree)) by (cbn; tauto).
  assert (Ht : In "t1" (ids (DeleteElement.rm "t2" sampleEditorTree)))
    by (cbn; tauto).
  split; [exact Hnd|]. split; [exact Hd|]. split; [exact Ht|].
  split; [reflexivity|]. split; [reflexivity|].
  exact (X6_reorder_keeps_every_element "t2" "t1" before sampleEditorTree
           None Hnd Hd Ht).
Defined.

(** X7 -- A move whose target is not left.  When the target id does not
    occur once the dragged element is taken out, both kinds of move return
    the forest without the dragged element: the element and its subtree are
    deleted, as by [handleDeleteElement].  That is the case when the target
    is the dragged element itself, and, every id occurring once, when the
    target lies inside the dragged element. *)
Theorem X7_move_to_a_missing_target_deletes d els sel :
  (forall c, ~ In c (ids (DeleteElement.rm d els)) ->
             Move.handleMoveInto d c (mkAppState els sel)
             = mkAppState (DeleteElement.rm d els) sel
             /\ forall pos,
                 Move.handleReorder d c pos (mkAppState els sel)
                 = mkAppState (DeleteElement.rm d els) sel)
  /\ Move.handleMoveInto d d (mkAppState els sel)
     = mkAppState (DeleteElement.rm d els) sel
  /\ (forall x c, NoDup (ids els) -> findSelected d els = Some x ->
                  In c (ids [x]) ->
                  ~ In c (ids (DeleteElement.rm d els))).
Proof.
  assert (H : forall c, ~ In c (ids (DeleteElement.rm d els)) ->
                        Move.handleMoveInto d c (mkAppState els sel)
                        = mkAppState (DeleteElement.rm d els) sel
                        /\ forall pos,
                            Move.handleReorder d c pos (mkAppState els sel)
                            = mkAppState (DeleteElement.rm d els) sel).
  { intros c Hc. apply occ_zero in Hc.
    rewrite handleMoveInto_eq.
    destruct (last_or (reached d els) None) as [x|] eqn:Hl.
    - rewrite (insertInto_identity c x _ Hc). split; [reflexivity|].
      intros pos. rewrite handleReorder_eq, Hl.
      now rewrite (insertAt_identity c pos x _ Hc).
    - apply last_or_None in Hl. apply reached_nil in Hl.
      apply occ_zero in Hl. rewrite (rm_identity d els Hl).
      split; [reflexivity|]. intros pos. rewrite handleReorder_eq.
      apply occ_zero, reached_nil in Hl. now rewrite Hl. }
  split; [exact H|]. split.
  - apply H. apply occ_zero, rm_absent.
  - intros x c Hnd Hx Hc. apply occ_zero.
    assert (Hd : In d (ids els)).
    { destruct (findSelected_None d els) as [_ Hn].
      destruct (in_dec string_dec d (ids els)) as [Hin|Hin]; [exact Hin|].
      rewrite (Hn Hin) in Hx. discriminate. }
    destruct (reached_one d els Hnd Hd) as [y Hy].
    rewrite (reached_single_find d els y Hy) in Hx. injection Hx as ->.
    pose proof (occ_reached_single d els x c Hy) as Ho.
    pose proof (proj1 (NoDup_occ els) Hnd c) as Hle.
    apply occ_In in Hc. lia.
Qed.

(** ** Adding a component *)

Lemma add_up_cons p el x r :
  AddComponent.up p el (x :: r)
  = AddComponent.up_item p el x :: AddComponent.up p el r.
Proof. reflexivity. Qed.

Lemma add_up_item_eq p el x :
  AddComponent.up_item p el x =
    match children x with
    | Some cs =>
        if String.eqb (id x) p then setChildren x (cs ++ [el])
        else setChildren x (AddComponent.up p el cs)
    | None => x
    end.
Proof. destruct x as [i t a c [cs|] h l]; reflexivity. Qed.

(** The reached elements that have a children array. *)
Lemma occ_add_up p el z els :
  occ z (AddComponent.up p el els)
  = occ z els
    + length (filter (fun y => match children y with Some _ => true | None => false end)
                (reached p els)) * occ z [el].
Proof.
  induction els as [|x r IHk IHr] using forest_ind; [reflexivity|].
  rewrite add_up_cons, reached_cons, filter_app, length_app, occ_cons, IHr.
  rewrite add_up_item_eq, (occ_cons z x r).
  destruct (children x) as [cs|] eqn:E.
  - assert (Hk : kids x = cs) by (unfold kids; now rewrite E).
    destruct (String.eqb (id x) p).
    + rewrite id_setChildren, kids_setChildren, occ_app, Hk.
      cbn [filter]. rewrite E. cbn [length]. lia.
    + rewrite id_setChildren, kids_setChildren, <- Hk, IHk. lia.
  - assert (Hk : kids x = []) by (unfold kids; now rewrite E).
    destruct (String.eqb (id x) p).
    + cbn [filter]. rewrite E. cbn [length]. lia.
    + rewrite Hk. cbn. lia.
Qed.

Lemma findSelected_add_up p el els :
  findSelected p (AddComponent.up p el els)
  = option_map (fun y => match children y with
                         | Some cs => setChildren y (cs ++ [el])
                         | None => y
                         end)
      (findSelected p els).
Proof.
  induction els as [|x r IHk IHr] using forest_ind; [reflexivity|].
  rewrite add_up_cons. cbn [findSelected].
  rewrite add_up_item_eq, (findSelected_item_eq p x).
  destruct (children x) as [cs|] eqn:E.
  - assert (Hk : kids x = cs) by (unfold kids; now rewrite E).
    destruct (String.eqb (id x) p) eqn:Hx.
    + rewrite findSelected_item_eq, id_setChildren, Hx. cbn. now rewrite E.
    + rewrite findSelected_item_eq, id_setChildren, Hx.
      cbn [children setChildren]. rewrite <- Hk, IHk, IHr.
      destruct (findSelected p (kids x)); reflexivity.
  - rewrite findSelected_item_eq, E.
    destruct (String.eqb (id x) p); [cbn; now rewrite E|exact IHr].
Qed.

Lemma X7_move_to_a_missing_target_deletes_witness :
  NoDup (ids sampleEditorTree)
  /\ findSelected "s1" sampleEditorTree = Some sampleSection
  /\ In "c1" (ids [sampleSection])
  /\ Move.handleMoveInto "s1" "c1" (mkAppState sampleEditorTree None)
     = mkAppState [sampleLeaf "t3" "mj-text" None] None.
Proof.
  assert (Hnd : NoDup (ids sampleEditorTree)).
  { cbn. repeat constructor; cbn; intuition discriminate. }
  assert (Hf : findSelected "s1" sampleEditorTree = Some sampleSection)
    by reflexivity.
  assert (Hc : In "c1" (ids [sampleSection])) by (cbn; tauto).
  destruct (X7_move_to_a_missing_target_deletes "s1" sampleEditorTree None)
    as (Hmiss & _ & Hinside).
  split; [exact Hnd|]. split; [exact Hf|]. split; [exact Hc|].
  rewrite (proj1 (Hmiss "c1" (Hinside sampleSection "c1" Hnd Hf Hc))).
  reflexivity.
Defined.

Lemma findSelected_Some sel els x :
  findSelected sel els = Some x -> id x = sel /\ In x (nodes els).
Proof.
  intros H. rewrite findSelected_find in H. apply find_some in H.
  destruct H as [Hin E]. apply String.eqb_eq in E. now split.
Qed.

Lemma findSelected_app sel a b :
  findSelected sel (a ++ b)
  = match findSelected sel a with
    | Some x => Some x
    | None => findSelected sel b
    end.
Proof.
  induction a as [|x a IH]; [reflexivity|]. cbn [app findSelected].
  destruct (findSelected_item sel x); [reflexivity|exact IH].
Qed.

Lemma newElement_kids t config newId :
  kids (AddComponent.newElement t config newId) = [].
Proof. unfold AddComponent.newElement, kids. cbn. now destruct (isContainer config). Qed.

Lemma newElement_ids t config newId :
  ids [AddComponent.newElement t config newId] = [newId].
Proof. rewrite ids_cons, newElement_kids. reflexivity. Qed.

Lemma findSelected_new t config newId :
  findSelected newId [AddComponent.newElement t config newId]
  = Some (AddComponent.newElement t config newId).
Proof.
  cbn [findSelected]. rewrite findSelected_item_eq. cbn [AddComponent.newElement id].
  now rewrite String.eqb_refl.
Qed.

(** X8 -- handleAddComponent at top level.  For a type the registry knows and
    a new id that is not empty and not yet in the forest, the new element is
    appended after the top-level elements, its id is the one id added, it
    becomes the selection, and the selected element is the new element.  Ids
    that occurred once still do. *)
Theorem X8_add_at_top_level reg t config newId els sel :
  find (fun c => String.eqb (c_type c) t) reg = Some config ->
  newId <> "" ->
  ~ In newId (ids els) ->
  AddComponent.handleAddComponent reg t None newId (mkAppState els sel)
  = mkAppState (els ++ [AddComponent.newElement t config newId]) (Some newId)
  /\ ids (els ++ [AddComponent.newElement t config newId])
     = (ids els ++ [newId])%list
  /\ selectedElement
       (AddComponent.handleAddComponent reg t None newId (mkAppState els sel))
     = Some (AddComponent.newElement t config newId)
  /\ (NoDup (ids els) ->
      NoDup (ids (els ++ [AddComponent.newElement t config newId]))).
Proof.
  intros Hfind Hne Hfresh.
  assert (Hst : AddComponent.handleAddComponent reg t None newId
                  (mkAppState els sel)
                = mkAppState (els ++ [AddComponent.newElement t config newId])
                    (Some newId)).
  { unfold AddComponent.handleAddComponent. now rewrite Hfind. }
  assert (Hids : ids (els ++ [AddComponent.newElement t config newId])
                 = (ids els ++ [newId])%list).
  { now rewrite ids_app, newElement_ids. }
  split; [exact Hst|]. split; [exact Hids|]. split.
  - rewrite Hst. unfold selectedElement. cbn [selectedId elements].
    apply truthy_true in Hne. rewrite Hne, findSelected_app.
    rewrite (proj2 (findSelected_None newId els) Hfresh).
    apply findSelected_new.
  - intros Hnd. rewrite Hids. apply NoDup_app; [exact Hnd|repeat constructor; intros []|].
    intros a Ha [<-|[]]. exact (Hfresh Ha).
Qed.

Lemma X8_add_at_top_level_witness :
  find (fun c => String.eqb (c_type c) "mj-text") sampleEditorRegistry
  = Some (mkComponentDef "mj-text" [("color", "#000"); ("font-family", "Inter")]
            (Some "Text") false)
  /\ ~ In "n1" (ids sampleEditorTree)
  /\ ids (elements (AddComponent.handleAddComponent sampleEditorRegistry
                      "mj-text" None "n1" (mkAppState sampleEditorTree None)))
     = ["s1"; "c1"; "t1"; "t2"; "c2"; "t3"; "n1"]
  /\ selectedElement
       (AddComponent.handleAddComponent sampleEditorRegistry "mj-text" None
          "n1" (mkAppState sampleEditorTree None))
     = Some (mkMJElement "n1" "mj-text"
               [("color", "#000"); ("font-family", "Inter")] (Some "Text")
               None None None).
Proof.
  assert (Hfresh : ~ In "n1" (ids sampleEditorTree)).
  { cbn. intuition discriminate. }
  assert (Hne : "n1" <> "") by discriminate.
  destruct (X8_add_at_top_level sampleEditorRegistry "mj-text" _ "n1"
              sampleEditorTree None eq_refl Hne Hfresh)
    as (_ & _ & Hsel & _).
  split; [reflexivity|]. split; [exact Hfresh|]. split; [reflexivity|].
  rewrite Hsel. reflexivity.
Defined.

Lemma NoDup_ids_inj els a b :
  NoDup (ids els) -> In a (nodes els) -> In b (nodes els) -> id a = id b -> a = b.
Proof.
  unfold ids. induction (nodes els) as [|x l IH]; [intros _ []|].
  cbn [map]. intros Hnd Ha Hb E. apply NoDup_cons_iff in Hnd.
  destruct Hnd as [Hx Hnd].
  destruct Ha as [<-|Ha], Hb as [<-|Hb].
  - reflexivity.
  - exfalso. apply Hx. rewrite E. now apply in_map.
  - exfalso. apply Hx. rewrite <- E. now apply in_map.
  - now apply IH.
Qed.

(** X9 -- handleAddComponent into a container.  In a forest where every id
    occurs once, for a type the registry knows, a new id that is not empty and
    not in the forest, and a parent that the search finds and that has a
    children array, the new element becomes the last child of that parent;
    the ids of the forest are the former ones and the new one, each occurring
    once, and the selected element is the new element. *)
Theorem X9_add_into_container reg t config newId p y cs els sel :
  find (fun c => String.eqb (c_type c) t) reg = Some config ->
  newId <> "" ->
  ~ In newId (ids els) ->
  NoDup (ids els) ->
  p <> "" ->
  findSelected p els = Some y ->
  children y = Some cs ->
  AddComponent.handleAddComponent reg t (Some p) newId (mkAppState els sel)
  = mkAppState
      (AddComponent.up p (AddComponent.newElement t config newId) els)
      (Some newId)
  /\ findSelected p
       (AddComponent.up p (AddComponent.newElement t config newId) els)
     = Some (setChildren y (cs ++ [AddComponent.newElement t config newId]))
  /\ Permutation
       (ids (AddComponent.up p (AddComponent.newElement t config newId) els))
       (newId :: ids els)
  /\ NoDup
       (ids (AddComponent.up p (AddComponent.newElement t config newId) els))
  /\ selectedElement
       (AddComponent.handleAddComponent reg t (Some p) newId
          (mkAppState els sel))
     = Some (AddComponent.newElement t config newId).
Proof.
  intros Hfind Hne Hfresh Hnd Hp Hy Hcs.
  set (el := AddComponent.newElement t config newId).
  assert (Hst : AddComponent.handleAddComponent reg t (Some p) newId
                  (mkAppState els sel)
                = mkAppState (AddComponent.up p el els) (Some newId)).
  { unfold AddComponent.handleAddComponent. rewrite Hfind.
    apply truthy_true in Hp. now rewrite Hp. }
  assert (Hfp : findSelected p (AddComponent.up p el els)
                = Some (setChildren y (cs ++ [el]))).
  { rewrite findSelected_add_up, Hy. cbn. now rewrite Hcs. }
  assert (Hin : In p (ids els)).
  { destruct (in_dec string_dec p (ids els)) as [H|H]; [exact H|].
    apply findSelected_None in H. rewrite H in Hy. discriminate. }
  destruct (reached_one p els Hnd Hin) as [y' Hy'].
  pose proof (reached_single_find p els y' Hy') as Hy2.
  rewrite Hy in Hy2. injection Hy2 as <-.
  assert (Hocc : forall z, occ z (AddComponent.up p el els)
                           = occ z [el] + occ z els).
  { intros z. rewrite occ_add_up, Hy'. cbn [filter]. rewrite Hcs.
    cbn [length]. lia. }
  assert (Hocc' : forall z, occ z (AddComponent.up p el els)
                            = count_occ string_dec (newId :: ids els) z).
  { intros z. rewrite Hocc. unfold occ at 1. unfold el.
    rewrite newElement_ids. cbn [count_occ].
    destruct (string_dec newId z); unfold occ; lia. }
  assert (Hnd' : NoDup (ids (AddComponent.up p el els))).
  { apply NoDup_occ. intros z. rewrite Hocc'.
    apply (proj1 (NoDup_count_occ string_dec (newId :: ids els))).
    constructor; assumption. }
  split; [exact Hst|]. split; [exact Hfp|]. split; [|split; [exact Hnd'|]].
  - apply (Permutation_count_occ string_dec). exact Hocc'.
  - rewrite Hst. unfold selectedElement. cbn [selectedId elements].
    apply truthy_true in Hne. rewrite Hne.
    destruct (findSelected newId (AddComponent.up p el els)) as [x|] eqn:Hx.
    + f_equal.
      destruct (findSelected_Some newId (AddComponent.up p el els) x Hx)
        as [Hid Hxin].
      apply (NoDup_ids_inj (AddComponent.up p el els)); auto.
      * destruct (findSelected_Some p (AddComponent.up p el els) _ Hfp)
          as [_ Hpin].
        apply (kids_In_nodes _ el _ Hpin). rewrite kids_setChildren.
        apply in_or_app. right. now left.
    + exfalso. apply findSelected_None in Hx. apply Hx.
      apply occ_In. rewrite Hocc. unfold occ at 1. unfold el.
      rewrite newElement_ids. cbn [count_occ].
      destruct (string_dec newId newId); [lia|contradiction].
Qed.

Lemma X9_add_into_container_witness :
  NoDup (ids sampleEditorTree)
  /\ findSelected "c2" sampleEditorTree = Some sampleColumn2
  /\ ids (elements (AddComponent.handleAddComponent sampleEditorRegistry
                      "mj-text" (Some "c2") "n1"
                      (mkAppState sampleEditorTree None)))
     = ["s1"; "c1"; "t1"; "t2"; "c2"; "n1"; "t3"]
  /\ selectedElement
       (AddComponent.handleAddComponent sampleEditorRegistry "mj-text"
          (Some "c2") "n1" (mkAppState sampleEditorTree None))
     = Some (mkMJElement "n1" "mj-text"
               [("color", "#000"); ("font-family", "Inter")] (Some "Text")
               None None None).
Proof.
  assert (Hnd : NoDup (ids sampleEditorTree)).
  { cbn. repeat constructor; cbn; intuition discriminate. }
  assert (Hfresh : ~ In "n1" (ids sampleEditorTree)).
  { cbn. intuition discriminate. }
  assert (Hn : "n1" <> "") by discriminate.
  assert (Hp : "c2" <> "") by discriminate.
  destruct (X9_add_into_container sampleEditorRegistry "mj-text" _ "n1" "c2"
              sampleColumn2 [] sampleEditorTree None
              eq_refl Hn Hfresh Hnd Hp eq_refl eq_refl)
    as (_ & _ & _ & _ & Hsel).
  split; [exact Hnd|]. split; [reflexivity|]. split; [reflexivity|].
  rewrite Hsel. reflexivity.
Defined.

Lemma add_up_leaf p el els :
  (forall n, In n (nodes els) -> id n = p -> children n = None) ->
  AddComponent.up p el els = els.
Proof.
  induction els as [|x r IHk IHr] using forest_ind; [reflexivity|].
  intros H. rewrite add_up_cons, add_up_item_eq.
  assert (Hr : forall n, In n (nodes r) -> id n = p -> children n = None).
  { intros n Hn. apply H. rewrite nodes_cons. apply in_or_app. now right. }
  assert (Hk : forall n, In n (nodes (kids x)) -> id n = p -> children n = None).
  { intros n Hn. apply H. rewrite nodes_cons, subtree_kids.
    right. apply in_or_app. now left. }
  rewrite (IHr Hr). f_equal.
  destruct (children x) as [cs|] eqn:E; [|reflexivity].
  destruct (String.eqb_spec (id x) p) as [Ex|_].
  - assert (Hx : In x (nodes (x :: r))).
    { rewrite nodes_cons, subtree_kids. now left. }
    rewrite (H x Hx Ex) in E. discriminate.
  - assert (Hc : kids x = cs) by (unfold kids; now rewrite E).
    rewrite <- Hc, (IHk Hk), Hc. now apply setChildren_same.
Qed.

(** X10 -- handleAddComponent under a parent without children.  When every
    node with the parent id has no children array (none has the id, or it is
    a leaf), the forest is left as it is: the new element is not added.  The
    selection is set to its id all the same, so, the id being new, no element
    is selected. *)
Theorem X10_add_under_a_leaf_is_lost reg t config newId p els sel :
  find (fun c => String.eqb (c_type c) t) reg = Some config ->
  p <> "" ->
  ~ In newId (ids els) ->
  (forall n, In n (nodes els) -> id n = p -> children n = None) ->
  AddComponent.handleAddComponent reg t (Some p) newId (mkAppState els sel)
  = mkAppState els (Some newId)
  /\ selectedElement
       (AddComponent.handleAddComponent reg t (Some p) newId
          (mkAppState els sel))
     = None.
Proof.
  intros Hfind Hp Hfresh Hleaf.
  assert (Hst : AddComponent.handleAddComponent reg t (Some p) newId
                  (mkAppState els sel)
                = mkAppState els (Some newId)).
  { unfold AddComponent.handleAddComponent. rewrite Hfind.
    apply truthy_true in Hp. rewrite Hp. cbn [elements].
    now rewrite add_up_leaf. }
  split; [exact Hst|]. rewrite Hst. unfold selectedElement.
  cbn [selectedId elements].
  rewrite (proj2 (findSelected_None newId els) Hfresh).
  now destruct (JS.truthy newId).
Qed.

Lemma X10_add_under_a_leaf_is_lost_witness :
  (forall n, In n (nodes sampleEditorTree) -> id n = "t3" -> children n = None)
  /\ AddComponent.handleAddComponent sampleEditorRegistry "mj-text"
       (Some "t3") "n1" (mkAppState sampleEditorTree None)
     = mkAppState sampleEditorTree (Some "n1")
  /\ selectedElement
       (AddComponent.handleAddComponent sampleEditorRegistry "mj-text"
          (Some "t3") "n1" (mkAppState sampleEditorTree None))
     = None.
Proof.
  assert (Hleaf : forall n, In n (nodes sampleEditorTree) -> id n = "t3" ->
                            children n = None).
  { intros n Hn E. cbn in Hn.
    repeat (destruct Hn as [<-|Hn]; [try discriminate E; reflexivity|]).
    destruct Hn. }
  assert (Hfresh : ~ In "n1" (ids sampleEditorTree)).
  { cbn. intuition discriminate. }
  assert (Hp : "t3" <> "") by discriminate.
  split; [exact Hleaf|].
  exact (X10_add_under_a_leaf_is_lost sampleEditorRegistry "mj-text" _ "n1"
           "t3" sampleEditorTree None eq_refl Hp Hfresh Hleaf).
Defined.

(** ** A new element and the registry *)

Lemma set_same k v o : JS.wf o -> In (k, v) o -> JS.set k v o = o.
Proof.
  unfold JS.wf. induction o as [|[k0 v0] r IH]; [intros _ []|].
  cbn [map fst JS.set]. intros Hnd Hin. apply NoDup_cons_iff in Hnd.
  destruct Hnd as [Hk Hnd].
  destruct (String.eqb_spec k k0) as [->|Hne].
  - destruct Hin as [[= ->]|Hin]; [reflexivity|].
    exfalso. apply Hk. change k0 with (fst (k0, v)). now apply in_map.
  - destruct Hin as [[= E _]|Hin]; [now symmetry in E|].
    now rewrite (IH Hnd Hin).
Qed.

Lemma spread_included src acc :
  JS.wf acc -> incl src acc -> JS.spread src acc = acc.
Proof.
  unfold JS.spread. induction src as [|[k v] r IH]; [reflexivity|].
  intros Hwf Hincl. cbn [fold_left fst snd].
  rewrite set_same; [|exact Hwf|apply Hincl; now left].
  apply IH; [exact Hwf|]. intros a Ha. apply Hincl. now right.
Qed.

(** X11 -- A new element carries and renders its registry defaults.  The
    element that [handleAddComponent] builds for a registered type whose
    defaults have distinct keys has those defaults as its attributes, in the
    same order; merging them again with the registry defaults at render time
    changes nothing, so the emitted attributes are the non-empty defaults. *)
Theorem X11_new_element_renders_its_defaults reg t config newId :
  find (fun c => String.eqb (c_type c) t) reg = Some config ->
  JS.wf (defaultAttrs config) ->
  attributes (AddComponent.newElement t config newId) = defaultAttrs config
  /\ mergedAttributes reg (AddComponent.newElement t config newId)
     = defaultAttrs config
  /\ emittedAttributes reg (AddComponent.newElement t config newId)
     = filter (fun kv => JS.truthy (snd kv)) (defaultAttrs config).
Proof.
  intros Hfind Hwf.
  assert (Ha : attributes (AddComponent.newElement t config newId)
               = defaultAttrs config).
  { cbn. now apply spread_empty. }
  assert (Hm : mergedAttributes reg (AddComponent.newElement t config newId)
               = defaultAttrs config).
  { unfold mergedAttributes, registryDefaultAttrs, componentDef.
    rewrite Ha. cbn [AddComponent.newElement type]. rewrite Hfind.
    rewrite (spread_empty _ Hwf).
    apply spread_included; [exact Hwf|apply incl_refl]. }
  split; [exact Ha|]. split; [exact Hm|].
  unfold emittedAttributes. now rewrite Hm.
Qed.

Lemma X11_new_element_renders_its_defaults_witness :
  JS.wf [("width", "100%"); ("padding", "")]
  /\ renderEl sampleEditorRegistry
       (AddComponent.newElement "mj-column"
          (mkComponentDef "mj-column" [("width", "100%"); ("padding", "")]
             None true) "n1") "    "
     = "    <mj-column width=" ++ JS.DQ ++ "100%" ++ JS.DQ ++ "></mj-column>"
  /\ emittedAttributes sampleEditorRegistry
       (AddComponent.newElement "mj-column"
          (mkComponentDef "mj-column" [("width", "100%"); ("padding", "")]
             None true) "n1")
     = [("width", "100%")].
Proof.
  assert (Hwf : JS.wf [("width", "100%"); ("padding", "")]).
  { unfold JS.wf. cbn. repeat constructor; cbn; intuition discriminate. }
  destruct (X11_new_element_renders_its_defaults sampleEditorRegistry
              "mj-column"
              (mkComponentDef "mj-column" [("width", "100%"); ("padding", "")]
                 None true) "n1" eq_refl Hwf) as (_ & _ & He).
  split; [exact Hwf|]. split; [reflexivity|]. rewrite He. reflexivity.
Defined.

(** ** What the serialiser reads *)

Lemma skeleton_eq x :
  skeleton x =
    mkMJElement "" (type x) (attributes x) (content x)
      (option_map (map skeleton) (children x))
      (Some (JS.truthy_flag (hidden x))) None.
Proof. destruct x as [i t a c [cs|] h l]; reflexivity. Qed.

Lemma skeleton_visibleb x : visibleb (skeleton x) = visibleb x.
Proof. rewrite skeleton_eq. reflexivity. Qed.

Lemma skeleton_type x : type (skeleton x) = type x.
Proof. rewrite skeleton_eq. reflexivity. Qed.

Lemma skeleton_attributes x : attributes (skeleton x) = attributes x.
Proof. rewrite skeleton_eq. reflexivity. Qed.

Lemma skeleton_kids x : kids (skeleton x) = map skeleton (kids x).
Proof. destruct x as [i t a c [cs|] h l]; reflexivity. Qed.

Lemma filter_map_skeleton (p : MJElement -> bool) l :
  (forall x, p (skeleton x) = p x) ->
  filter p (map skeleton l) = map skeleton (filter p l).
Proof.
  intros H. induction l as [|x r IH]; [reflexivity|]. cbn [map filter].
  rewrite H. destruct (p x); cbn [map]; now rewrite IH.
Qed.

Lemma stripHidden_skeleton els :
  stripHidden (map skeleton els) = map skeleton (stripHidden els).
Proof.
  induction els as [|x r IHk IHr] using forest_ind; [reflexivity|].
  cbn [map]. rewrite !stripHidden_cons, skeleton_visibleb, IHr.
  destruct (visibleb x); [|reflexivity]. cbn [map]. f_equal.
  destruct x as [i t a c [cs|] h l]; [|reflexivity].
  unfold kids in IHk. cbn [children] in IHk.
  rewrite !stripHidden_el_eq. cbn [skeleton children setChildren].
  unfold setChildren. cbn [id type attributes content hidden label skeleton children].
  now rewrite IHk.
Qed.

Lemma nodes_skeleton els : nodes (map skeleton els) = map skeleton (nodes els).
Proof.
  induction els as [|x r IHk IHr] using forest_ind; [reflexivity|].
  cbn [map]. rewrite !nodes_cons, !subtree_kids, skeleton_kids, IHk, IHr.
  cbn [app map]. now rewrite map_app.
Qed.

Section SkeletonRendering.

Variable reg : list ComponentDef.

Lemma attrStr_skeleton x : attrStr reg (skeleton x) = attrStr reg x.
Proof. rewrite skeleton_eq. reflexivity. Qed.

Lemma renderEl_skeleton_forest els :
  forall indent,
    map (fun c => renderEl reg c indent) (map skeleton els)
    = map (fun c => renderEl reg c indent) els.
Proof.
  induction els as [|x r IHk IHr] using forest_ind; intros indent;
    [reflexivity|].
  cbn [map]. rewrite IHr. f_equal.
  rewrite !renderEl_eq, skeleton_type, attrStr_skeleton.
  assert (Hi : forall ind, inner reg (skeleton x) ind = inner reg x ind).
  { intros ind. unfold inner, renderedChildren. rewrite (skeleton_eq x).
    cbn [content children].
    destruct (children_kids x) as [E|E]; rewrite E; cbn [option_map];
      [reflexivity|].
    now rewrite IHk. }
  now rewrite Hi.
Qed.

Lemma renderEl_skeleton x indent :
  renderEl reg (skeleton x) indent = renderEl reg x indent.
Proof.
  pose proof (renderEl_skeleton_forest [x] indent) as H. cbn [map] in H.
  now injection H.
Qed.

End SkeletonRendering.

Lemma fontOf_skeleton x : fontOf (skeleton x) = fontOf x.
Proof. unfold fontOf. now rewrite skeleton_attributes. Qed.

Lemma collectFonts_skeleton els :
  collectFontsFromElements (map skeleton els) = collectFontsFromElements els.
Proof.
  unfold collectFontsFromElements. rewrite !walk_eq. f_equal.
  unfold primaryNames. rewrite nodes_skeleton, flat_map_concat_map, map_map.
  rewrite (map_ext _ _ fontOf_skeleton). now rewrite <- flat_map_concat_map.
Qed.

Lemma declaredFontNames_skeleton els :
  declaredFontNames (map skeleton els) = declaredFontNames els.
Proof.
  unfold declaredFontNames. generalize (@nil string) as acc.
  induction els as [|x r IH]; intros acc; [reflexivity|].
  cbn [map fold_left]. rewrite skeleton_attributes. apply IH.
Qed.

Lemma headEls_skeleton els : headEls (map skeleton els) = map skeleton (headEls els).
Proof.
  unfold headEls, visible. rewrite stripHidden_skeleton.
  apply filter_map_skeleton. intros x. now rewrite skeleton_type.
Qed.

Lemma bodyEls_skeleton els : bodyEls (map skeleton els) = map skeleton (bodyEls els).
Proof.
  unfold bodyEls, visible. rewrite stripHidden_skeleton.
  apply filter_map_skeleton. intros x. now rewrite skeleton_type.
Qed.

Lemma autoFontLines_skeleton els :
  autoFontLines (map skeleton els) = autoFontLines els.
Proof.
  unfold autoFontLines, usedFonts, alreadyDeclared, manualFontEls.
  rewrite headEls_skeleton, bodyEls_skeleton, collectFonts_skeleton.
  rewrite (filter_map_skeleton (fun el => String.eqb (type el) "mj-font"));
    [|intros x; now rewrite skeleton_type].
  now rewrite declaredFontNames_skeleton.
Qed.

(** The document of a forest is the document of its skeleton. *)
Lemma generateMJML_skeleton reg els :
  generateMJML reg (map skeleton els) = generateMJML reg els.
Proof.
  unfold generateMJML, headBlock, bodyBlock, headContent, manualHeadLines,
    autoFontBlock.
  rewrite autoFontLines_skeleton, headEls_skeleton, bodyEls_skeleton.
  now rewrite !renderEl_skeleton_forest.
Qed.

Lemma generateMJML_stripHidden_ext reg a b :
  stripHidden a = stripHidden b -> generateMJML reg a = generateMJML reg b.
Proof.
  intros H.
  unfold generateMJML, headBlock, bodyBlock, headContent, manualHeadLines,
    autoFontBlock, autoFontLines, usedFonts, alreadyDeclared, manualFontEls,
    headEls, bodyEls, visible.
  now rewrite H.
Qed.

Lemma headBlock_skeleton reg els :
  headBlock reg (map skeleton els) = headBlock reg els.
Proof.
  unfold headBlock, headContent, manualHeadLines, autoFontBlock.
  rewrite autoFontLines_skeleton, headEls_skeleton.
  now rewrite !renderEl_skeleton_forest.
Qed.

Lemma bodyBlock_skeleton reg els :
  bodyBlock reg (map skeleton els) = bodyBlock reg els.
Proof.
  unfold bodyBlock. rewrite bodyEls_skeleton.
  now rewrite !renderEl_skeleton_forest.
Qed.

Lemma generateMJML_same_skeleton reg a b :
  map skeleton a = map skeleton b -> generateMJML reg a = generateMJML reg b.
Proof.
  intros H. rewrite <- (generateMJML_skeleton reg a), H.
  apply generateMJML_skeleton.
Qed.

(** X12 -- Ids and labels never reach the markup.  Two forests with the same
    skeleton, that is the same types, attributes, contents and children and
    the same nodes hidden, give the same document under every registry: the
    ids, the labels and the way an unset hidden flag is written do not
    matter. *)
Theorem X12_markup_reads_the_skeleton_only reg a b :
  map skeleton a = map skeleton b ->
  generateMJML reg a = generateMJML reg b.
Proof.
  intros H. unfold generateMJML. rewrite <- (headBlock_skeleton reg a), H.
  rewrite (headBlock_skeleton reg b).
  rewrite <- (bodyBlock_skeleton reg a), H. now rewrite (bodyBlock_skeleton reg b).
Qed.

Lemma X12_markup_reads_the_skeleton_only_witness :
  map skeleton sampleRobotoTree = map skeleton sampleRobotoRelabelled
  /\ generateMJML sampleEditorRegistry sampleRobotoTree
     = generateMJML sampleEditorRegistry sampleRobotoRelabelled.
Proof.
  assert (H : map skeleton sampleRobotoTree = map skeleton sampleRobotoRelabelled)
    by reflexivity.
  split; [exact H|].
  exact (X12_markup_reads_the_skeleton_only sampleEditorRegistry _ _ H).
Defined.

(** ** Labels and the hidden flag *)

Lemma update_skeleton i lbl els :
  map skeleton (LabelChange.update i lbl els) = map skeleton els.
Proof.
  induction els as [|x r IHk IHr] using forest_ind; [reflexivity|].
  unfold LabelChange.update in *. cbn [map]. rewrite IHr. f_equal.
  destruct x as [i0 t a c [cs|] h l];
    cbn [LabelChange.update_item id children];
    destruct (String.eqb i0 i); try reflexivity.
  unfold kids in IHk. cbn [children] in IHk.
  unfold setChildren. cbn [skeleton children type attributes content hidden].
  now rewrite IHk.
Qed.

(** X13 -- handleLabelChange.  Changing the label of an element, whatever
    the id and the label, never changes the generated document; the selection
    is kept. *)
Theorem X13_label_change_keeps_the_markup reg i lbl st :
  generateMJML reg (elements (LabelChange.handleLabelChange i lbl st))
  = generateMJML reg (elements st)
  /\ selectedId (LabelChange.handleLabelChange i lbl st) = selectedId st.
Proof.
  split; [|reflexivity]. cbn [LabelChange.handleLabelChange elements].
  apply generateMJML_same_skeleton. apply update_skeleton.
Qed.

Lemma toggle_twice_skeleton i els :
  map skeleton (ToggleHidden.toggle i (ToggleHidden.toggle i els))
  = map skeleton els.
Proof.
  induction els as [|x r IHk IHr] using forest_ind; [reflexivity|].
  unfold ToggleHidden.toggle in *. cbn [map]. rewrite IHr. f_equal.
  destruct x as [i0 t a c [cs|] h l];
    cbn [ToggleHidden.toggle_item id children];
    destruct (String.eqb i0 i) eqn:E;
    cbn [ToggleHidden.toggle_item id children setChildren]; rewrite ?E;
    cbn [skeleton children type attributes content hidden JS.truthy_flag];
    rewrite ?negb_involutive; try reflexivity.
  unfold kids in IHk. cbn [children] in IHk.
  unfold setChildren. cbn [skeleton children type attributes content hidden id].
  now rewrite IHk.
Qed.

(** X14 -- handleToggleHidden twice.  Toggling the hidden flag of an id twice
    gives back the document generated before, under every registry (the flag
    itself comes back as an explicit boolean). *)
Theorem X14_toggle_twice_restores_the_markup reg i st :
  generateMJML reg
    (elements (ToggleHidden.handleToggleHidden i
                 (ToggleHidden.handleToggleHidden i st)))
  = generateMJML reg (elements st).
Proof.
  cbn [ToggleHidden.handleToggleHidden elements].
  apply generateMJML_same_skeleton. apply toggle_twice_skeleton.
Qed.

Lemma toggle_cons i x r :
  ToggleHidden.toggle i (x :: r)
  = ToggleHidden.toggle_item i x :: ToggleHidden.toggle i r.
Proof. reflexivity. Qed.

Lemma nodes_of_kids x r n : In n (nodes (kids x)) -> In n (nodes (x :: r)).
Proof.
  intros H. rewrite nodes_cons, subtree_kids. right. apply in_or_app. now left.
Qed.

Lemma nodes_of_rest x r n : In n (nodes r) -> In n (nodes (x :: r)).
Proof. intros H. rewrite nodes_cons. apply in_or_app. now right. Qed.

Lemma nodes_head x r : In x (nodes (x :: r)).
Proof. rewrite nodes_cons, subtree_kids. now left. Qed.

(** Hiding the visible elements of an id filters like deleting them. *)
Lemma stripHidden_toggle_rm i els :
  (forall n, In n (nodes els) -> id n = i -> JS.truthy_flag (hidden n) = false) ->
  stripHidden (ToggleHidden.toggle i els) = stripHidden (DeleteElement.rm i els).
Proof.
  induction els as [|x r IHk IHr] using forest_ind; [reflexivity|].
  intros H.
  assert (Hr := IHr (fun n Hn => H n (nodes_of_rest x r n Hn))).
  assert (Hk := IHk (fun n Hn => H n (nodes_of_kids x r n Hn))).
  pose proof (H x (nodes_head x r)) as Hx.
  rewrite toggle_cons, rm_cons, stripHidden_cons.
  destruct x as [i0 t a c ch h l]. cbn [id hidden] in *.
  cbn [ToggleHidden.toggle_item id].
  destruct (String.eqb_spec i0 i) as [E|Hne]; cbn [negb].
  - unfold visibleb. cbn [hidden JS.truthy_flag]. rewrite (Hx E). cbn [negb].
    exact Hr.
  - rewrite stripHidden_cons, rm_item_eq. cbn [children].
    destruct ch as [cs|].
    + unfold kids in Hk. cbn [children] in Hk.
      unfold setChildren, visibleb. cbn [hidden id type attributes content label].
      destruct (JS.truthy_flag h); cbn [negb]; [exact Hr|].
      rewrite Hr. f_equal. rewrite !stripHidden_el_eq. cbn [children].
      unfold setChildren. cbn [id type attributes content hidden label].
      unfold ToggleHidden.toggle in Hk. now rewrite Hk.
    + now rewrite Hr.
Qed.

(** X15 -- Hiding is deleting, for the markup.  When no node with the id has
    its hidden flag set, toggling the flag of that id and deleting that id
    give the same filtered copy, hence the same document. *)
Theorem X15_hiding_renders_like_deleting reg i els :
  (forall n, In n (nodes els) -> id n = i -> JS.truthy_flag (hidden n) = false) ->
  stripHidden (ToggleHidden.toggle i els) = stripHidden (DeleteElement.rm i els)
  /\ generateMJML reg (ToggleHidden.toggle i els)
     = generateMJML reg (DeleteElement.rm i els).
Proof.
  intros H. pose proof (stripHidden_toggle_rm i els H) as Hs.
  split; [exact Hs|now apply generateMJML_stripHidden_ext].
Qed.

Lemma X15_hiding_renders_like_deleting_witness :
  (forall n, In n (nodes sampleEditorTree) -> id n = "c1" ->
             JS.truthy_flag (hidden n) = false)
  /\ generateMJML [] (ToggleHidden.toggle "c1" sampleEditorTree)
     = generateMJML [] (DeleteElement.rm "c1" sampleEditorTree)
  /\ ids (stripHidden (ToggleHidden.toggle "c1" sampleEditorTree))
     = ["s1"; "c2"; "t3"].
Proof.
  assert (H : forall n, In n (nodes sampleEditorTree) -> id n = "c1" ->
                        JS.truthy_flag (hidden n) = false).
  { intros n Hn _. cbn in Hn.
    repeat (destruct Hn as [<-|Hn]; [reflexivity|]). destruct Hn. }
  split; [exact H|]. split; [|reflexivity].
  exact (proj2 (X15_hiding_renders_like_deleting [] "c1" sampleEditorTree H)).
Defined.

(** Deleting hidden elements does not change the filtered copy. *)
Lemma stripHidden_rm_hidden i els :
  (forall n, In n (nodes els) -> id n = i -> JS.truthy_flag (hidden n) = true) ->
  stripHidden (DeleteElement.rm i els) = stripHidden els.
Proof.
  induction els as [|x r IHk IHr] using forest_ind; [reflexivity|].
  intros H.
  assert (Hr := IHr (fun n Hn => H n (nodes_of_rest x r n Hn))).
  assert (Hk := IHk (fun n Hn => H n (nodes_of_kids x r n Hn))).
  pose proof (H x (nodes_head x r)) as Hx.
  rewrite rm_cons, (stripHidden_cons x r).
  destruct x as [i0 t a c ch h l]. cbn [id hidden] in *.
  destruct (String.eqb_spec i0 i) as [E|Hne]; cbn [negb].
  - unfold visibleb. cbn [hidden]. rewrite (Hx E). cbn. exact Hr.
  - rewrite stripHidden_cons, rm_item_eq. cbn [children].
    destruct ch as [cs|].
    + unfold kids in Hk. cbn [children] in Hk.
      unfold setChildren, visibleb. cbn [hidden id type attributes content label].
      destruct (JS.truthy_flag h); cbn [negb]; [exact Hr|].
      rewrite Hr. f_equal. rewrite !stripHidden_el_eq. cbn [children].
      unfold setChildren. cbn. now rewrite Hk.
    + now rewrite Hr.
Qed.

(** X16 -- Deleting what is hidden.  When every node with the id has its
    hidden flag set, deleting that id leaves the filtered copy, and so the
    document, as they were. *)
Theorem X16_deleting_hidden_elements_keeps_the_markup reg i els :
  (forall n, In n (nodes els) -> id n = i -> JS.truthy_flag (hidden n) = true) ->
  stripHidden (DeleteElement.rm i els) = stripHidden els
  /\ generateMJML reg (DeleteElement.rm i els) = generateMJML reg els.
Proof.
  intros H. pose proof (stripHidden_rm_hidden i els H) as Hs.
  split; [exact Hs|now apply generateMJML_stripHidden_ext].
Qed.

Lemma X16_deleting_hidden_elements_keeps_the_markup_witness :
  (forall n, In n (nodes sampleHiddenTree) -> id n = "c1" ->
             JS.truthy_flag (hidden n) = true)
  /\ ids (DeleteElement.rm "c1" sampleHiddenTree) = ["s1"; "t1"; "p1"]
  /\ generateMJML [] (DeleteElement.rm "c1" sampleHiddenTree)
     = generateMJML [] sampleHiddenTree.
Proof.
  assert (H : forall n, In n (nodes sampleHiddenTree) -> id n = "c1" ->
                        JS.truthy_flag (hidden n) = true).
  { intros n Hn E. cbn in Hn.
    repeat (destruct Hn as [<-|Hn]; [try discriminate E; reflexivity|]).
    destruct Hn. }
  split; [exact H|]. split; [reflexivity|].
  exact (proj2 (X16_deleting_hidden_elements_keeps_the_markup [] "c1"
                  sampleHiddenTree H)).
Defined.

(** ** Forests without hidden nodes, and forests of hidden elements *)

Lemma stripHidden_visible els :
  (forall n, In n (nodes els) -> JS.truthy_flag (hidden n) = false) ->
  stripHidden els = els.
Proof.
  induction els as [|x r IHk IHr] using forest_ind; [reflexivity|].
  intros H.
  assert (Hr := IHr (fun n Hn => H n (nodes_of_rest x r n Hn))).
  assert (Hk := IHk (fun n Hn => H n (nodes_of_kids x r n Hn))).
  pose proof (H x (nodes_head x r)) as Hx.
  rewrite stripHidden_cons. unfold visibleb. rewrite Hx. cbn [negb].
  rewrite Hr. f_equal. rewrite stripHidden_el_eq.
  now apply (kept_item stripHidden).
Qed.

(** X17 -- Filtering a forest without hidden nodes.  When no node has its
    hidden flag set, the filtered copy is the forest itself, children arrays
    and all. *)
Theorem X17_nothing_hidden_nothing_filtered els :
  (forall n, In n (nodes els) -> JS.truthy_flag (hidden n) = false) ->
  stripHidden els = els.
Proof. apply stripHidden_visible. Qed.

Lemma X17_nothing_hidden_nothing_filtered_witness :
  (forall n, In n (nodes sampleEditorTree) -> JS.truthy_flag (hidden n) = false)
  /\ stripHidden sampleEditorTree = sampleEditorTree.
Proof.
  assert (H : forall n, In n (nodes sampleEditorTree) ->
                        JS.truthy_flag (hidden n) = false).
  { intros n Hn. cbn in Hn.
    repeat (destruct Hn as [<-|Hn]; [reflexivity|]). destruct Hn. }
  split; [exact H|exact (X17_nothing_hidden_nothing_filtered sampleEditorTree H)].
Defined.

(** X18 -- A forest whose top-level elements are all hidden.  Its document is
    the document of the empty forest: the head with the Inter declaration and
    the empty body. *)
Theorem X18_all_hidden_is_the_empty_document reg els :
  (forall el, In el els -> JS.truthy_flag (hidden el) = true) ->
  stripHidden els = []
  /\ generateMJML reg els = generateMJML reg [].
Proof.
  intros H.
  assert (Hs : stripHidden els = []).
  { induction els as [|x r IH]; [reflexivity|].
    rewrite stripHidden_cons. unfold visibleb.
    rewrite (H x (or_introl eq_refl)). cbn [negb].
    apply IH. intros el Hel. apply H. now right. }
  split; [exact Hs|]. now apply generateMJML_stripHidden_ext.
Qed.

Lemma X18_all_hidden_is_the_empty_document_witness :
  (forall el, In el [sampleLeaf "p1" "mj-preview" (Some true)] ->
              JS.truthy_flag (hidden el) = true)
  /\ generateMJML sampleRegistry [sampleLeaf "p1" "mj-preview" (Some true)]
     = generateMJML sampleRegistry [].
Proof.
  assert (H : forall el, In el [sampleLeaf "p1" "mj-preview" (Some true)] ->
                         JS.truthy_flag (hidden el) = true).
  { intros el [<-|[]]. reflexivity. }
  split; [exact H|].
  exact (proj2 (X18_all_hidden_is_the_empty_document sampleRegistry _ H)).
Defined.

(** ** More on the synthesised fonts *)

Lemma filter_NoDup_string (p : string -> bool) l : NoDup l -> NoDup (filter p l).
Proof. apply NoDup_filter. Qed.

(** X19 -- No synthesised declaration is repeated.  The names of the
    synthesised font declarations are pairwise distinct as strings, whatever
    the forest.  Names that differ by case only may both be synthesised, as
    the sample forest shows. *)
Theorem X19_synthesised_names_are_distinct els :
  NoDup (map fst (autoFonts els))
  /\ map fst (autoFonts sampleFontTree) = ["Inter"; "Roboto"; "roboto"].
Proof.
  split; [|reflexivity].
  assert (Hd : NoDup (map fst (discoveredFonts els))).
  { unfold discoveredFonts. rewrite map_map. cbn [fst]. rewrite map_id.
    apply NoDup_filter. unfold usedFonts. apply collectFonts_NoDup. }
  unfold autoFonts, baselineFonts. rewrite map_app.
  destruct (JS.has (alreadyDeclared els) "inter"); cbn [map fst app];
    [exact Hd|].
  constructor; [|exact Hd]. intros Hin.
  now apply discovered_not_inter in Hin.
Qed.

Lemma lower_char_idempotent c : JS.lower_char (JS.lower_char c) = JS.lower_char c.
Proof. destruct c as [[] [] [] [] [] [] [] []]; reflexivity. Qed.

Lemma lower_char_ws c : JS.is_ws (JS.lower_char c) = JS.is_ws c.
Proof. destruct c as [[] [] [] [] [] [] [] []]; reflexivity. Qed.

Lemma toLowerCase_idempotent s :
  JS.toLowerCase (JS.toLowerCase s) = JS.toLowerCase s.
Proof.
  induction s as [|c s IH]; [reflexivity|]. cbn [JS.toLowerCase].
  now rewrite lower_char_idempotent, IH.
Qed.

Lemma toLowerCase_truthy s : JS.truthy (JS.toLowerCase s) = JS.truthy s.
Proof. destruct s; reflexivity. Qed.

Lemma trimStart_lower s :
  JS.trimStart (JS.toLowerCase s) = JS.toLowerCase (JS.trimStart s).
Proof.
  induction s as [|c s IH]; [reflexivity|].
  cbn [JS.toLowerCase JS.trimStart]. rewrite lower_char_ws.
  destruct (JS.is_ws c); [exact IH|reflexivity].
Qed.

Lemma trimEnd_lower s :
  JS.trimEnd (JS.toLowerCase s) = JS.toLowerCase (JS.trimEnd s).
Proof.
  induction s as [|c s IH]; [reflexivity|].
  cbn [JS.toLowerCase JS.trimEnd]. rewrite lower_char_ws, IH, toLowerCase_truthy.
  destruct (JS.is_ws c && negb (JS.truthy (JS.trimEnd s))); reflexivity.
Qed.

Lemma trim_lower s : JS.trim (JS.toLowerCase s) = JS.toLowerCase (JS.trim s).
Proof. unfold JS.trim. now rewrite trimStart_lower, trimEnd_lower. Qed.

Lemma trimStart_id s :
  char_is JS.is_ws (first_char s) = false -> JS.trimStart s = s.
Proof. destruct s as [|c s]; [reflexivity|]. cbn. now intros ->. Qed.

Lemma trimEnd_id s :
  char_is JS.is_ws (last_char s) = false -> JS.trimEnd s = s.
Proof.
  induction s as [|c s IH]; [reflexivity|].
  destruct s as [|d t].
  - cbn. now intros ->.
  - intros H. change (last_char (String c (String d t)))
      with (last_char (String d t)) in H.
    change (JS.trimEnd (String c (String d t)))
      with (if JS.is_ws c && negb (JS.truthy (JS.trimEnd (String d t)))
            then "" else String c (JS.trimEnd (String d t))).
    rewrite (IH H). cbn [JS.truthy negb]. now rewrite andb_false_r.
Qed.

Lemma trim_idempotent s : JS.trim (JS.trim s) = JS.trim s.
Proof.
  destruct (trim_spec s) as (l & r & _ & _ & _ & Hf & Hl).
  unfold JS.trim at 1. rewrite (trimStart_id _ Hf). now apply trimEnd_id.
Qed.

(** X20 -- declaredFontNames.  The declared names are kept in normal form:
    every one of them is in lower case and has no white space at either end,
    and none is repeated. *)
Theorem X20_declared_names_are_normalised fontEls :
  Forall (fun x => JS.toLowerCase x = x /\ JS.trim x = x)
    (declaredFontNames fontEls)
  /\ NoDup (declaredFontNames fontEls).
Proof.
  unfold declaredFontNames.
  set (step := fun (names : list string) (el : MJElement) => _).
  assert (H : forall els acc,
             Forall (fun x => JS.toLowerCase x = x /\ JS.trim x = x) acc ->
             NoDup acc ->
             Forall (fun x => JS.toLowerCase x = x /\ JS.trim x = x)
               (fold_left step els acc)
             /\ NoDup (fold_left step els acc)).
  { induction els as [|e r IH]; intros acc Hf Hn; [now split|].
    cbn [fold_left]. apply IH; unfold step.
    - destruct (JS.get "name" (attributes e)) as [n|]; [|exact Hf].
      destruct (JS.truthy n); [|exact Hf].
      apply Forall_forall. intros x Hx. apply add_In in Hx.
      destruct Hx as [->|Hx]; [|now apply (proj1 (Forall_forall _ _) Hf)].
      split; [apply toLowerCase_idempotent|].
      now rewrite <- trim_lower, trim_idempotent.
    - destruct (JS.get "name" (attributes e)) as [n|]; [|exact Hn].
      destruct (JS.truthy n); [|exact Hn]. now apply add_NoDup. }
  apply H; constructor.
Qed.

Lemma spaces_to_plus_no_space s : JS.includes " " (JS.spaces_to_plus s) = false.
Proof.
  induction s as [|c s IH]; [reflexivity|].
  cbn [JS.spaces_to_plus JS.includes]. rewrite IH, orb_false_r.
  destruct (Ascii.eqb_spec c " ") as [->|Hne]; [reflexivity|].
  now apply Ascii.eqb_neq.
Qed.

Lemma includes_app c a b :
  JS.includes c (a ++ b) = JS.includes c a || JS.includes c b.
Proof.
  induction a as [|x a IH]; [reflexivity|]. cbn [append JS.includes].
  now rewrite IH, orb_assoc.
Qed.

(** X21 -- googleFontsUrl.  The address holds no space, whatever the name:
    the spaces of the name are replaced by plus signs; and the white space
    around the name does not matter, the name being trimmed first. *)
Theorem X21_font_url_has_no_space fontName :
  JS.includes " " (googleFontsUrl fontName) = false
  /\ googleFontsUrl (JS.trim fontName) = googleFontsUrl fontName
  /\ googleFontsUrl "  Open Sans "
     = "https://fonts.googleapis.com/css?family=Open+Sans:300,400,500,700".
Proof.
  split; [|split; [|reflexivity]].
  - unfold googleFontsUrl. rewrite !includes_app, spaces_to_plus_no_space.
    reflexivity.
  - unfold googleFontsUrl. now rewrite trim_idempotent.
Qed.

(** X22 -- Fonts under head elements are not discovered.  When every
    top-level element of the filtered copy has a head type, the fonts in use
    are none, whatever font-family their subtrees hold, and the baseline
    declaration, if any, is the only synthesised one. *)
Theorem X22_head_fonts_are_not_discovered els :
  (forall el, In el (visible els) -> JS.has HEAD_TYPES (type el) = true) ->
  bodyEls els = []
  /\ usedFonts els = []
  /\ autoFonts els = baselineFonts els.
Proof.
  intros H.
  assert (Hb : bodyEls els = []).
  { unfold bodyEls. induction (visible els) as [|x r IH]; [reflexivity|].
    cbn [filter]. rewrite (H x (or_introl eq_refl)). cbn [negb].
    apply IH. intros el Hel. apply H. now right. }
  assert (Hu : usedFonts els = []).
  { unfold usedFonts. now rewrite Hb. }
  split; [exact Hb|]. split; [exact Hu|].
  unfold autoFonts, discoveredFonts. rewrite Hu. cbn. apply app_nil_r.
Qed.

Lemma X22_head_fonts_are_not_discovered_witness :
  (forall el, In el (visible sampleHeadFontTree) ->
              JS.has HEAD_TYPES (type el) = true)
  /\ collectFontsFromElements sampleHeadFontTree = ["Roboto"]
  /\ autoFonts sampleHeadFontTree = [("Inter", interUrl)].
Proof.
  assert (H : forall el, In el (visible sampleHeadFontTree) ->
                         JS.has HEAD_TYPES (type el) = true).
  { intros el [<-|[]]. reflexivity. }
  destruct (X22_head_fonts_are_not_discovered sampleHeadFontTree H)
    as (_ & _ & Ha).
  split; [exact H|]. split; [reflexivity|]. rewrite Ha. reflexivity.
Defined.

(** ** Siblings *)

Lemma findIndex_Some i l idx :
  findIndex i l = Some idx ->
  exists x, nth_error l idx = Some x /\ id x = i
            /\ (forall j y, j < idx -> nth_error l j = Some y -> id y <> i).
Proof.
  revert idx. induction l as [|x r IH]; intros idx; [discriminate|].
  cbn [findIndex]. destruct (String.eqb_spec (id x) i) as [E|Hne].
  - intros [= <-]. exists x. split; [reflexivity|]. split; [exact E|].
    intros j y Hj. lia.
  - destruct (findIndex i r) as [k|]; [|discriminate].
    intros [= <-]. destruct (IH k eq_refl) as (y & Hy & Hid & Hfirst).
    exists y. split; [exact Hy|]. split; [exact Hid|].
    intros j z Hj Hz. destruct j as [|j].
    + cbn in Hz. injection Hz as <-. exact Hne.
    + cbn in Hz. apply (Hfirst j z); [lia|exact Hz].
Qed.

Lemma findIndex_None i l :
  findIndex i l = None <-> Forall (fun x => id x <> i) l.
Proof.
  induction l as [|x r IH]; [split; [constructor|reflexivity]|].
  cbn [findIndex]. destruct (String.eqb_spec (id x) i) as [E|Hne].
  - split; [discriminate|]. intros H. inversion H; contradiction.
  - destruct (findIndex i r) as [k|].
    + split; [discriminate|]. intros H. inversion H as [|? ? _ Hr]; subst.
      apply IH in Hr. discriminate.
    + split; [|reflexivity]. intros _. constructor; [exact Hne|now apply IH].
Qed.

Lemma findSiblings_item_eq i x :
  findSiblings_item i x =
    match children x with
    | Some cs => findSiblings i cs
    | None => None
    end.
Proof. destruct x as [i0 t a c [cs|] h l]; reflexivity. Qed.

Lemma findSiblings_search i l :
  findSiblings i l =
    match findIndex i l with
    | Some idx => Some (l, idx)
    | None => searchBelow i l
    end.
Proof.
  unfold findSiblings. destruct (findIndex i l); [reflexivity|].
  induction l as [|x r IH]; [reflexivity|]. cbn [searchBelow].
  destruct (findSiblings_item i x); [reflexivity|exact IH].
Qed.

(** What [findSiblings] and its loop return. *)
Lemma findSiblings_spec i els :
  ((forall sibs idx,
       findSiblings i els = Some (sibs, idx) ->
       (sibs = els \/ exists p, In p (nodes els) /\ children p = Some sibs)
       /\ exists x, nth_error sibs idx = Some x /\ id x = i
                    /\ (forall j y, j < idx -> nth_error sibs j = Some y ->
                                    id y <> i))
   /\ (findSiblings i els = None <-> occ i els = 0))
  /\ ((forall sibs idx,
          searchBelow i els = Some (sibs, idx) ->
          (exists p, In p (nodes els) /\ children p = Some sibs)
          /\ exists x, nth_error sibs idx = Some x /\ id x = i
                       /\ (forall j y, j < idx -> nth_error sibs j = Some y ->
                                       id y <> i))
      /\ (searchBelow i els = None <->
          Forall (fun x => occ i (kids x) = 0) els)).
Proof.
  induction els as [|x r IHk IHr] using forest_ind.
  - repeat split; try discriminate; constructor.
  - destruct IHk as [[HkS HkN] _]. destruct IHr as [_ [HrS HrN]].
    assert (Hbelow :
             (forall sibs idx,
                 searchBelow i (x :: r) = Some (sibs, idx) ->
                 (exists p, In p (nodes (x :: r)) /\ children p = Some sibs)
                 /\ exists y, nth_error sibs idx = Some y /\ id y = i
                              /\ (forall j z, j < idx ->
                                              nth_error sibs j = Some z ->
                                              id z <> i))
             /\ (searchBelow i (x :: r) = None <->
                 Forall (fun y => occ i (kids y) = 0) (x :: r))).
    { cbn [searchBelow]. rewrite findSiblings_item_eq.
      destruct (children x) as [cs|] eqn:E.
      - assert (Hc : kids x = cs) by (unfold kids; now rewrite E).
        rewrite Hc in HkS, HkN.
        destruct (findSiblings i cs) as [[s k]|] eqn:Hf.
        + split.
          * intros sibs idx [= <- <-]. destruct (HkS s k eq_refl) as [Hwhere Hx].
            split; [|exact Hx].
            destruct Hwhere as [->|(p & Hp & Hpc)].
            -- exists x. split; [apply nodes_head|exact E].
            -- exists p. split; [|exact Hpc].
               apply nodes_of_kids. now rewrite Hc.
          * split; [discriminate|]. intros H. inversion H as [|? ? Hx _].
            rewrite Hc in Hx. apply HkN in Hx. discriminate.
        + split.
          * intros sibs idx H. destruct (HrS sibs idx H) as [(p & Hp & Hpc) Hx].
            split; [|exact Hx]. exists p. split; [|exact Hpc].
            now apply nodes_of_rest.
          * rewrite HrN. split.
            -- intros H. constructor; [|exact H]. rewrite Hc. now apply HkN.
            -- intros H. now inversion H.
      - assert (Hc : kids x = []) by (unfold kids; now rewrite E).
        split.
        + intros sibs idx H. destruct (HrS sibs idx H) as [(p & Hp & Hpc) Hx].
          split; [|exact Hx]. exists p. split; [|exact Hpc].
          now apply nodes_of_rest.
        + rewrite HrN. split.
          * intros H. constructor; [|exact H]. now rewrite Hc.
          * intros H. now inversion H. }
    split; [|exact Hbelow]. destruct Hbelow as [HbS HbN].
    rewrite findSiblings_search.
    destruct (findIndex i (x :: r)) as [k|] eqn:Hi.
    + split.
      * intros sibs idx [= <- <-]. split; [now left|].
        now apply findIndex_Some.
      * split; [discriminate|]. intros H.
        destruct (findIndex_Some i _ k Hi) as (y & Hy & Hid & _).
        apply nth_error_In in Hy.
        assert (Hin : In i (ids (x :: r))).
        { unfold ids. apply in_map_iff. exists y. split; [exact Hid|].
          destruct Hy as [<-|Hy]; [apply nodes_head|].
          apply nodes_of_rest. unfold nodes. apply in_flat_map.
          exists y. split; [exact Hy|]. rewrite subtree_kids. now left. }
        apply occ_In in Hin. lia.
    + split.
      * intros sibs idx H. destruct (HbS sibs idx H) as [Hp Hx].
        split; [now right|exact Hx].
      * rewrite HbN. apply findIndex_None in Hi.
        clear - Hi. induction Hi as [|y l Hy Hl IH].
        -- split; [reflexivity|constructor].
        -- rewrite occ_cons. destruct (string_dec (id y) i); [contradiction|].
           split.
           ++ intros H. inversion H as [|? ? Hk Hr]; subst.
              apply IH in Hr. lia.
           ++ intros H. constructor; [lia|]. apply IH. lia.
Qed.

(** X23 -- findSiblings.  When the search succeeds, the array it returns is
    the top-level array or the children array of a node of the forest, the
    index is within it, the element at the index has the id, and no element
    before it in that array has; the search fails exactly when no node has
    the id. *)
Theorem X23_findSiblings_locates_the_element i els :
  (forall sibs idx,
      findSiblings i els = Some (sibs, idx) ->
      (sibs = els \/ exists p, In p (nodes els) /\ children p = Some sibs)
      /\ idx < length sibs
      /\ exists x, nth_error sibs idx = Some x /\ id x = i
                   /\ (forall j y, j < idx -> nth_error sibs j = Some y ->
                                   id y <> i))
  /\ (findSiblings i els = None <-> ~ In i (ids els)).
Proof.
  destruct (findSiblings_spec i els) as [[HS HN] _]. split.
  - intros sibs idx H. destruct (HS sibs idx H) as [Hw (x & Hx & Hid & Hf)].
    split; [exact Hw|]. split.
    + apply nth_error_Some. rewrite Hx. discriminate.
    + now exists x.
  - rewrite HN. symmetry. apply occ_zero.
Qed.

(** ** The element an operation changes *)

Lemma toggle_item_eq i x :
  ToggleHidden.toggle_item i x =
    if String.eqb (id x) i then flipHidden x
    else match children x with
         | Some cs => setChildren x (ToggleHidden.toggle i cs)
         | None => x
         end.
Proof. destruct x as [i0 t a c [cs|] h l]; reflexivity. Qed.

Lemma update_item_eq i lbl x :
  LabelChange.update_item i lbl x =
    if String.eqb (id x) i then setLabel (LabelChange.newLabel lbl) x
    else match children x with
         | Some cs => setChildren x (LabelChange.update i lbl cs)
         | None => x
         end.
Proof. destruct x as [i0 t a c [cs|] h l]; reflexivity. Qed.

(** An operation that maps the reached elements by [f], which keeps their
    id and children, and copies the others around their children. *)
Lemma mapped_lookup (f : MJElement -> MJElement)
  (op_item : MJElement -> MJElement) i :
  (forall x, id (f x) = id x) ->
  (forall x, kids (f x) = kids x) ->
  (forall x, op_item x =
             if String.eqb (id x) i then f x
             else match children x with
                  | Some cs => setChildren x (map op_item cs)
                  | None => x
                  end) ->
  forall els,
    ids (map op_item els) = ids els
    /\ findSelected i (map op_item els) = option_map f (findSelected i els).
Proof.
  intros Hid Hkids Hop.
  induction els as [|x r [IHk1 IHk2] [IHr1 IHr2]] using forest_ind;
    [split; reflexivity|].
  cbn [map]. rewrite ids_cons, (ids_cons x r), IHr1. cbn [findSelected].
  rewrite IHr2, Hop, (findSelected_item_eq i x).
  destruct (String.eqb (id x) i) eqn:E.
  - rewrite Hid, Hkids, findSelected_item_eq, Hid, E. split; reflexivity.
  - destruct (children_kids x) as [Hc|Hc]; rewrite Hc.
    + rewrite findSelected_item_eq, E, Hc. split; reflexivity.
    + rewrite id_setChildren, kids_setChildren, IHk1.
      rewrite findSelected_item_eq, id_setChildren, E.
      cbn [children setChildren]. rewrite IHk2.
      split; [reflexivity|]. destruct (findSelected i (kids x)); reflexivity.
Qed.

(** X24 -- handleToggleHidden.  A toggle keeps every id where it is, and the
    element the search finds for the id afterwards is the one found before
    with its hidden flag negated: an unset flag becomes true. *)
Theorem X24_toggle_flips_the_found_element i els :
  ids (ToggleHidden.toggle i els) = ids els
  /\ findSelected i (ToggleHidden.toggle i els)
     = option_map flipHidden (findSelected i els)
  /\ (forall x, JS.truthy_flag (hidden (flipHidden x))
                = negb (JS.truthy_flag (hidden x))).
Proof.
  destruct (mapped_lookup flipHidden (ToggleHidden.toggle_item i) i
              (fun x => eq_refl) (fun x => eq_refl) (toggle_item_eq i) els)
    as [H1 H2].
  split; [exact H1|]. split; [exact H2|reflexivity].
Qed.

Lemma all_ws_trimStart s : all_ws s = true -> JS.trimStart s = "".
Proof.
  induction s as [|c s IH]; [reflexivity|]. cbn.
  destruct (JS.is_ws c); [exact IH|discriminate].
Qed.

(** X25 -- handleLabelChange.  A label change keeps every id where it is, and
    the element the search finds for the id afterwards is the one found
    before with the new label.  The stored label is the given one trimmed; a
    label of white space only, or empty, clears the label, so a stored label
    is never empty. *)
Theorem X25_label_is_trimmed_or_cleared i lbl els :
  ids (LabelChange.update i lbl els) = ids els
  /\ findSelected i (LabelChange.update i lbl els)
     = option_map (setLabel (LabelChange.newLabel lbl)) (findSelected i els)
  /\ (all_ws lbl = true -> LabelChange.newLabel lbl = None)
  /\ (forall s, LabelChange.newLabel lbl = Some s ->
                s = JS.trim lbl /\ s <> "" /\ JS.trim s = s).
Proof.
  destruct (mapped_lookup (setLabel (LabelChange.newLabel lbl))
              (LabelChange.update_item i lbl) i
              (fun x => eq_refl) (fun x => eq_refl) (update_item_eq i lbl) els)
    as [H1 H2].
  split; [exact H1|]. split; [exact H2|]. split.
  - intros H. unfold LabelChange.newLabel, JS.trim.
    now rewrite (all_ws_trimStart lbl H).
  - intros s. unfold LabelChange.newLabel.
    destruct (JS.truthy (JS.trim lbl)) eqn:E; [|discriminate].
    intros [= <-]. split; [reflexivity|].
    split; [now apply truthy_true|apply trim_idempotent].
Qed.

Lemma X25_label_is_trimmed_or_cleared_witness :
  all_ws "   " = true
  /\ findSelected "t1" (LabelChange.update "t1" "   " sampleEditorTree)
     = Some (sampleLeaf "t1" "mj-text" None)
  /\ option_map label
       (findSelected "t1" (LabelChange.update "t1" "  Intro " sampleEditorTree))
     = Some (Some "Intro").
Proof.
  assert (H : all_ws "   " = true) by reflexivity.
  destruct (X25_label_is_trimmed_or_cleared "t1" "   " sampleEditorTree)
    as (_ & Hfind & Hblank & _).
  split; [exact H|]. split; [|reflexivity].
  rewrite Hfind, (Hblank H). reflexivity.
Defined.

(** ** Elements without payload *)

Lemma truthy_true_false s : JS.truthy s = false -> s = "".
Proof. destruct s; [reflexivity|discriminate]. Qed.

Lemma renderedChildren_nil reg el indent :
  renderedChildren reg el indent = "" <-> kids el = [].
Proof.
  unfold renderedChildren, kids. destruct (children el) as [[|x r]|].
  - split; reflexivity.
  - split; [|discriminate]. intros H.
    pose proof (join_truthy JS.NL (renderEl reg x (indent ++ "  "))
                  (map (fun c => renderEl reg c (indent ++ "  ")) r)
                  (renderEl_truthy reg x _)) as Ht.
    cbn [map] in H. rewrite H in Ht. discriminate.
  - split; reflexivity.
Qed.

(** X26 -- An element without payload.  The inner payload of an element is
    empty exactly when its content is absent or empty and it has no child
    (no children array, or an empty one); an element of a type that is not
    self-closing then renders as an opening and a closing tag with nothing
    between them, on one line. *)
Theorem X26_no_payload_renders_as_an_empty_pair reg el indent :
  (inner reg el indent = "" <->
   truthy_str (content el) = false /\ kids el = [])
  /\ (JS.has SELF_CLOSING (type el) = false ->
      truthy_str (content el) = false ->
      kids el = [] ->
      renderEl reg el indent
      = indent ++ "<" ++ type el ++ attrStr reg el ++ "></" ++ type el ++ ">").
Proof.
  assert (Hi : inner reg el indent = "" <->
               truthy_str (content el) = false /\ kids el = []).
  { rewrite <- (renderedChildren_nil reg el indent). unfold inner.
    set (c := match content el with Some c => c | None => "" end).
    assert (Hc : truthy_str (content el) = JS.truthy c).
    { unfold c, truthy_str. now destruct (content el). }
    rewrite Hc. cbn [filter].
    destruct (JS.truthy c) eqn:Ec.
    - split; [|intros [H _]; discriminate]. intros H.
      pose proof (join_truthy JS.NL c
                    (if JS.truthy (renderedChildren reg el indent)
                     then [renderedChildren reg el indent] else []) Ec) as Ht.
      rewrite H in Ht. discriminate.
    - destruct (JS.truthy (renderedChildren reg el indent)) eqn:Er.
      + cbn [JS.join]. split; [intros H; rewrite H in Er; discriminate|].
        intros [_ H]. exact H.
      + apply truthy_true_false in Er. cbn [JS.join]. now split. }
  split; [exact Hi|]. intros Hs Hc Hk.
  rewrite renderEl_eq, Hs, (proj2 Hi (conj Hc Hk)). reflexivity.
Qed.

Lemma X26_no_payload_renders_as_an_empty_pair_witness :
  JS.has SELF_CLOSING (type sampleColumn2) = false
  /\ truthy_str (content sampleColumn2) = false
  /\ kids sampleColumn2 = []
  /\ renderEl [] sampleColumn2 "    " = "    <mj-column></mj-column>".
Proof.
  split; [reflexivity|]. split; [reflexivity|]. split; [reflexivity|].
  rewrite (proj2 (X26_no_payload_renders_as_an_empty_pair [] sampleColumn2 "    ")
             eq_refl eq_refl eq_refl).
  reflexivity.
Defined.

(** * The attributes in the tag *)

Lemma pairText_truthy kv : JS.truthy (pairText kv) = true.
Proof. unfold pairText. apply append_truthy_r. reflexivity. Qed.

(** The attribute string of [renderEl] is the text of the emitted
    attributes. *)
Lemma attrStr_emitted reg el :
  attrStr reg el = attrText (emittedAttributes reg el).
Proof.
  unfold attrStr, attrs. fold pairText.
  change (fun kv : string * string => fst kv ++ "=" ++ JS.DQ ++ snd kv ++ JS.DQ)
    with pairText.
  destruct (emittedAttributes reg el) as [|kv l]; [reflexivity|].
  cbn [map attrText]. now rewrite join_truthy by apply pairText_truthy.
Qed.

Lemma attrText_pair kv l : In kv l -> occurs_in (pairText kv) (attrText l).
Proof.
  intros Hin. destruct l as [|x r]; [destruct Hin|].
  unfold attrText. apply occurs_in_app_l.
  apply occurs_in_join. now apply in_map.
Qed.

(** Every branch of [renderEl] writes the indentation, the type and the
    attribute string, and then closes the tag. *)
Lemma renderEl_shape reg el indent :
  exists rest,
    renderEl reg el indent
    = indent ++ "<" ++ type el ++ attrText (emittedAttributes reg el) ++ rest
    /\ (rest = " />" \/ exists r, rest = ">" ++ r).
Proof.
  rewrite renderEl_eq, attrStr_emitted.
  destruct (JS.has SELF_CLOSING (type el)).
  { eexists. split; [reflexivity|now left]. }
  destruct (negb _).
  { eexists. split; [reflexivity|]. right. eexists. reflexivity. }
  destruct (JS.includes _ _);
    (eexists; split; [reflexivity|]; right; eexists; reflexivity).
Qed.

Lemma renderEl_pair reg el indent kv :
  In kv (emittedAttributes reg el) ->
  occurs_in (pairText kv) (renderEl reg el indent).
Proof.
  intros Hin. destruct (renderEl_shape reg el indent) as (rest & -> & _).
  do 3 apply occurs_in_app_l. apply occurs_in_app_r.
  now apply attrText_pair.
Qed.

(** Which pairs are emitted: the live ones and the defaults that no live
    value overrides, the blank ones apart. *)
Lemma emittedAttributes_In reg el k v :
  JS.wf (attributes el) ->
  JS.wf (registryDefaultAttrs reg el) ->
  In (k, v) (emittedAttributes reg el) <->
  v <> "" /\
  (JS.get k (attributes el) = Some v \/
   (JS.get k (attributes el) = None /\
    JS.get k (registryDefaultAttrs reg el) = Some v)).
Proof.
  intros Ha Hd. unfold emittedAttributes. rewrite filter_In. simpl.
  rewrite truthy_true. split.
  - intros [Hin Hv]. split; [exact Hv|].
    apply (In_get _ _ _ (wf_mergedAttributes reg el)) in Hin.
    rewrite (get_mergedAttributes reg el k Ha Hd) in Hin.
    destruct (JS.get k (attributes el)); [now left|now right].
  - intros [Hv Hget]. split; [|exact Hv].
    apply get_In. rewrite (get_mergedAttributes reg el k Ha Hd).
    destruct Hget as [->|[-> ->]]; reflexivity.
Qed.

Lemma NoDup_map_filter {A B : Type} (f : A -> B) (p : A -> bool) l :
  NoDup (map f l) -> NoDup (map f (filter p l)).
Proof.
  induction l as [|x r IH]; simpl; intros H; [constructor|].
  inversion H as [|? ? Hx Hr]; subst.
  destruct (p x); [|now apply IH]. simpl. constructor; [|now apply IH].
  intros Hin. apply Hx. apply in_map_iff in Hin.
  destruct Hin as (y & E & Hy). apply filter_In in Hy.
  apply in_map_iff. exists y. tauto.
Qed.

Lemma wf_emittedAttributes reg el : JS.wf (emittedAttributes reg el).
Proof.
  unfold JS.wf, emittedAttributes. apply NoDup_map_filter.
  apply wf_mergedAttributes.
Qed.

(** C2 -- Effective attribute emission.  For a node whose live attributes and
    registry defaults are objects (distinct keys, none written with digits
    only), the opening tag that [renderEl] writes is the indentation, the
    type and the text of the emitted attributes, each as [key="value"] after
    a space, and nothing else before the tag closes.  A pair is emitted
    exactly when its value is not empty and is the live value of the key, or,
    the key having no live value, its registry default; each key is emitted
    at most once.  So a live attribute set to the empty string is among the
    emitted keys under no value, even when the registry has a non-empty
    default for it, and a non-empty default of a key absent from the live
    attributes is emitted: its [key="value"] is in the rendered tag. *)
Theorem C2_effective_attributes reg el :
  JS.wf (attributes el) ->
  JS.wf (registryDefaultAttrs reg el) ->
  plain (attributes el) ->
  plain (registryDefaultAttrs reg el) ->
  (forall indent, exists rest,
      renderEl reg el indent
      = indent ++ "<" ++ type el
          ++ attrText (emittedAttributes reg el) ++ rest
      /\ (rest = " />" \/ exists r, rest = ">" ++ r))
  /\ (forall k v,
         In (k, v) (emittedAttributes reg el) <->
         v <> "" /\
         (JS.get k (attributes el) = Some v \/
          (JS.get k (attributes el) = None /\
           JS.get k (registryDefaultAttrs reg el) = Some v)))
  /\ NoDup (map fst (emittedAttributes reg el))
  /\ (forall k, JS.get k (attributes el) = Some "" ->
                ~ In k (map fst (emittedAttributes reg el)))
  /\ (forall k v indent,
         JS.get k (attributes el) = None ->
         JS.get k (registryDefaultAttrs reg el) = Some v ->
         v <> "" ->
         In (k, v) (emittedAttributes reg el)
         /\ occurs_in (k ++ "=" ++ JS.DQ ++ v ++ JS.DQ)
              (renderEl reg el indent))
  /\ (forall k v indent,
         JS.get k (attributes el) = Some v ->
         v <> "" ->
         In (k, v) (emittedAttributes reg el)
         /\ occurs_in (k ++ "=" ++ JS.DQ ++ v ++ JS.DQ)
              (renderEl reg el indent)).
Proof.
  intros Ha Hd _ _.
  split; [intros indent; apply renderEl_shape|].
  split; [intros k v; now apply emittedAttributes_In|].
  split; [apply wf_emittedAttributes|]. split; [|split].
  - intros k Hk Hin. apply in_map_iff in Hin.
    destruct Hin as [[k' v] [E Hin]]. simpl in E. subst k'.
    apply (emittedAttributes_In reg el k v Ha Hd) in Hin.
    destruct Hin as [Hv [Hl|[Hl _]]]; congruence.
  - intros k v indent Hl Hdv Hv.
    assert (Hin : In (k, v) (emittedAttributes reg el)).
    { apply (emittedAttributes_In reg el k v Ha Hd).
      split; [exact Hv|now right]. }
    split; [exact Hin|]. exact (renderEl_pair reg el indent (k, v) Hin).
  - intros k v indent Hl Hv.
    assert (Hin : In (k, v) (emittedAttributes reg el)).
    { apply (emittedAttributes_In reg el k v Ha Hd).
      split; [exact Hv|now left]. }
    split; [exact Hin|]. exact (renderEl_pair reg el indent (k, v) Hin).
Qed.

Lemma C2_effective_attributes_witness :
  JS.wf (attributes sampleText)
  /\ JS.wf (registryDefaultAttrs sampleRegistry sampleText)
  /\ plain (attributes sampleText)
  /\ plain (registryDefaultAttrs sampleRegistry sampleText)
  /\ emittedAttributes sampleRegistry sampleText = [("a", "1"); ("b", "3")]
  /\ renderEl sampleRegistry sampleText "    "
     = "    <mj-text a=" ++ JS.DQ ++ "1" ++ JS.DQ
         ++ " b=" ++ JS.DQ ++ "3" ++ JS.DQ ++ ">Hello</mj-text>"
  /\ ~ In "c" (map fst (emittedAttributes sampleRegistry sampleText))
  /\ occurs_in ("a=" ++ JS.DQ ++ "1" ++ JS.DQ)
       (renderEl sampleRegistry sampleText "    ").
Proof.
  assert (Ha : JS.wf (attributes sampleText)).
  { unfold JS.wf. simpl. repeat constructor; simpl; intuition discriminate. }
  assert (Hd : JS.wf (registryDefaultAttrs sampleRegistry sampleText)).
  { unfold JS.wf. simpl. repeat constructor; simpl; intuition discriminate. }
  assert (Pa : plain (attributes sampleText)).
  { repeat constructor. }
  assert (Pd : plain (registryDefaultAttrs sampleRegistry sampleText)).
  { repeat constructor. }
  destruct (C2_effective_attributes sampleRegistry sampleText Ha Hd Pa Pd)
    as (_ & _ & _ & Hblank & Hdefault & _).
  split; [exact Ha|]. split; [exact Hd|]. split; [exact Pa|].
  split; [exact Pd|]. split; [reflexivity|]. split; [|split].
  - reflexivity.
  - apply Hblank. reflexivity.
  - apply (Hdefault "a" "1" "    "); [reflexivity|reflexivity|discriminate].
Defined.

(** C3 -- Self-closing fidelity.  A node whose type is one of the seven
    self-closing types renders as one empty-element tag: the indentation, the
    type, the text of the emitted attributes -- the live values and the
    registry defaults they do not override, the blank ones apart -- and the
    closing [ />].  Neither its content nor its children reach the output:
    the same node with any other content and any other children renders the
    same. *)
Theorem C3_self_closing reg el indent :
  In (type el) SELF_CLOSING ->
  JS.wf (attributes el) ->
  JS.wf (registryDefaultAttrs reg el) ->
  plain (attributes el) ->
  plain (registryDefaultAttrs reg el) ->
  SELF_CLOSING
  = [ "mj-breakpoint"; "mj-font"; "mj-image"; "mj-divider"; "mj-spacer";
      "mj-carousel-image"; "mj-html-attributes" ]
  /\ renderEl reg el indent
     = indent ++ "<" ++ type el
         ++ attrText (emittedAttributes reg el) ++ " />"
  /\ (forall k v,
         In (k, v) (emittedAttributes reg el) <->
         v <> "" /\
         (JS.get k (attributes el) = Some v \/
          (JS.get k (attributes el) = None /\
           JS.get k (registryDefaultAttrs reg el) = Some v)))
  /\ NoDup (map fst (emittedAttributes reg el))
  /\ (forall c ch,
         renderEl reg (withPayload el c ch) indent = renderEl reg el indent).
Proof.
  intros Hin Ha Hd _ _. apply has_In in Hin.
  split; [reflexivity|]. split; [|split; [|split]].
  - rewrite renderEl_eq, Hin, attrStr_emitted. reflexivity.
  - intros k v. now apply emittedAttributes_In.
  - apply wf_emittedAttributes.
  - intros c ch. rewrite !renderEl_eq. unfold withPayload at 1. simpl type.
    rewrite Hin, attrStr_withPayload. reflexivity.
Qed.

Lemma C3_self_closing_witness :
  In (type sampleImage) SELF_CLOSING
  /\ JS.wf (attributes sampleImage)
  /\ JS.wf (registryDefaultAttrs sampleImageRegistry sampleImage)
  /\ plain (attributes sampleImage)
  /\ plain (registryDefaultAttrs sampleImageRegistry sampleImage)
  /\ emittedAttributes sampleImageRegistry sampleImage
     = [("src", "a.png"); ("width", "100px")]
  /\ renderEl sampleImageRegistry sampleImage "    "
     = "    <mj-image src=" ++ JS.DQ ++ "a.png" ++ JS.DQ
         ++ " width=" ++ JS.DQ ++ "100px" ++ JS.DQ ++ " />"
  /\ renderEl sampleImageRegistry (withPayload sampleImage None None) "    "
     = renderEl sampleImageRegistry sampleImage "    ".
Proof.
  assert (Hin : In (type sampleImage) SELF_CLOSING).
  { simpl. tauto. }
  assert (Ha : JS.wf (attributes sampleImage)).
  { unfold JS.wf. simpl. repeat constructor; simpl; intuition discriminate. }
  assert (Hd : JS.wf (registryDefaultAttrs sampleImageRegistry sampleImage)).
  { unfold JS.wf. simpl. repeat constructor; simpl; intuition discriminate. }
  assert (Pa : plain (attributes sampleImage)).
  { repeat constructor. }
  assert (Pd : plain (registryDefaultAttrs sampleImageRegistry sampleImage)).
  { repeat constructor. }
  destruct (C3_self_closing sampleImageRegistry sampleImage "    "
              Hin Ha Hd Pa Pd) as (_ & Htag & _ & _ & Hpay).
  split; [exact Hin|]. split; [exact Ha|]. split; [exact Hd|].
  split; [exact Pa|]. split; [exact Pd|]. split; [reflexivity|]. split.
  - rewrite Htag. reflexivity.
  - apply Hpay.
Defined.

(** * Quotes around a primary name *)

Lemma last_char_quote s :
  char_is JS.is_quote (last_char s) = true ->
  exists m q, s = m ++ String q "" /\ JS.is_quote q = true.
Proof.
  induction s as [|c r IH]; [discriminate|].
  destruct r as [|d r'].
  - simpl. intros H. exists "", c. split; [reflexivity|exact H].
  - intros H. change (last_char (String c (String d r')))
      with (last_char (String d r')) in H.
    destruct (IH H) as (m & q & E & Hq).
    exists (String c m), q. split; [|exact Hq]. simpl. now rewrite <- E.
Qed.

Lemma dropLeadingQuote_id s :
  char_is JS.is_quote (first_char s) = false -> JS.dropLeadingQuote s = s.
Proof. destruct s as [|c r]; simpl; [reflexivity|]. now intros ->. Qed.

(** A quote at the start only. *)
Lemma stripQuotes_leading q r :
  JS.is_quote q = true ->
  char_is JS.is_quote (last_char r) = false ->
  JS.stripQuotes (String q r) = r.
Proof.
  intros Hq Hr. unfold JS.stripQuotes. simpl JS.dropLeadingQuote.
  rewrite Hq. now apply dropTrailingQuote_id.
Qed.

(** A quote at the end only. *)
Lemma stripQuotes_trailing r q :
  char_is JS.is_quote (first_char (r ++ String q "")) = false ->
  JS.is_quote q = true ->
  JS.stripQuotes (r ++ String q "") = r.
Proof.
  intros Hf Hq. unfold JS.stripQuotes.
  rewrite (dropLeadingQuote_id _ Hf), dropTrailingQuote_snoc. now rewrite Hq.
Qed.

(** The four shapes of a string with respect to the quotes at its ends. *)
Lemma quote_shapes s :
  (exists q1 mid q2, JS.is_quote q1 = true /\ JS.is_quote q2 = true
                     /\ s = String q1 (mid ++ String q2 ""))
  \/ (exists q r, JS.is_quote q = true
                  /\ char_is JS.is_quote (last_char r) = false
                  /\ s = String q r)
  \/ (exists r q, char_is JS.is_quote (first_char s) = false
                  /\ JS.is_quote q = true
                  /\ s = r ++ String q "")
  \/ (char_is JS.is_quote (first_char s) = false
      /\ char_is JS.is_quote (last_char s) = false).
Proof.
  destruct (char_is JS.is_quote (first_char s)) eqn:Hf.
  - destruct s as [|q r]; [discriminate|]. simpl in Hf.
    destruct (char_is JS.is_quote (last_char r)) eqn:Hl.
    + left. destruct (last_char_quote r Hl) as (m & q2 & -> & Hq2).
      exists q, m, q2. auto.
    + right. left. exists q, r. auto.
  - destruct (char_is JS.is_quote (last_char s)) eqn:Hl.
    + right. right. left.
      destruct (last_char_quote s Hl) as (m & q & E & Hq).
      exists m, q. auto.
    + right. right. right. auto.
Qed.

(** C7 -- Primary font name extraction.  A name is collected exactly when it
    is not empty and is the primary name of the font-family of some node of
    the forest, at any depth; an absent or empty font-family gives nothing.
    The collected names are pairwise distinct as strings, so names that differ
    by case only are both kept.  The primary name of a value is computed from
    the substring before its first comma (all of it when it has none), rid of
    the white space at both ends and of nothing else.  Of that, one quote,
    single or double, is dropped at each end where there is one: at both ends
    (the two need not be the same quote), at the start only, or at the end
    only; a string with no quote at either end is kept whole, and a string
    has one of these four shapes.  No more than one quote goes at each end. *)
Theorem C7_primary_font_names els :
  (forall name,
      In name (collectFontsFromElements els) <->
      name <> "" /\
      exists el ff, In el (nodes els)
                    /\ JS.get "font-family" (attributes el) = Some ff
                    /\ primary ff = name)
  /\ NoDup (collectFontsFromElements els)
  /\ (forall ff, exists head l r,
         JS.includes "," head = false
         /\ (ff = head \/ exists rest, ff = head ++ String "," rest)
         /\ head = l ++ JS.trim head ++ r
         /\ all_ws l = true /\ all_ws r = true
         /\ char_is JS.is_ws (first_char (JS.trim head)) = false
         /\ char_is JS.is_ws (last_char (JS.trim head)) = false
         /\ primary ff = JS.stripQuotes (JS.trim head))
  /\ (forall q1 q2 mid,
         JS.is_quote q1 = true -> JS.is_quote q2 = true ->
         JS.stripQuotes (String q1 (mid ++ String q2 "")) = mid)
  /\ (forall q r,
         JS.is_quote q = true ->
         char_is JS.is_quote (last_char r) = false ->
         JS.stripQuotes (String q r) = r)
  /\ (forall r q,
         char_is JS.is_quote (first_char (r ++ String q "")) = false ->
         JS.is_quote q = true ->
         JS.stripQuotes (r ++ String q "") = r)
  /\ (forall s,
         char_is JS.is_quote (first_char s) = false ->
         char_is JS.is_quote (last_char s) = false ->
         JS.stripQuotes s = s)
  /\ (forall s,
         (exists q1 mid q2, JS.is_quote q1 = true /\ JS.is_quote q2 = true
                            /\ s = String q1 (mid ++ String q2 ""))
         \/ (exists q r, JS.is_quote q = true
                         /\ char_is JS.is_quote (last_char r) = false
                         /\ s = String q r)
         \/ (exists r q, char_is JS.is_quote (first_char s) = false
                         /\ JS.is_quote q = true
                         /\ s = r ++ String q "")
         \/ (char_is JS.is_quote (first_char s) = false
             /\ char_is JS.is_quote (last_char s) = false))
  /\ (forall c, JS.is_quote c = true <-> c = "'"%char \/ String c "" = JS.DQ)
  /\ primary (JS.DQ ++ "Open Sans" ++ JS.DQ ++ ", Arial, sans-serif")
     = "Open Sans"
  /\ primary "'Open Sans', Arial" = "Open Sans"
  /\ primary "Georgia" = "Georgia"
  /\ primary (JS.DQ ++ "Half, serif") = "Half"
  /\ primary ("Half" ++ JS.DQ ++ ", serif") = "Half"
  /\ primary ("'Mixed" ++ JS.DQ) = "Mixed"
  /\ primary ("''Twice''") = "'Twice'"
  /\ collectFontsFromElements sampleFontTree = ["Roboto"; "roboto"].
Proof.
  split; [apply collectFonts_In|]. split; [apply collectFonts_NoDup|].
  split.
  { intros ff. destruct (split_head "," ff) as [Hi Hs].
    destruct (trim_spec (hd "" (JS.split "," ff)))
      as (l & r & Hlr & Hl & Hr & Hf & Hla).
    exists (hd "" (JS.split "," ff)), l, r. repeat split; assumption. }
  split; [apply stripQuotes_surrounded|].
  split; [apply stripQuotes_leading|].
  split; [apply stripQuotes_trailing|].
  split; [apply stripQuotes_bare|].
  split; [apply quote_shapes|].
  split.
  { intros c. unfold JS.is_quote. rewrite orb_true_iff, !Nat.eqb_eq. split.
    - intros [H|H]; [right|left].
      + rewrite <- (ascii_nat_embedding c), H. reflexivity.
      + rewrite <- (ascii_nat_embedding c), H. reflexivity.
    - intros [->|H]; [now right|]. left. injection H as ->. reflexivity. }
  repeat split; reflexivity.
Qed.

(** * The lines of the head *)

Lemma join_app sep a b :
  a <> [] -> b <> [] ->
  JS.join sep (a ++ b)%list = JS.join sep a ++ sep ++ JS.join sep b.
Proof.
  intros Ha Hb. induction a as [|x r IH]; [congruence|].
  destruct r as [|y r'].
  - cbn [app]. rewrite join_cons. destruct b; [congruence|]. reflexivity.
  - change ((x :: y :: r') ++ b)%list with (x :: ((y :: r') ++ b))%list.
    rewrite (join_cons sep x ((y :: r') ++ b)%list).
    rewrite (join_cons sep x (y :: r')).
    cbn [app]. change (y :: (r' ++ b)%list) with ((y :: r') ++ b)%list.
    rewrite IH by discriminate. now rewrite !append_assoc.
Qed.

Lemma join_truthy_all sep l :
  l <> [] -> Forall (fun s => JS.truthy s = true) l ->
  JS.truthy (JS.join sep l) = true.
Proof.
  intros Hl Hall. destruct l as [|x r]; [congruence|].
  apply join_truthy. now inversion Hall.
Qed.

(** Two blocks of non-empty lines, joined as [headContent] joins them, are
    the lines of both, joined. *)
Lemma join_blocks sep a b :
  Forall (fun s => JS.truthy s = true) a ->
  Forall (fun s => JS.truthy s = true) b ->
  JS.join sep (filter JS.truthy [JS.join sep a; JS.join sep b])
  = JS.join sep (a ++ b)%list.
Proof.
  intros Ha Hb. destruct a as [|x r].
  - cbn [filter app]. change (JS.truthy (JS.join sep [])) with false.
    cbv iota. destruct b as [|y s]; [reflexivity|].
    rewrite (join_truthy_all sep (y :: s)) by (congruence || assumption).
    reflexivity.
  - cbn [filter].
    rewrite (join_truthy_all sep (x :: r)) by (congruence || assumption).
    destruct b as [|y s].
    + change (JS.truthy (JS.join sep [])) with false. cbv iota.
      now rewrite app_nil_r.
    + rewrite (join_truthy_all sep (y :: s)) by (congruence || assumption).
      rewrite join_app by discriminate. reflexivity.
Qed.

Lemma autoFontLines_truthy els :
  Forall (fun s => JS.truthy s = true) (autoFontLines els).
Proof.
  rewrite autoFontLines_eq. apply Forall_forall. intros s Hs.
  apply in_map_iff in Hs. destruct Hs as (f & <- & _). apply fontLine_truthy.
Qed.

Lemma headContent_lines reg els :
  headContent reg els = JS.join JS.NL (headLines reg els).
Proof.
  unfold headContent, manualHeadLines, autoFontBlock, headLines.
  apply join_blocks; [|apply autoFontLines_truthy].
  apply Forall_forall. intros s Hs. apply in_map_iff in Hs.
  destruct Hs as (el & <- & _). apply renderEl_truthy.
Qed.

Lemma headContent_truthy reg els : JS.truthy (headContent reg els) = true.
Proof.
  destruct (JS.has (alreadyDeclared els) "inter") eqn:Hd.
  - apply headContent_truthy_manual, manualHeadLines_truthy.
    apply has_declaredFontNames in Hd. destruct Hd as (m & n & Hm & _).
    intros E. unfold manualFontEls in Hm. rewrite E in Hm. destruct Hm.
  - apply headContent_truthy_auto. unfold autoFontBlock.
    rewrite autoFontLines_eq. unfold autoFonts, baselineFonts. rewrite Hd.
    cbn [app map fst snd]. apply join_truthy, fontLine_truthy.
Qed.

(** The document is its wrapper around the lines of the head, which are
    never none, and the body. *)
Lemma generateMJML_document reg els :
  generateMJML reg els = document (headLines reg els) (bodyBlock reg els).
Proof.
  rewrite (generateMJML_with_head reg els (headContent_truthy reg els)).
  rewrite headContent_lines. reflexivity.
Qed.

Lemma generateMJML_head_el reg els el :
  In el (headEls els) ->
  occurs_in (renderEl reg el "    ") (generateMJML reg els).
Proof.
  intros Hin. rewrite generateMJML_document. unfold document.
  do 4 apply occurs_in_app_l. apply occurs_in_app_r.
  apply occurs_in_join. unfold headLines. apply in_or_app. left.
  apply in_map_iff. exists el. split; [reflexivity|exact Hin].
Qed.

Lemma generateMJML_body_el reg els el :
  In el (bodyEls els) ->
  occurs_in (renderEl reg el "    ") (generateMJML reg els).
Proof.
  intros Hin. rewrite generateMJML_document. unfold document.
  do 8 apply occurs_in_app_l. apply occurs_in_app_r.
  now apply bodyBlock_el.
Qed.

(** * Manual and synthesised font declarations *)







(** * The serialiser on unchecked input *)

Lemma filter_map_comm {A B : Type} (f : A -> B) (p : B -> bool) (q : A -> bool) l :
  (forall x, p (f x) = q x) ->
  filter p (map f l) = map f (filter q l).
Proof.
  intros H. induction l as [|x r IH]; [reflexivity|].
  simpl. rewrite H, IH. now destruct (q x).
Qed.

Lemma raw_visibleb el : Raw.visibleb (raw_of el) = visibleb el.
Proof. destruct el as [i t a c ch h l]. now destruct h, ch. Qed.

Lemma raw_type el : Raw.type (raw_of el) = Raw.Present (type el).
Proof. now destruct el. Qed.

Lemma raw_attributes el :
  Raw.attributes (raw_of el) = Raw.Present (attributes el).
Proof. now destruct el. Qed.

Lemma raw_content el : Raw.content (raw_of el) = field_of (content el).
Proof. now destruct el. Qed.

Lemma raw_children el :
  Raw.children (raw_of el)
  = match children el with
    | Some cs => Raw.Present (map raw_of cs)
    | None => Raw.Absent
    end.
Proof. now destruct el. Qed.

Lemma raw_stripHidden_el el :
  Raw.stripHidden_el (raw_of el) = raw_of (stripHidden_el el).
Proof.
  induction el as [i t a c ch h l IH] using MJElement_tree_ind.
  destruct ch as [cs|]; [|reflexivity].
  cbn [raw_of stripHidden_el Raw.stripHidden_el type attributes content
         children hidden]. f_equal. f_equal.
  induction cs as [|x r IHr]; [reflexivity|].
  inversion IH as [|? ? Hx Hr]; subst.
  cbn [map]. rewrite raw_visibleb. destruct (visibleb x).
  - cbn [map]. rewrite Hx. f_equal. now apply IHr.
  - now apply IHr.
Qed.

Lemma raw_stripHidden els :
  Raw.stripHidden (map raw_of els) = map raw_of (stripHidden els).
Proof.
  unfold Raw.stripHidden, stripHidden.
  rewrite (filter_map_comm raw_of Raw.visibleb visibleb) by apply raw_visibleb.
  rewrite !map_map. apply map_ext. intros el. apply raw_stripHidden_el.
Qed.

Lemma raw_headEls els :
  Raw.headEls (map raw_of els) = map raw_of (headEls els).
Proof.
  unfold Raw.headEls, Raw.visible, headEls, visible. rewrite raw_stripHidden.
  apply filter_map_comm. intros el. now rewrite raw_type.
Qed.

Lemma raw_bodyEls els :
  Raw.bodyEls (map raw_of els) = map raw_of (bodyEls els).
Proof.
  unfold Raw.bodyEls, Raw.visible, bodyEls, visible. rewrite raw_stripHidden.
  apply filter_map_comm. intros el. now rewrite raw_type.
Qed.

Lemma raw_manualFontEls els :
  Raw.manualFontEls (map raw_of els) = map raw_of (manualFontEls els).
Proof.
  unfold Raw.manualFontEls, manualFontEls. rewrite raw_headEls.
  apply filter_map_comm. intros el. now rewrite raw_type.
Qed.

Lemma raw_attribute el k :
  Raw.attribute (raw_of el) k = Raw.Ok (JS.get k (attributes el)).
Proof. unfold Raw.attribute. now rewrite raw_attributes. Qed.

(** No element with its attributes throws in [declaredFontNames]. *)
Lemma raw_declaredFontNames fontEls :
  Raw.declaredFontNames (map raw_of fontEls)
  = Raw.Ok (declaredFontNames fontEls).
Proof.
  unfold Raw.declaredFontNames, declaredFontNames. generalize (@nil string).
  induction fontEls as [|el r IH]; intros names; [reflexivity|].
  cbn [map Raw.declaredFontNames_loop fold_left].
  rewrite raw_attribute. cbn [Raw.bind]. rewrite IH. reflexivity.
Qed.

Lemma raw_walk_el el fonts :
  Raw.walk_el (raw_of el) fonts = Raw.Ok (walk_el el fonts).
Proof.
  revert fonts.
  induction el as [i t a c ch h l IH] using MJElement_tree_ind.
  intros fonts. destruct ch as [cs|]; [|reflexivity].
  cbn [raw_of Raw.walk_el walk_el type attributes content children hidden
         Raw.attribute Raw.attributes Raw.children Raw.bind].
  change (Raw.visit (JS.get "font-family" a) fonts)
    with (visit (mkMJElement i t a c (Some cs) h l) fonts).
  generalize (visit (mkMJElement i t a c (Some cs) h l) fonts).
  induction cs as [|x r IHr]; intros acc; [reflexivity|].
  inversion IH as [|? ? Hx Hr]; subst.
  cbn [map fold_left]. rewrite Hx. cbn [Raw.bind]. now apply IHr.
Qed.

Lemma raw_walk els fonts :
  Raw.walk (map raw_of els) fonts = Raw.Ok (walk els fonts).
Proof.
  revert fonts. induction els as [|el r IH]; intros fonts; [reflexivity|].
  cbn [map Raw.walk]. rewrite raw_walk_el. cbn [Raw.bind].
  rewrite IH. reflexivity.
Qed.

(** No element with its attributes throws in [collectFontsFromElements]. *)
Lemma raw_collectFontsFromElements els :
  Raw.collectFontsFromElements (map raw_of els)
  = Raw.Ok (collectFontsFromElements els).
Proof. apply raw_walk. Qed.

Lemma find_ext {A : Type} (f g : A -> bool) l :
  (forall x, f x = g x) -> find f l = find g l.
Proof.
  intros H. induction l as [|x r IH]; [reflexivity|].
  simpl. now rewrite H, IH.
Qed.

Lemma raw_componentDef reg el :
  Raw.componentDef reg (raw_of el) = componentDef reg el.
Proof.
  unfold Raw.componentDef, componentDef. rewrite raw_type.
  apply find_ext. intros c. apply String.eqb_sym.
Qed.

Lemma raw_attrStr reg el : Raw.attrStr reg (raw_of el) = attrStr reg el.
Proof.
  unfold Raw.attrStr, attrStr, Raw.attrs, attrs, Raw.emittedAttributes,
    emittedAttributes, Raw.mergedAttributes, mergedAttributes,
    Raw.registryDefaultAttrs, registryDefaultAttrs, Raw.ownAttributes.
  now rewrite raw_componentDef, raw_attributes.
Qed.

Lemma raw_typeText el : Raw.typeText (raw_of el) = type el.
Proof. unfold Raw.typeText. now rewrite raw_type. Qed.

Lemma raw_renderEl_eq reg el indent :
  Raw.renderEl reg el indent =
    if Raw.has SELF_CLOSING (Raw.type el) then
      indent ++ "<" ++ Raw.typeText el ++ Raw.attrStr reg el ++ " />"
    else
      let children :=
        match Raw.children el with
        | Raw.Present cs =>
            JS.join JS.NL (map (fun c => Raw.renderEl reg c (indent ++ "  ")) cs)
        | Raw.Absent | Raw.Null => ""
        end in
      let content :=
        match Raw.content el with
        | Raw.Present c => c
        | Raw.Absent | Raw.Null => ""
        end in
      let inner := JS.join JS.NL (filter JS.truthy [content; children]) in
      if negb (JS.truthy inner) then
        indent ++ "<" ++ Raw.typeText el ++ Raw.attrStr reg el
          ++ "></" ++ Raw.typeText el ++ ">"
      else if JS.includes (ascii_of_nat 10) inner then
        indent ++ "<" ++ Raw.typeText el ++ Raw.attrStr reg el ++ ">" ++ JS.NL
          ++ inner ++ JS.NL ++ indent ++ "</" ++ Raw.typeText el ++ ">"
      else
        indent ++ "<" ++ Raw.typeText el ++ Raw.attrStr reg el ++ ">"
          ++ inner ++ "</" ++ Raw.typeText el ++ ">".
Proof. destruct el. reflexivity. Qed.

Lemma raw_renderEl reg el indent :
  Raw.renderEl reg (raw_of el) indent = renderEl reg el indent.
Proof.
  revert indent.
  induction el as [i t a c ch h l IH] using MJElement_tree_ind.
  intros indent. rewrite raw_renderEl_eq, renderEl_eq.
  rewrite raw_type, raw_typeText, raw_attrStr, raw_content, raw_children.
  cbn [Raw.has type content children].
  assert (E : match
                match ch with
                | Some cs => Raw.Present (map raw_of cs)
                | None => Raw.Absent
                end
              with
              | Raw.Present cs =>
                  JS.join JS.NL
                    (map (fun c0 => Raw.renderEl reg c0 (indent ++ "  ")) cs)
              | Raw.Absent | Raw.Null => ""
              end
              = renderedChildren reg (mkMJElement i t a c ch h l) indent).
  { unfold renderedChildren. cbn [children].
    destruct ch as [cs|]; [|reflexivity]. f_equal. rewrite map_map.
    apply map_ext_in. intros x Hx.
    rewrite Forall_forall in IH. now apply IH. }
  cbv zeta. rewrite E.
  assert (C : match field_of c with
              | Raw.Present c0 => c0
              | Raw.Absent | Raw.Null => ""
              end = match c with Some c0 => c0 | None => "" end).
  { now destruct c. }
  rewrite C. reflexivity.
Qed.

(** On the elements of the data model, which have their type and their
    attributes, the service on unchecked input throws nothing and returns
    what [generateMJML] returns. *)
Lemma raw_generateMJML reg els :
  Raw.generateMJML reg (map raw_of els) = Raw.Ok (generateMJML reg els).
Proof.
  unfold Raw.generateMJML.
  rewrite raw_manualFontEls, raw_declaredFontNames. cbn [Raw.bind].
  rewrite raw_bodyEls, raw_collectFontsFromElements. cbn [Raw.bind].
  f_equal. unfold Raw.assemble. rewrite raw_headEls, raw_bodyEls.
  rewrite !map_map.
  assert (E : forall l,
             map (fun x => Raw.renderEl reg (raw_of x) "    ") l
             = map (fun x => renderEl reg x "    ") l).
  { intros l. apply map_ext. intros x. apply raw_renderEl. }
  rewrite !E. reflexivity.
Qed.

(** ** When the service throws *)

Lemma raw_stripHidden_el_attributes el :
  Raw.attributes (Raw.stripHidden_el el) = Raw.attributes el.
Proof. destruct el as [t a c ch h]. now destruct ch. Qed.

Lemma raw_stripHidden_el_type el :
  Raw.type (Raw.stripHidden_el el) = Raw.type el.
Proof. destruct el as [t a c ch h]. now destruct ch. Qed.

Lemma raw_walk_el_throws el fonts :
  (forall o, Raw.attributes el <> Raw.Present o) ->
  Raw.walk_el el fonts = Raw.Throw.
Proof.
  destruct el as [t a c ch h]. cbn [Raw.attributes]. intros H.
  destruct a as [| |o]; [reflexivity|reflexivity|]. now destruct (H o).
Qed.

(** A visible top-level body element that has no attributes object makes the
    service throw, whatever else the tree holds. *)
Lemma raw_body_without_attributes reg el rest :
  Raw.visibleb el = true ->
  Raw.has HEAD_TYPES (Raw.type el) = false ->
  (forall o, Raw.attributes el <> Raw.Present o) ->
  Raw.generateMJML reg (el :: rest) = Raw.Throw.
Proof.
  intros Hv Ht Ha. unfold Raw.generateMJML.
  destruct (Raw.declaredFontNames (Raw.manualFontEls (el :: rest)));
    [|reflexivity].
  cbn [Raw.bind].
  assert (E : Raw.bodyEls (el :: rest)
              = Raw.stripHidden_el el :: Raw.bodyEls rest).
  { unfold Raw.bodyEls, Raw.visible, Raw.stripHidden. cbn [filter].
    rewrite Hv. cbn [map filter]. now rewrite raw_stripHidden_el_type, Ht. }
  rewrite E. unfold Raw.collectFontsFromElements. cbn [Raw.walk].
  rewrite raw_walk_el_throws; [reflexivity|].
  intros o. rewrite raw_stripHidden_el_attributes. apply Ha.
Qed.

(** ** Exactly when the service throws *)

Lemma raw_subtree_eq el :
  Raw.subtree el
  = el :: match Raw.children el with
          | Raw.Present cs => flat_map Raw.subtree cs
          | Raw.Absent | Raw.Null => []
          end.
Proof. destruct el. reflexivity. Qed.

Lemma raw_walk_el_eq el fonts :
  Raw.walk_el el fonts
  = Raw.bind (Raw.attribute el "font-family")
      (fun ff =>
         match Raw.children el with
         | Raw.Present cs => Raw.walk cs (Raw.visit ff fonts)
         | Raw.Absent | Raw.Null => Raw.Ok (Raw.visit ff fonts)
         end).
Proof.
  destruct el as [t a c ch h]. cbn [Raw.walk_el Raw.children].
  f_equal.
Qed.

(** The walk returns when every node it visits has its attributes, and
    throws when one has not. *)
Lemma raw_walk_el_spec el :
  forall fonts,
    if forallb Raw.hasAttributes (Raw.subtree el)
    then exists out, Raw.walk_el el fonts = Raw.Ok out
    else Raw.walk_el el fonts = Raw.Throw.
Proof.
  induction el as [t a c ch h IH] using Raw.element_tree_ind.
  intros fonts. rewrite raw_subtree_eq, raw_walk_el_eq.
  cbn [forallb Raw.children]. unfold Raw.hasAttributes at 1, Raw.attribute.
  cbn [Raw.attributes].
  destruct a as [| |o]; [reflexivity|reflexivity|].
  cbn [Raw.bind andb].
  destruct ch as [| |cs]; [eexists; reflexivity|eexists; reflexivity|].
  generalize (Raw.visit (JS.get "font-family" o) fonts).
  induction cs as [|x r IHr]; intros acc; [eexists; reflexivity|].
  inversion IH as [|? ? Hx Hr]; subst.
  cbn [flat_map Raw.walk]. rewrite forallb_app.
  specialize (Hx acc).
  destruct (forallb Raw.hasAttributes (Raw.subtree x)).
  - destruct Hx as [out ->]. cbn [Raw.bind andb]. now apply IHr.
  - rewrite Hx. reflexivity.
Qed.

Lemma raw_walk_spec els :
  forall fonts,
    if forallb Raw.hasAttributes (Raw.nodes els)
    then exists out, Raw.walk els fonts = Raw.Ok out
    else Raw.walk els fonts = Raw.Throw.
Proof.
  unfold Raw.nodes. induction els as [|x r IH]; intros fonts;
    [eexists; reflexivity|].
  cbn [flat_map Raw.walk]. rewrite forallb_app.
  pose proof (raw_walk_el_spec x fonts) as Hx.
  destruct (forallb Raw.hasAttributes (Raw.subtree x)).
  - destruct Hx as [out ->]. cbn [Raw.bind andb]. apply IH.
  - rewrite Hx. reflexivity.
Qed.

Lemma raw_declaredFontNames_spec fontEls :
  forall names,
    if forallb Raw.hasAttributes fontEls
    then exists out, Raw.declaredFontNames_loop fontEls names = Raw.Ok out
    else Raw.declaredFontNames_loop fontEls names = Raw.Throw.
Proof.
  induction fontEls as [|x r IH]; intros names; [eexists; reflexivity|].
  cbn [forallb Raw.declaredFontNames_loop].
  unfold Raw.hasAttributes at 1, Raw.attribute.
  destruct (Raw.attributes x) as [| |o]; [reflexivity|reflexivity|].
  cbn [Raw.bind andb]. apply IH.
Qed.

(** The service returns a document when every element whose attributes it
    reads has them, and throws otherwise. *)
Lemma raw_generateMJML_spec reg els :
  if Raw.readable els
  then exists out, Raw.generateMJML reg els = Raw.Ok out
  else Raw.generateMJML reg els = Raw.Throw.
Proof.
  unfold Raw.readable, Raw.generateMJML, Raw.declaredFontNames,
    Raw.collectFontsFromElements.
  pose proof (raw_declaredFontNames_spec (Raw.manualFontEls els) []) as Hd.
  destruct (forallb Raw.hasAttributes (Raw.manualFontEls els)).
  - destruct Hd as [declared ->]. cbn [Raw.bind andb].
    pose proof (raw_walk_spec (Raw.bodyEls els) []) as Hw.
    destruct (forallb Raw.hasAttributes (Raw.nodes (Raw.bodyEls els))).
    + destruct Hw as [used ->]. eexists. reflexivity.
    + rewrite Hw. reflexivity.
  - rewrite Hd. reflexivity.
Qed.

Lemma raw_generateMJML_throws reg els :
  Raw.generateMJML reg els = Raw.Throw <-> Raw.readable els = false.
Proof.
  pose proof (raw_generateMJML_spec reg els) as H.
  destruct (Raw.readable els).
  - destruct H as [out ->]. split; discriminate.
  - tauto.
Qed.

(** * Nodes of a type the registry does not know *)

Lemma rendered_sub_eq el :
  rendered_sub el
  = el :: if JS.has SELF_CLOSING (type el) then []
          else match children el with
               | Some cs => flat_map rendered_sub cs
               | None => []
               end.
Proof. destruct el. reflexivity. Qed.

(** A rendered node is written somewhere in the text of the element it is
    rendered from. *)
Lemma rendered_sub_occurs reg el n :
  In n (rendered_sub el) ->
  forall indent, exists ind,
    occurs_in (renderEl reg n ind) (renderEl reg el indent).
Proof.
  induction el as [i t a c ch h l IH] using MJElement_tree_ind.
  rewrite rendered_sub_eq. cbn [type children].
  intros [<-|Hin] indent; [exists indent; apply occurs_in_refl|].
  destruct (JS.has SELF_CLOSING t) eqn:Hs; [destruct Hin|].
  destruct ch as [cs|]; [|destruct Hin].
  apply in_flat_map in Hin. destruct Hin as (x & Hx & Hn).
  rewrite Forall_forall in IH.
  destruct (IH x Hx Hn (indent ++ "  ")) as (ind & Hocc).
  exists ind. apply (occurs_in_trans _ _ _ Hocc).
  now apply (renderEl_child reg _ cs).
Qed.

Lemma visible_head_or_body els el :
  In el (visible els) -> In el (headEls els) \/ In el (bodyEls els).
Proof.
  intros Hin. unfold headEls, bodyEls. rewrite !filter_In.
  destruct (JS.has HEAD_TYPES (type el)); [left|right]; now split.
Qed.

(** A rendered node is written somewhere in the document. *)
Lemma rendered_in_document reg els n :
  In n (renderedNodes els) ->
  exists ind, occurs_in (renderEl reg n ind) (generateMJML reg els).
Proof.
  unfold renderedNodes. intros Hin. apply in_flat_map in Hin.
  destruct Hin as (top & Htop & Hn).
  destruct (rendered_sub_occurs reg top n Hn "    ") as (ind & Hocc).
  exists ind. apply (occurs_in_trans _ _ _ Hocc).
  destruct (visible_head_or_body els top Htop).
  - now apply generateMJML_head_el.
  - now apply generateMJML_body_el.
Qed.

Lemma emittedAttributes_unregistered reg el :
  componentDef reg el = None ->
  JS.wf (attributes el) ->
  emittedAttributes reg el = filter nonblank (attributes el).
Proof.
  intros Hn Hwf. unfold emittedAttributes, mergedAttributes,
    registryDefaultAttrs. rewrite Hn. cbn [JS.spread fold_left].
  fold (JS.spread (attributes el) []). now rewrite spread_empty.
Qed.

Lemma attrStr_unregistered reg el :
  componentDef reg el = None -> attrStr reg el = attrStr [] el.
Proof.
  intros Hn. unfold attrStr, attrs, emittedAttributes, mergedAttributes,
    registryDefaultAttrs. now rewrite Hn.
Qed.

(** An element none of whose rendered nodes is registered renders as with
    the empty registry. *)
Lemma renderEl_unregistered reg el :
  (forall n, In n (rendered_sub el) -> componentDef reg n = None) ->
  forall indent, renderEl reg el indent = renderEl [] el indent.
Proof.
  induction el as [i t a c ch h l IH] using MJElement_tree_ind.
  intros Hall indent. rewrite !renderEl_eq.
  set (el := mkMJElement i t a c ch h l) in *.
  assert (Ha : attrStr reg el = attrStr [] el).
  { apply attrStr_unregistered, Hall. rewrite rendered_sub_eq. now left. }
  rewrite Ha.
  destruct (JS.has SELF_CLOSING (type el)) eqn:Hs; [reflexivity|].
  assert (Hc : renderedChildren reg el indent = renderedChildren [] el indent).
  { unfold renderedChildren. subst el. cbn [children type] in *.
    destruct ch as [cs|]; [|reflexivity]. f_equal.
    apply map_ext_in. intros x Hx. rewrite Forall_forall in IH.
    apply (IH x Hx). intros n Hn. apply Hall.
    rewrite rendered_sub_eq. cbn [type children]. rewrite Hs. right.
    apply in_flat_map. now exists x. }
  unfold inner. rewrite Hc. reflexivity.
Qed.

(** A document none of whose rendered nodes is registered is the document of
    the empty registry. *)
Lemma generateMJML_unregistered reg els :
  (forall n, In n (renderedNodes els) -> componentDef reg n = None) ->
  generateMJML reg els = generateMJML [] els.
Proof.
  intros Hall.
  assert (E : forall l, incl l (visible els) ->
                        map (fun el => renderEl reg el "    ") l
                        = map (fun el => renderEl [] el "    ") l).
  { intros l Hl. apply map_ext_in. intros x Hx.
    apply renderEl_unregistered. intros n Hn. apply Hall.
    unfold renderedNodes. apply in_flat_map. exists x. split; [|exact Hn].
    now apply Hl. }
  rewrite !generateMJML_document. unfold headLines, bodyBlock.
  rewrite (E (headEls els)), (E (bodyEls els)); [reflexivity| |].
  - unfold bodyEls. intros x Hx. apply filter_In in Hx. tauto.
  - unfold headEls. intros x Hx. apply filter_In in Hx. tauto.
Qed.

(** C9 -- Totality and unknown-type recovery.  The trees of the data model
    are the unchecked trees whose elements have their type and their
    attributes; on these the service, which throws when it reads an attribute
    of an element that has no attributes object, throws nothing: it returns
    the document of [generateMJML], whatever the registry.  The failure is a
    real one: on unchecked trees the same service throws exactly when a
    visible top-level font element, or a node of a visible top-level body
    element, has no attributes object; so it does on a tree that starts with
    a visible body element without attributes.
    A rendered node whose type has no entry in the registry is in the
    document as any other: its defaults are empty, so the attributes it has
    in its tag are its own non-blank attributes in their order, after its own
    type; and a document none of whose rendered nodes is registered is the
    document of the empty registry.  The model has no bound on the depth of
    the calls. *)
Theorem C9_total_and_generic reg els :
  Raw.generateMJML reg (map raw_of els) = Raw.Ok (generateMJML reg els)
  /\ (forall raw,
         Raw.generateMJML reg raw = Raw.Throw <-> Raw.readable raw = false)
  /\ (forall el rest,
         Raw.visibleb el = true ->
         Raw.has HEAD_TYPES (Raw.type el) = false ->
         (forall o, Raw.attributes el <> Raw.Present o) ->
         Raw.generateMJML reg (el :: rest) = Raw.Throw)
  /\ Raw.generateMJML reg [sampleNoAttributes] = Raw.Throw
  /\ (forall n,
         In n (renderedNodes els) ->
         componentDef reg n = None ->
         JS.wf (attributes n) ->
         plain (attributes n) ->
         registryDefaultAttrs reg n = []
         /\ emittedAttributes reg n = filter nonblank (attributes n)
         /\ exists ind rest,
             renderEl reg n ind
             = ind ++ "<" ++ type n
                 ++ attrText (filter nonblank (attributes n)) ++ rest
             /\ (rest = " />" \/ exists r, rest = ">" ++ r)
             /\ occurs_in (renderEl reg n ind) (generateMJML reg els))
  /\ ((forall n, In n (renderedNodes els) -> componentDef reg n = None) ->
      generateMJML reg els = generateMJML [] els).
Proof.
  split; [apply raw_generateMJML|].
  split; [intros raw; apply raw_generateMJML_throws|].
  split; [intros el rest; apply raw_body_without_attributes|].
  split; [reflexivity|].
  split; [|apply generateMJML_unregistered].
  intros n Hin Hnone Hwf _.
  split; [unfold registryDefaultAttrs; now rewrite Hnone|].
  split; [now apply emittedAttributes_unregistered|].
  destruct (rendered_in_document reg els n Hin) as (ind & Hocc).
  destruct (renderEl_shape reg n ind) as (rest & E & Hrest).
  exists ind, rest.
  rewrite <- (emittedAttributes_unregistered reg n Hnone Hwf).
  repeat split; assumption.
Qed.

Lemma C9_total_and_generic_witness :
  Raw.generateMJML sampleRegistry (map raw_of sampleUnknownTree)
  = Raw.Ok
      ("<mjml>" ++ JS.NL
         ++ "  <mj-head>" ++ JS.NL
         ++ fontLine "Inter" interUrl ++ JS.NL
         ++ "  </mj-head>" ++ JS.NL
         ++ "  <mj-body>" ++ JS.NL
         ++ "    <mj-section>      <mj-unknown a=" ++ JS.DQ ++ "1" ++ JS.DQ
         ++ ">x</mj-unknown></mj-section>" ++ JS.NL
         ++ "  </mj-body>" ++ JS.NL
         ++ "</mjml>")
  /\ In sampleUnknown (renderedNodes sampleUnknownTree)
  /\ componentDef sampleRegistry sampleUnknown = None
  /\ emittedAttributes sampleRegistry sampleUnknown = [("a", "1")]
  /\ generateMJML sampleRegistry sampleUnknownTree
     = generateMJML [] sampleUnknownTree
  /\ Raw.generateMJML [] [sampleNullAttributes]
     = Raw.Ok
         ("<mjml>" ++ JS.NL
            ++ "  <mj-head>" ++ JS.NL
            ++ "    <mj-title>T</mj-title>" ++ JS.NL
            ++ fontLine "Inter" interUrl ++ JS.NL
            ++ "  </mj-head>" ++ JS.NL
            ++ "  <mj-body>" ++ JS.NL ++ JS.NL
            ++ "  </mj-body>" ++ JS.NL
            ++ "</mjml>").
Proof.
  destruct (C9_total_and_generic sampleRegistry sampleUnknownTree)
    as (Htotal & _ & _ & _ & Hnode & Hall).
  assert (Hin : In sampleUnknown (renderedNodes sampleUnknownTree)).
  { right. left. reflexivity. }
  assert (Hwf : JS.wf (attributes sampleUnknown)).
  { unfold JS.wf. simpl. repeat constructor; simpl; intuition discriminate. }
  assert (Hp : plain (attributes sampleUnknown)).
  { repeat constructor. }
  destruct (Hnode sampleUnknown Hin eq_refl Hwf Hp) as (_ & Hem & _).
  split; [rewrite Htotal; reflexivity|]. split; [exact Hin|].
  split; [reflexivity|]. split; [rewrite Hem; reflexivity|].
  split; [|reflexivity].
  apply Hall. intros n [<-|[<-|[]]]; reflexivity.
Defined.
